(** * NullablePointersChecker: a shallow embedding and its verification

    The development follows
    [clang/lib/StaticAnalyzer/Checkers/NullablePointersChecker.cpp].

    Definitions:
    - [AST]: the part of the clang AST the checker inspects (qualified types,
      record declarations, expressions) and the type classifier
      ([isNonNullableType], [getNonNullableField], [isNullableObject],
      [isNullSafeExpr]).
    - [Core]: symbolic values, memory regions, the program state with the
      checker's registered maps, [getNullConstraint], and the hooks
      [checkPointer], [checkBeginFunction], [checkLoopCondition] together with
      the escape-record blocks of [checkPreCall], [checkPostCall] and
      [checkLocation].
    - [dno]: the alias graph of nullable objects ([setAliasInternal],
      [addAlias], [breakAliases], [alias], [updateConstraint]).
    - [Classifier]: [getLocTypeRank] and [isInterProcedural] on a call.
    - [CallEventKey]: the key of the constant-call map and its order.
    - [Hooks]: [checkLocation] on a store, [checkPostStmt] on a [BreakStmt]
      and [evalAssume].
    - [Objects]: the blocks of [checkCalleeExpr], [evalCall] and
      [checkPostCall] that handle nullable objects.
    - [Dereference]: the hooks that check a dereference, [checkPreStmt] on a
      [UnaryOperator], a [BinaryOperator] and a [MemberExpr], and the block
      of [checkPreCall] on the construction of a [gsl::not_null].
    - [Spec]: the properties the specification states, in its own words.

    Theorems: [ClassifierFacts], [CheckerFacts], [AliasFacts], and, on the
    code beside them, [TypeFacts], [TrackerFacts], [GraphFacts],
    [ObjectFacts], [AssumeFacts].

    Pointers to uniqued objects ([const MemRegion *], [SymbolRef],
    [const CXXRecordDecl *]) are compared by identity in the source; here
    regions are compared structurally (the region manager uniques them) and
    declarations and symbols carry an explicit identifier.  The analyzer core
    (store, constraint manager, exploded graph) is not part of the checker;
    what the checker needs of it is modelled from the specification and marked
    as such. *)

From Stdlib Require Import ZArith NArith String List Bool Lia.
From stdpp Require Import gmap strings list fin_maps countable.
From stdpp Require sorting.

Local Open Scope string_scope.
Local Open Scope list_scope.

(* ===================================================================== *)
(** * The AST as the checker observes it                                  *)
(* ===================================================================== *)

Module AST.

(** ** Qualified types

    Types are kept in canonical (desugared) form, so [getCanonicalType] and
    the desugaring half of [getUnqualifiedDesugaredType] are the identity.
    The cv-qualifiers of a [QualType] are stored with the node they
    qualify. *)

Record Qualifiers := mkQuals { Const : bool; Volatile : bool }.

Definition NoQuals : Qualifiers := mkQuals false false.

Inductive BuiltinKind := BK_Void | BK_Bool | BK_Int | BK_Char | BK_NullPtr.

(** [const CXXRecordDecl *]: record declarations are compared by address. *)
Definition RecordId := positive.

Inductive QualType :=
| BuiltinType (K : BuiltinKind) (Q : Qualifiers)
| PointerType (Pointee : QualType) (Q : Qualifiers)
| MemberPointerType (Pointee : QualType) (Class : RecordId) (Q : Qualifiers)
| LValueReferenceType (Pointee : QualType)
| RValueReferenceType (Pointee : QualType)
| ArrayType (Element : QualType)
| FunctionProtoType
| RecordType (Decl : RecordId) (Q : Qualifiers).

Definition isPointerType (T : QualType) : bool :=
  match T with PointerType _ _ => true | _ => false end.

Definition isMemberPointerType (T : QualType) : bool :=
  match T with MemberPointerType _ _ _ => true | _ => false end.

Definition isLValueReferenceType (T : QualType) : bool :=
  match T with LValueReferenceType _ => true | _ => false end.

Definition isReferenceType (T : QualType) : bool :=
  match T with LValueReferenceType _ | RValueReferenceType _ => true | _ => false end.

Definition isArrayType (T : QualType) : bool :=
  match T with ArrayType _ => true | _ => false end.

Definition isNullPtrType (T : QualType) : bool :=
  match T with BuiltinType BK_NullPtr _ => true | _ => false end.

Definition isBooleanType (T : QualType) : bool :=
  match T with BuiltinType BK_Bool _ => true | _ => false end.

Definition getQualifiers (T : QualType) : Qualifiers :=
  match T with
  | BuiltinType _ Q | PointerType _ Q | MemberPointerType _ _ Q | RecordType _ Q => Q
  | _ => NoQuals
  end.

Definition isConstQualified (T : QualType) : bool := Const (getQualifiers T).
Definition isVolatileQualified (T : QualType) : bool := Volatile (getQualifiers T).

(** [Type::getPointeeType]: the null type for a type without pointee. *)
Definition getPointeeType (T : QualType) : option QualType :=
  match T with
  | PointerType P _ | MemberPointerType P _ _
  | LValueReferenceType P | RValueReferenceType P => Some P
  | _ => None
  end.

Definition getNonReferenceType (T : QualType) : QualType :=
  match T with
  | LValueReferenceType P | RValueReferenceType P => P
  | _ => T
  end.

(** The [const Type *] behind a [QualType]: the node without its
    qualifiers. *)
Definition getUnqualifiedDesugaredType (T : QualType) : QualType :=
  match T with
  | BuiltinType K _ => BuiltinType K NoQuals
  | PointerType P _ => PointerType P NoQuals
  | MemberPointerType P C _ => MemberPointerType P C NoQuals
  | RecordType D _ => RecordType D NoQuals
  | _ => T
  end.

Definition getAsCXXRecordDecl (T : QualType) : option RecordId :=
  match T with RecordType D _ => Some D | _ => None end.

(** ** Declarations *)

Inductive AccessSpecifier := AS_public | AS_protected | AS_private | AS_none.

Definition AccessSpecifier_eqb (a b : AccessSpecifier) : bool :=
  match a, b with
  | AS_public, AS_public | AS_protected, AS_protected
  | AS_private, AS_private | AS_none, AS_none => true
  | _, _ => false
  end.

Inductive OverloadedOperatorKind :=
| OO_None | OO_EqualEqual | OO_ExclaimEqual | OO_Equal | OO_Star | OO_Arrow
| OO_ArrowStar | OO_Call | OO_New.

Inductive ExceptionSpecificationType :=
| EST_None | EST_DynamicNone | EST_Dynamic | EST_MSAny | EST_NoThrow
| EST_BasicNoexcept | EST_DependentNoexcept | EST_NoexceptFalse
| EST_NoexceptTrue | EST_Unevaluated | EST_Uninstantiated | EST_Unparsed.

Record ParmVarDecl := mkParm { ParmType : QualType }.

Record FunctionDecl := mkFunction {
  FunctionName : string;              (* getQualifiedNameAsString *)
  OverloadedOperator : OverloadedOperatorKind;
  parameters : list ParmVarDecl;
  ExceptionSpecType : ExceptionSpecificationType;
  isImplicit : bool
}.

Definition isOverloadedOperator (F : FunctionDecl) : bool :=
  match OverloadedOperator F with OO_None => false | _ => true end.

(** The predicates of [CXXConstructorDecl] the classifier calls.
    [isCopyAssignmentOperator] is the member inherited from
    [CXXMethodDecl]. *)
Record CXXConstructorDecl := mkCtor {
  isDefaultConstructor : bool;
  isCopyConstructor : bool;
  isCopyAssignmentOperator : bool;
  isConvertingConstructor : bool;     (* isConvertingConstructor(true) *)
  CtorAccess : AccessSpecifier;
  CtorParams : list ParmVarDecl
}.

(** An entry of [getVisibleConversionFunctions]. *)
Inductive NamedDecl :=
| CXXConversionDecl (ReturnType : QualType)
| OtherNamedDecl.

(** [FriendDecl::getFriendDecl] is null for a friend type. *)
Inductive FriendDecl :=
| FriendType
| FriendFunction (F : FunctionDecl)
| FriendOther.                        (* e.g. a friend function template *)

Record FieldDecl := mkField {
  FieldName : string;
  FieldType : QualType;
  FieldParent : RecordId
}.

Record CXXRecordDecl := mkRecord {
  DeclId : RecordId;
  QualifiedName : string;             (* getQualifiedNameAsString *)
  fields : list FieldDecl;
  ctors : list CXXConstructorDecl;
  hasSimpleCopyConstructor : bool;
  hasTrivialCopyConstructor : bool;
  hasSimpleCopyAssignment : bool;
  hasTrivialCopyAssignment : bool;
  VisibleConversionFunctions : list NamedDecl;
  friends : list FriendDecl
}.

(** Dereferencing a [const CXXRecordDecl *]. *)
Record ASTContext := mkAST { getRecordDecl : RecordId → CXXRecordDecl }.

(** ** Marker names *)

Definition NotNullPtrQualifiedName : string := "gsl::not_null".
Definition MakeNotNullQualifiedName : string := "gsl::make_not_null".
Definition StdForwardQualifiedName : string := "std::forward".
Definition StdMoveQualifiedName : string := "std::move".

(** ** Type classifier *)

Definition getNakedType (T : QualType) : QualType :=
  let TT := getUnqualifiedDesugaredType (getNonReferenceType T) in
  if isReferenceType TT then
    match getPointeeType TT with
    | Some P => getUnqualifiedDesugaredType P
    | None => TT
    end
  else TT.

Definition getCXXRecordFromType (T : QualType) : option RecordId :=
  getAsCXXRecordDecl (getNakedType T).

Definition isNonNullableType (Ctx : ASTContext) (T : QualType) : bool :=
  match getCXXRecordFromType T with
  | None => false
  | Some R => String.eqb (QualifiedName (getRecordDecl Ctx R)) NotNullPtrQualifiedName
  end.

Definition getNonNullableField (Ctx : ASTContext) (T : QualType) : option FieldDecl :=
  match getCXXRecordFromType T with
  | None => None
  | Some R =>
      List.find (fun FD => String.eqb (FieldName FD) "ptr_") (fields (getRecordDecl Ctx R))
  end.

Definition isRawPointerType (T : QualType) : bool :=
  isPointerType T || isMemberPointerType T.

Definition isNakedRawPointerType (T : QualType) : bool :=
  let NT := getNakedType T in isPointerType NT || isMemberPointerType NT.

Definition isLocType (T : QualType) : bool :=
  isLValueReferenceType T || isPointerType T || isMemberPointerType T.

(** [llvm::any_of] over a predicate that can fail: the scan stops at the first
    element that satisfies the predicate, and an element whose test is
    undefined (an asserting [dyn_cast] on a null pointer, an [ArrayRef] index
    past the end) aborts it. *)
Fixpoint any_of {A} (P : A → option bool) (l : list A) : option bool :=
  match l with
  | [] => Some false
  | x :: l' =>
      match P x with
      | None => None
      | Some true => Some true
      | Some false => any_of P l'
      end
  end.

(** The friend test shared by the two lambdas [HasEQOp] and [HasInEQOp] of
    [isNullableObject]; [Op] is the operator whose friends the lambda returns
    [false] for.  Parameter types are never null, so the test
    [LHST.isNull() && RHST.isNull()] of the source is always false. *)
Definition OverloadedOperatorKind_eqb (a b : OverloadedOperatorKind) : bool :=
  match a, b with
  | OO_None, OO_None | OO_EqualEqual, OO_EqualEqual
  | OO_ExclaimEqual, OO_ExclaimEqual | OO_Equal, OO_Equal | OO_Star, OO_Star
  | OO_Arrow, OO_Arrow | OO_ArrowStar, OO_ArrowStar | OO_Call, OO_Call
  | OO_New, OO_New => true
  | _, _ => false
  end.

Definition isOwnRecord (R : CXXRecordDecl) (X : option RecordId) : bool :=
  match X with Some D => Pos.eqb D (DeclId R) | None => false end.

Definition friendOperands (R : CXXRecordDecl) (LHST RHST : QualType) : bool :=
  let LHSR := getCXXRecordFromType LHST in
  let RHSR := getCXXRecordFromType RHST in
  (isOwnRecord R LHSR && isOwnRecord R RHSR)
  || (isOwnRecord R LHSR && isNullPtrType RHST)
  || (isOwnRecord R RHSR && isNullPtrType LHST).

Definition friendTest (Op : OverloadedOperatorKind) (R : CXXRecordDecl)
    (Friend : FriendDecl) : option bool :=
  match Friend with
  | FriendType => None                  (* dyn_cast on the null friend decl *)
  | FriendOther => Some false           (* not a FunctionDecl *)
  | FriendFunction F =>
      if isOverloadedOperator F && OverloadedOperatorKind_eqb (OverloadedOperator F) Op
      then Some false
      else
        match parameters F with
        | P0 :: P1 :: _ => Some (friendOperands R (ParmType P0) (ParmType P1))
        | _ => None                     (* F->parameters()[1] out of range *)
        end
  end.

Definition isNullableObject (R : CXXRecordDecl) : option bool :=
  let HasDefaultCtor :=
    existsb (fun Ctor => isDefaultConstructor Ctor
                         && AccessSpecifier_eqb (CtorAccess Ctor) AS_public) (ctors R) in
  if negb HasDefaultCtor then Some false else
  let HasCopyCtor :=
    existsb (fun Ctor => isCopyConstructor Ctor
                         && AccessSpecifier_eqb (CtorAccess Ctor) AS_public) (ctors R) in
  if negb HasCopyCtor && negb (hasSimpleCopyConstructor R || hasTrivialCopyConstructor R)
  then Some false else
  let HasCopyAssignment :=
    existsb (fun Ctor => isCopyAssignmentOperator Ctor
                         && AccessSpecifier_eqb (CtorAccess Ctor) AS_public) (ctors R) in
  if negb HasCopyAssignment && negb (hasSimpleCopyAssignment R || hasTrivialCopyAssignment R)
  then Some false else
  let HasNullPtrConversionCtor :=
    existsb (fun Ctor =>
               isConvertingConstructor Ctor
               && AccessSpecifier_eqb (CtorAccess Ctor) AS_public
               && match CtorParams Ctor with
                  | [] => false
                  | P :: _ => isNullPtrType (ParmType P)
                  end) (ctors R) in
  if negb HasNullPtrConversionCtor then Some false else
  let HasBoolConversion :=
    existsb (fun Conv => match Conv with
                         | CXXConversionDecl RT => isBooleanType RT
                         | OtherNamedDecl => false
                         end) (VisibleConversionFunctions R) in
  if negb HasBoolConversion then Some false else
  match any_of (friendTest OO_EqualEqual R) (friends R) with
  | None => None
  | Some false => Some false
  | Some true =>
      match any_of (friendTest OO_ExclaimEqual R) (friends R) with
      | None => None
      | Some false => Some false
      | Some true => Some true
      end
  end.

(** ** Expressions *)

Inductive CastKind :=
| CK_ArrayToPointerDecay | CK_FunctionToPointerDecay | CK_UserDefinedConversion
| CK_LValueToRValue | CK_NoOp | CK_BuiltinFnToFnPtr.

Inductive UnaryOperatorKind := UO_AddrOf | UO_Deref | UO_PreInc | UO_PostInc | UO_LNot.

(** The expression classes [isNullSafeExpr] and [checkPointer] discriminate.
    A new-expression has the type "pointer to the allocated type";
    [OperatorNew] is [getOperatorNew()], null when no allocation function was
    selected. *)
Inductive Expr :=
| ParenExpr (Sub : Expr)
| CXXNewExpr (AllocatedType : QualType) (OperatorNew : option FunctionDecl)
| CXXThisExpr (Ty : QualType)
| UnaryOperator (Opc : UnaryOperatorKind) (Sub : Expr) (Ty : QualType)
| ImplicitCastExpr (CK : CastKind) (Sub : Expr) (Ty : QualType)
| CXXMemberCallExpr (ObjectType : QualType) (Ty : QualType)
| DeclRefExpr (Ty : QualType)
| OtherExpr (Ty : QualType).

Fixpoint getType (E : Expr) : QualType :=
  match E with
  | ParenExpr Sub => getType Sub
  | CXXNewExpr A _ => PointerType A NoQuals
  | CXXThisExpr Ty | UnaryOperator _ _ Ty | ImplicitCastExpr _ _ Ty
  | CXXMemberCallExpr _ Ty | DeclRefExpr Ty | OtherExpr Ty => Ty
  end.

Fixpoint IgnoreParens (E : Expr) : Expr :=
  match E with ParenExpr Sub => IgnoreParens Sub | _ => E end.

Definition isNullSafeExpr (Ctx : ASTContext) (E : Expr) : bool :=
  if negb (isRawPointerType (getType E)) then false else
  match IgnoreParens E with
  | CXXNewExpr _ NewOp =>
      match NewOp with
      | None => false
      | Some NewOp =>
          match ExceptionSpecType NewOp with
          | EST_BasicNoexcept | EST_NoexceptTrue => false
          | _ => true
          end
      end
  | CXXThisExpr _ => true
  | UnaryOperator Opc _ _ => match Opc with UO_AddrOf => true | _ => false end
  | ImplicitCastExpr CK Sub _ =>
      match CK with
      | CK_ArrayToPointerDecay | CK_FunctionToPointerDecay => true
      | CK_UserDefinedConversion =>
          match Sub with
          | CXXMemberCallExpr ObjectType _ => isNonNullableType Ctx ObjectType
          | _ => false
          end
      | _ => false
      end
  | _ => false
  end.

(** ** Functions exempt from the escape analysis *)

Definition ignoreEscapeAnalysis_decl (FD : FunctionDecl) : bool :=
  let FDName := FunctionName FD in
  if String.eqb FDName MakeNotNullQualifiedName then true else
  if String.eqb FDName StdForwardQualifiedName then true else
  if String.eqb FDName StdMoveQualifiedName then true else
  if String.prefix NotNullPtrQualifiedName FDName then true else
  false.

End AST.

(* ===================================================================== *)
(** * Symbolic values, regions and the program state                      *)
(* ===================================================================== *)

Module Core.
Import AST.

(** ** Decidable equality and enumeration of types

    Regions are keys of the checker's maps, so types (which regions carry)
    need an injection into a countable set. *)

Global Instance Qualifiers_eq_dec : EqDecision Qualifiers.
Proof. solve_decision. Defined.

Global Instance BuiltinKind_eq_dec : EqDecision BuiltinKind.
Proof. solve_decision. Defined.

Global Instance QualType_eq_dec : EqDecision QualType.
Proof. solve_decision. Defined.

Definition BuiltinKind_to_nat (K : BuiltinKind) : nat :=
  match K with BK_Void => 0 | BK_Bool => 1 | BK_Int => 2 | BK_Char => 3 | BK_NullPtr => 4 end.

Definition BuiltinKind_of_nat (n : nat) : BuiltinKind :=
  match n with 0 => BK_Void | 1 => BK_Bool | 2 => BK_Int | 3 => BK_Char | _ => BK_NullPtr end.

Definition QualType_leaf : Type := (nat + bool * bool + positive)%type.

Definition leafK (K : BuiltinKind) : gen_tree QualType_leaf :=
  GenLeaf (inl (inl (BuiltinKind_to_nat K))).
Definition leafQ (Q : Qualifiers) : gen_tree QualType_leaf :=
  GenLeaf (inl (inr (Const Q, Volatile Q))).
Definition leafR (R : RecordId) : gen_tree QualType_leaf := GenLeaf (inr R).

Fixpoint QualType_enc (T : QualType) : gen_tree QualType_leaf :=
  match T with
  | BuiltinType K Q => GenNode 0 [leafK K; leafQ Q]
  | PointerType P Q => GenNode 1 [QualType_enc P; leafQ Q]
  | MemberPointerType P C Q => GenNode 2 [QualType_enc P; leafR C; leafQ Q]
  | LValueReferenceType P => GenNode 3 [QualType_enc P]
  | RValueReferenceType P => GenNode 4 [QualType_enc P]
  | ArrayType E => GenNode 5 [QualType_enc E]
  | FunctionProtoType => GenNode 6 []
  | RecordType D Q => GenNode 7 [leafR D; leafQ Q]
  end.

Fixpoint QualType_dec (t : gen_tree QualType_leaf) : QualType :=
  match t with
  | GenNode 0 [GenLeaf (inl (inl k)); GenLeaf (inl (inr (c, v)))] =>
      BuiltinType (BuiltinKind_of_nat k) (mkQuals c v)
  | GenNode 1 [p; GenLeaf (inl (inr (c, v)))] => PointerType (QualType_dec p) (mkQuals c v)
  | GenNode 2 [p; GenLeaf (inr r); GenLeaf (inl (inr (c, v)))] =>
      MemberPointerType (QualType_dec p) r (mkQuals c v)
  | GenNode 3 [p] => LValueReferenceType (QualType_dec p)
  | GenNode 4 [p] => RValueReferenceType (QualType_dec p)
  | GenNode 5 [e] => ArrayType (QualType_dec e)
  | GenNode 7 [GenLeaf (inr r); GenLeaf (inl (inr (c, v)))] => RecordType r (mkQuals c v)
  | _ => FunctionProtoType
  end.

Lemma QualType_dec_enc (T : QualType) : QualType_dec (QualType_enc T) = T.
Proof.
  induction T as [K [c v]|P IH [c v]|P IH C [c v]|P IH|P IH|E IH| |D [c v]];
    simpl; rewrite ?IH; try reflexivity.
  destruct K; reflexivity.
Qed.

Global Instance QualType_countable : Countable QualType :=
  inj_countable' QualType_enc QualType_dec QualType_dec_enc.

(** ** Symbols and memory regions *)

(** [SymbolRef], a [const SymExpr *]; [0] is the null pointer. *)
Definition SymbolRef := N.

(** [const Stmt *] / [const Decl *] used as identities. *)
Definition StmtId := positive.
Definition DeclRef := positive.

Record VarDecl := mkVar { VarId : DeclRef; VarType : QualType }.

Inductive MemRegion :=
| NonParamVarRegion (D : VarDecl)
| ParamVarRegion (Index : nat) (T : QualType)
| FieldRegion (Field : FieldDecl) (Super : MemRegion)
| ElementRegion (ElementType : QualType) (Index : Z) (Super : MemRegion)
| SymbolicRegion (Sym : SymbolRef)
| CodeTextRegion (F : DeclRef)
| CXXTempObjectRegion (E : StmtId) (T : QualType)
| CXXLifetimeExtendedObjectRegion (E : StmtId) (T : QualType)
| CXXThisRegion (T : QualType).

Global Instance VarDecl_eq_dec : EqDecision VarDecl.
Proof. solve_decision. Defined.

Global Instance FieldDecl_eq_dec : EqDecision FieldDecl.
Proof. solve_decision. Defined.

Global Instance MemRegion_eq_dec : EqDecision MemRegion.
Proof. solve_decision. Defined.

Definition MemRegion_leaf : Type := (positive + Z + (QualType + string) + N)%type.

Definition leafP (p : positive) : gen_tree MemRegion_leaf := GenLeaf (inl (inl (inl p))).
Definition leafZ (z : Z) : gen_tree MemRegion_leaf := GenLeaf (inl (inl (inr z))).
Definition leafT (T : QualType) : gen_tree MemRegion_leaf := GenLeaf (inl (inr (inl T))).
Definition leafS (s : string) : gen_tree MemRegion_leaf := GenLeaf (inl (inr (inr s))).
Definition leafN (n : N) : gen_tree MemRegion_leaf := GenLeaf (inr n).

Fixpoint MemRegion_enc (R : MemRegion) : gen_tree MemRegion_leaf :=
  match R with
  | NonParamVarRegion D => GenNode 0 [leafP (VarId D); leafT (VarType D)]
  | ParamVarRegion i T => GenNode 1 [leafN (N.of_nat i); leafT T]
  | FieldRegion F Super =>
      GenNode 2 [leafS (FieldName F); leafT (FieldType F); leafP (FieldParent F);
                 MemRegion_enc Super]
  | ElementRegion T i Super => GenNode 3 [leafT T; leafZ i; MemRegion_enc Super]
  | SymbolicRegion s => GenNode 4 [leafN s]
  | CodeTextRegion F => GenNode 5 [leafP F]
  | CXXTempObjectRegion E T => GenNode 6 [leafP E; leafT T]
  | CXXLifetimeExtendedObjectRegion E T => GenNode 7 [leafP E; leafT T]
  | CXXThisRegion T => GenNode 8 [leafT T]
  end.

Fixpoint MemRegion_dec (t : gen_tree MemRegion_leaf) : MemRegion :=
  match t with
  | GenNode 0 [GenLeaf (inl (inl (inl d))); GenLeaf (inl (inr (inl T)))] =>
      NonParamVarRegion (mkVar d T)
  | GenNode 1 [GenLeaf (inr i); GenLeaf (inl (inr (inl T)))] => ParamVarRegion (N.to_nat i) T
  | GenNode 2 [GenLeaf (inl (inr (inr n))); GenLeaf (inl (inr (inl T)));
               GenLeaf (inl (inl (inl p))); s] =>
      FieldRegion (mkField n T p) (MemRegion_dec s)
  | GenNode 3 [GenLeaf (inl (inr (inl T))); GenLeaf (inl (inl (inr i))); s] =>
      ElementRegion T i (MemRegion_dec s)
  | GenNode 4 [GenLeaf (inr s)] => SymbolicRegion s
  | GenNode 5 [GenLeaf (inl (inl (inl f)))] => CodeTextRegion f
  | GenNode 6 [GenLeaf (inl (inl (inl e))); GenLeaf (inl (inr (inl T)))] =>
      CXXTempObjectRegion e T
  | GenNode 7 [GenLeaf (inl (inl (inl e))); GenLeaf (inl (inr (inl T)))] =>
      CXXLifetimeExtendedObjectRegion e T
  | GenNode 8 [GenLeaf (inl (inr (inl T)))] => CXXThisRegion T
  | _ => SymbolicRegion 0%N
  end.

Lemma MemRegion_dec_enc (R : MemRegion) : MemRegion_dec (MemRegion_enc R) = R.
Proof.
  induction R as [[d T]|i T|[n T p] Super IH|T i Super IH|s|f|e T|e T|T];
    simpl; rewrite ?IH, ?Nat2N.id; reflexivity.
Qed.

Global Instance MemRegion_countable : Countable MemRegion :=
  inj_countable' MemRegion_enc MemRegion_dec MemRegion_dec_enc.

(** [TypedValueRegion::getValueType]; [None] for a region that is not a
    typed value region. *)
Definition getValueType (R : MemRegion) : option QualType :=
  match R with
  | NonParamVarRegion D => Some (VarType D)
  | ParamVarRegion _ T => Some T
  | FieldRegion F _ => Some (FieldType F)
  | ElementRegion T _ _ => Some T
  | CXXTempObjectRegion _ T | CXXLifetimeExtendedObjectRegion _ T | CXXThisRegion T => Some T
  | SymbolicRegion _ | CodeTextRegion _ => None
  end.

(** ** Symbolic values *)

Inductive NullableKind := NonNullable | Nullable | VolatileNullable.

(** [UnknownNullableSVal::NullConstraint]. *)
Inductive NullConstraint := IsNull | IsNotNull | Unknown.

Definition negateNullConstraint (C : NullConstraint) : NullConstraint :=
  match C with
  | IsNull => IsNotNull
  | IsNotNull => IsNull
  | _ => C
  end.

Global Instance NullableKind_eq_dec : EqDecision NullableKind.
Proof. solve_decision. Defined.

Global Instance NullConstraint_eq_dec : EqDecision NullConstraint.
Proof. solve_decision. Defined.

(** The kinds of [SVal] the checker meets.  [UnknownNullableSVal] is the
    unknown value that carries a null constraint; [SVal::isUnknown] holds of
    it as of [UnknownVal], [isPureUnknown] of [UnknownVal] only and
    [isUnknownNullable] of [UnknownNullableSVal] only. *)
Inductive SVal :=
| UndefinedVal
| UnknownVal
| UnknownNullableSVal (C : NullConstraint)
| loc_MemRegionVal (R : MemRegion)
| loc_ConcreteInt (V : Z)
| nonloc_ConcreteInt (V : Z)
| nonloc_SymbolVal (Sym : SymbolRef)
| nonloc_LazyCompoundVal (R : MemRegion).

Global Instance SVal_eq_dec : EqDecision SVal.
Proof. solve_decision. Defined.

Definition isUndef (V : SVal) : bool :=
  match V with UndefinedVal => true | _ => false end.

Definition isPureUnknown (V : SVal) : bool :=
  match V with UnknownVal => true | _ => false end.

Definition isUnknownNullable (V : SVal) : bool :=
  match V with UnknownNullableSVal _ => true | _ => false end.

Definition isUnknown (V : SVal) : bool := isPureUnknown V || isUnknownNullable V.

Definition isUnknownOrUndef (V : SVal) : bool := isUnknown V || isUndef V.

Definition isLoc (V : SVal) : bool :=
  match V with loc_MemRegionVal _ | loc_ConcreteInt _ => true | _ => false end.

Definition isConstant (V : SVal) : bool :=
  match V with loc_ConcreteInt _ | nonloc_ConcreteInt _ => true | _ => false end.

Definition isZeroConstant (V : SVal) : bool :=
  match V with loc_ConcreteInt z | nonloc_ConcreteInt z => Z.eqb z 0 | _ => false end.

Definition getAsRegion (V : SVal) : option MemRegion :=
  match V with loc_MemRegionVal R => Some R | _ => None end.

(** [getLValLocRegion] on a region and on a value. *)
Definition getLValLocRegion_region (R : MemRegion) : option MemRegion :=
  match R with
  | FieldRegion _ _ | ParamVarRegion _ _ | NonParamVarRegion _ => Some R
  | _ => None
  end.

Definition getLValLocRegion (Val : SVal) : option MemRegion :=
  match Val with
  | loc_MemRegionVal R => getLValLocRegion_region R
  | _ => None
  end.

Definition isLValLoc (Val : SVal) : bool := bool_decide (is_Some (getLValLocRegion Val)).

Definition getGLValLocRegion_region (R : MemRegion) : option MemRegion :=
  match R with
  | FieldRegion _ _ | ParamVarRegion _ _ | NonParamVarRegion _
  | CXXTempObjectRegion _ _ | CXXLifetimeExtendedObjectRegion _ _ => Some R
  | _ => None
  end.

Definition getGLValLocRegion (Val : SVal) : option MemRegion :=
  match Val with
  | loc_MemRegionVal R => getGLValLocRegion_region R
  | _ => None
  end.

Definition isGLValLoc (Val : SVal) : bool := bool_decide (is_Some (getGLValLocRegion Val)).

(** ** The program state *)

Inductive ConstraintValidity := Valid | AlwaysValid | Invalid | AlwaysInvalid.

Global Instance ConstraintValidity_eq_dec : EqDecision ConstraintValidity.
Proof. solve_decision. Defined.

Record EscapedNullableState := mkEscaped {
  Constraint : NullConstraint;
  Validity : ConstraintValidity
}.

Global Instance EscapedNullableState_eq_dec : EqDecision EscapedNullableState.
Proof. solve_decision. Defined.

Inductive Weakening := Variant | Invariant.

(** [NullableObjectStateKey]: the opaque value of the
    [PointerUnion<const MemRegion *, SymbolRef>]; [0] is the null key.  Keys
    and symbols are ordered by that value. *)
Definition NullableObjectStateKey := N.

(** [llvm::ImmutableSet] over keys or symbols: iteration is in ascending
    order, so a set is kept as a strictly ascending list. *)
Module ImmutableSet.

Definition t := list N.

Definition getEmptySet : t := [].

Fixpoint add (Old : t) (V : N) : t :=
  match Old with
  | [] => [V]
  | X :: Rest =>
      if (V <? X)%N then V :: Old
      else if (V =? X)%N then Old
      else X :: add Rest V
  end.

Definition remove (Old : t) (V : N) : t :=
  List.filter (fun X => negb (X =? V)%N) Old.

Definition contains (Set_ : t) (V : N) : bool :=
  existsb (fun X => (X =? V)%N) Set_.

End ImmutableSet.

Definition DNOAliasSet := ImmutableSet.t.
Definition SymAliasSet := ImmutableSet.t.

(** The traits registered with [REGISTER_*_WITH_PROGRAMSTATE], preceded by the
    three components owned by the analyzer core that the checker reads and
    writes: the store bindings, the value a read of an unbound region
    produces, and the null constraints on symbols ([true]: constrained null,
    [false]: constrained not null). *)
Record ProgramState := mkState {
  Bindings : gmap MemRegion SVal;
  Unbound : MemRegion → SVal;
  Constraints : gmap SymbolRef bool;
  NullabilityMap : gmap MemRegion NullableKind;
  EscapedNullable : gmap MemRegion EscapedNullableState;
  NonLocalNullable : gset MemRegion;
  DNOConstraintMap : gmap NullableObjectStateKey NullConstraint;
  DNOAliasMap : gmap NullableObjectStateKey DNOAliasSet;
  PtrToDNOAliasMap : gmap SymbolRef DNOAliasSet;
  DNOToPtrAliasMap : gmap NullableObjectStateKey SymAliasSet;
  PtrGuards : gset SymbolRef;
  AliasGuard : bool;
  WeakenMap : gmap StmtId Weakening;
  WeakenSynonyms : gmap StmtId (list StmtId);
  LoopStack : list StmtId
}.

Definition set_Bindings (f : gmap MemRegion SVal → gmap MemRegion SVal)
    (S : ProgramState) : ProgramState :=
  mkState (f (Bindings S)) (Unbound S) (Constraints S) (NullabilityMap S)
    (EscapedNullable S) (NonLocalNullable S) (DNOConstraintMap S) (DNOAliasMap S)
    (PtrToDNOAliasMap S) (DNOToPtrAliasMap S) (PtrGuards S) (AliasGuard S)
    (WeakenMap S) (WeakenSynonyms S) (LoopStack S).

Definition set_Constraints (f : gmap SymbolRef bool → gmap SymbolRef bool)
    (S : ProgramState) : ProgramState :=
  mkState (Bindings S) (Unbound S) (f (Constraints S)) (NullabilityMap S)
    (EscapedNullable S) (NonLocalNullable S) (DNOConstraintMap S) (DNOAliasMap S)
    (PtrToDNOAliasMap S) (DNOToPtrAliasMap S) (PtrGuards S) (AliasGuard S)
    (WeakenMap S) (WeakenSynonyms S) (LoopStack S).

Definition set_EscapedNullable
    (f : gmap MemRegion EscapedNullableState → gmap MemRegion EscapedNullableState)
    (S : ProgramState) : ProgramState :=
  mkState (Bindings S) (Unbound S) (Constraints S) (NullabilityMap S)
    (f (EscapedNullable S)) (NonLocalNullable S) (DNOConstraintMap S) (DNOAliasMap S)
    (PtrToDNOAliasMap S) (DNOToPtrAliasMap S) (PtrGuards S) (AliasGuard S)
    (WeakenMap S) (WeakenSynonyms S) (LoopStack S).

Definition set_DNOConstraintMap
    (f : gmap NullableObjectStateKey NullConstraint → gmap NullableObjectStateKey NullConstraint)
    (S : ProgramState) : ProgramState :=
  mkState (Bindings S) (Unbound S) (Constraints S) (NullabilityMap S)
    (EscapedNullable S) (NonLocalNullable S) (f (DNOConstraintMap S)) (DNOAliasMap S)
    (PtrToDNOAliasMap S) (DNOToPtrAliasMap S) (PtrGuards S) (AliasGuard S)
    (WeakenMap S) (WeakenSynonyms S) (LoopStack S).

Definition set_DNOAliasMap
    (f : gmap NullableObjectStateKey DNOAliasSet → gmap NullableObjectStateKey DNOAliasSet)
    (S : ProgramState) : ProgramState :=
  mkState (Bindings S) (Unbound S) (Constraints S) (NullabilityMap S)
    (EscapedNullable S) (NonLocalNullable S) (DNOConstraintMap S) (f (DNOAliasMap S))
    (PtrToDNOAliasMap S) (DNOToPtrAliasMap S) (PtrGuards S) (AliasGuard S)
    (WeakenMap S) (WeakenSynonyms S) (LoopStack S).

Definition set_PtrToDNOAliasMap
    (f : gmap SymbolRef DNOAliasSet → gmap SymbolRef DNOAliasSet)
    (S : ProgramState) : ProgramState :=
  mkState (Bindings S) (Unbound S) (Constraints S) (NullabilityMap S)
    (EscapedNullable S) (NonLocalNullable S) (DNOConstraintMap S) (DNOAliasMap S)
    (f (PtrToDNOAliasMap S)) (DNOToPtrAliasMap S) (PtrGuards S) (AliasGuard S)
    (WeakenMap S) (WeakenSynonyms S) (LoopStack S).

Definition set_DNOToPtrAliasMap
    (f : gmap NullableObjectStateKey SymAliasSet → gmap NullableObjectStateKey SymAliasSet)
    (S : ProgramState) : ProgramState :=
  mkState (Bindings S) (Unbound S) (Constraints S) (NullabilityMap S)
    (EscapedNullable S) (NonLocalNullable S) (DNOConstraintMap S) (DNOAliasMap S)
    (PtrToDNOAliasMap S) (f (DNOToPtrAliasMap S)) (PtrGuards S) (AliasGuard S)
    (WeakenMap S) (WeakenSynonyms S) (LoopStack S).

Definition set_AliasGuard (b : bool) (S : ProgramState) : ProgramState :=
  mkState (Bindings S) (Unbound S) (Constraints S) (NullabilityMap S)
    (EscapedNullable S) (NonLocalNullable S) (DNOConstraintMap S) (DNOAliasMap S)
    (PtrToDNOAliasMap S) (DNOToPtrAliasMap S) (PtrGuards S) b
    (WeakenMap S) (WeakenSynonyms S) (LoopStack S).

(** [set<WeakenMap>(getEmptyMap())] followed by
    [set<WeakenSynonyms>(getEmptyMap())]. *)
Definition clearWeakening (S : ProgramState) : ProgramState :=
  mkState (Bindings S) (Unbound S) (Constraints S) (NullabilityMap S)
    (EscapedNullable S) (NonLocalNullable S) (DNOConstraintMap S) (DNOAliasMap S)
    (PtrToDNOAliasMap S) (DNOToPtrAliasMap S) (PtrGuards S) (AliasGuard S)
    ∅ ∅ (LoopStack S).

(** The state of a fresh analysis: nothing bound, nothing constrained, every
    trait empty. *)
Definition emptyState (U : MemRegion → SVal) : ProgramState :=
  mkState ∅ U ∅ ∅ ∅ ∅ ∅ ∅ ∅ ∅ ∅ false ∅ ∅ [].

(** ** The analyzer core's value and constraint interface *)

(** Modelled from the spec: the store half of the Symbolic Value Model of
    §4.2 ([sval_of], [region_of]); the store itself
    ([ProgramState::getSVal], [killBinding], [bindLoc]) belongs to the
    analyzer core, not to the checker.  A read of a location that is not a
    region yields the unknown value. *)
Definition getSVal (State : ProgramState) (L : SVal) : SVal :=
  match L with
  | loc_MemRegionVal R => default (Unbound State R) (Bindings State !! R)
  | _ => UnknownVal
  end.

Definition killBinding (State : ProgramState) (L : SVal) : ProgramState :=
  match L with
  | loc_MemRegionVal R => set_Bindings (delete R) State
  | _ => State
  end.

Definition bindLoc (State : ProgramState) (L V : SVal) : ProgramState :=
  match L with
  | loc_MemRegionVal R => set_Bindings <[R := V]> State
  | _ => State
  end.

(** [MemRegion::getSymbolicBase] and [SVal::getAsSymbol(true)]. *)
Fixpoint getSymbolicBase (R : MemRegion) : option SymbolRef :=
  match R with
  | SymbolicRegion Sym => Some Sym
  | FieldRegion _ Super | ElementRegion _ _ Super => getSymbolicBase Super
  | _ => None
  end.

Definition getAsSymbol (V : SVal) : option SymbolRef :=
  match V with
  | loc_MemRegionVal R => getSymbolicBase R
  | nonloc_SymbolVal Sym => Some Sym
  | _ => None
  end.

(** Modelled from the spec: the Null-Constraint Store of §4.2 and §4.3
    ("consult the constraint store"; [ProgramState::isNull] of the analyzer
    core).  [Some true]: constrained null; [Some false]: constrained not
    null; [None]: underconstrained. *)
Definition isNull (State : ProgramState) (V : SVal) : option bool :=
  if isZeroConstant V then Some true
  else if isConstant V then Some false
  else match getAsSymbol V with
       | Some Sym => Constraints State !! Sym
       | None => None
       end.

(** Modelled from the spec: [assume(state, value, is_not_null) → state'] of
    §4.2, which "may return an inconsistent marker" ([None], the null
    [ProgramStateRef]).  The checker reaches it as
    [State->assume(V, is_not_null)] and, through [SValBuilder::evalBinOp], as
    [State->assume(V == 0, !is_not_null)] and
    [State->assume(V != 0, is_not_null)].  This is the refinement of the
    constraint store alone: the callbacks the engine runs on an assumption
    (among them the checker's [evalAssume], which is the identity while
    [AliasGuard] is set) are not part of it. *)
Definition assume (State : ProgramState) (V : SVal) (is_not_null : bool) : option ProgramState :=
  match isNull State V with
  | Some true => if is_not_null then None else Some State
  | Some false => if is_not_null then Some State else None
  | None =>
      match getAsSymbol V with
      | Some Sym => Some (set_Constraints <[Sym := negb is_not_null]> State)
      | None => Some State
      end
  end.

(** ** [getNullConstraint] *)

Definition getNullConstraint (V : SVal) (State : ProgramState) : NullConstraint :=
  if isUndef V then Unknown else
  if isUnknownNullable V then Unknown else
  match V with
  | UnknownNullableSVal C => C
  | _ =>
      let ByRegion : option NullConstraint :=
        match getAsRegion V with
        | Some (ElementRegion _ _ Super) =>
            match getValueType Super with
            | Some T => Some (if isArrayType T then IsNotNull else Unknown)
            | None => None
            end
        | Some (CodeTextRegion _) => Some IsNotNull
        | _ => None
        end in
      match ByRegion with
      | Some C => C
      | None =>
          match isNull State V with
          | Some false => IsNotNull
          | Some true => IsNull
          | None => if isGLValLoc V then IsNotNull else Unknown
          end
      end
  end.

(** ** What a hook hands back to the engine *)

Inductive BugType :=
| BugNullablePointerDereference
| BugNullalbeNullptrDeference
| BugNonNullableHasNull
| BugNullableToNonNullable
| BugNullptrToNonNullable
| BugUndefinedNullable
| BugUndefinedNonNullable
| BugVolatilePointerEscape.

(** The calls a hook makes on its [CheckerContext]: [emitReport],
    [addTransition], and [addSink] / [generateErrorNode], which end the
    path. *)
Record Outcome := mkOutcome {
  Reports : list BugType;
  Transitions : list ProgramState;
  Sunk : bool
}.

Definition noTransition : Outcome := mkOutcome [] [] false.
Definition addTransition (State : ProgramState) : Outcome := mkOutcome [] [State] false.
Definition addSink : Outcome := mkOutcome [] [] true.

(** [reportBug]: [C.generateErrorNode(State)] ends the path in the error
    node (a sink) of the state, and the report is emitted on the node.
    [Node] says whether the engine yields the node: it yields none when the
    exploded graph holds the error node of this state at this program point
    already, as it does after an earlier [generateErrorNode] of the same
    hook on the same state, and the source then returns without a report
    ([if (!N) return;]). *)
Definition reportBug (Node : bool) (BT : BugType) (State : ProgramState) : Outcome :=
  if Node then mkOutcome [BT] [] true else mkOutcome [] [] true.

(** ** [checkPointer] *)

Definition getNullabilityState (State : ProgramState) (Val : SVal) : option NullableKind :=
  if negb (isLoc Val) then None
  else match getAsRegion Val with
       | Some R => NullabilityMap State !! R
       | None => None
       end.

(** The lambda of [checkPointer] that computes [NullabilityState].
    [DerefExprVal] is [State->getSVal(DerefExpr, LCtx)] for [DerefExpr =
    bugreporter::getDerefExpr(S)], [None] when there is no such
    expression. *)
Definition derefNullabilityState (DerefExprVal : option SVal) (State : ProgramState)
    : option NullableKind :=
  match DerefExprVal with
  | None => None
  | Some L => if isUndef L then None else getNullabilityState State L
  end.

Definition isArrayToPointerDecay (S : Expr) : bool :=
  match S with
  | ImplicitCastExpr CK_ArrayToPointerDecay _ _ => true
  | _ => false
  end.

(** [V] is the value of the dereferenced expression [S]. *)
Definition checkPointer (Node : bool) (V : SVal) (S : Expr) (DerefExprVal : option SVal)
    (State : ProgramState) : Outcome :=
  if isUndef V then reportBug Node BugUndefinedNullable State else
  if isArrayToPointerDecay S then noTransition else
  let NullabilityState := derefNullabilityState DerefExprVal State in
  let Constraint := getNullConstraint V State in
  match NullabilityState with
  | Some VolatileNullable => reportBug Node BugNullablePointerDereference State
  | Some NonNullable => noTransition
  | _ =>
      match Constraint with
      | IsNotNull => noTransition
      | IsNull => reportBug Node BugNullalbeNullptrDeference State
      | Unknown => reportBug Node BugNullablePointerDereference State
      end
  end.

(** ** [checkBeginFunction] *)

Definition isInterProcedural (FD : FunctionDecl) : bool :=
  let FDName := FunctionName FD in
  if String.eqb FDName MakeNotNullQualifiedName then true else
  if String.prefix NotNullPtrQualifiedName FDName then true else
  if String.eqb FDName StdForwardQualifiedName then true else
  if String.eqb FDName StdMoveQualifiedName then true else
  false.

(** [State->getLValue(Param, LocContext)] for the parameter at [Index]. *)
Definition getLValue_param (Index : nat) (Param : ParmVarDecl) : SVal :=
  loc_MemRegionVal (ParamVarRegion Index (ParmType Param)).

Fixpoint breakParamBindings (Ctx : ASTContext) (Index : nat) (Params : list ParmVarDecl)
    (State : ProgramState) : ProgramState :=
  match Params with
  | [] => State
  | Param :: Rest =>
      if isNonNullableType Ctx (ParmType Param)
      then breakParamBindings Ctx (S Index) Rest State
      else breakParamBindings Ctx (S Index) Rest
             (killBinding State (getLValue_param Index Param))
  end.

Definition checkBeginFunction (Ctx : ASTContext) (FD : FunctionDecl) (inTopFrame : bool)
    (State : ProgramState) : Outcome :=
  if isImplicit FD then addSink else
  if inTopFrame then noTransition else
  if isInterProcedural FD then noTransition else
  addTransition (breakParamBindings Ctx 0 (parameters FD) State).

(** ** [checkLoopCondition] *)

(** [ProgramState::assume(Cond)]: the states where the condition holds and
    where it does not. *)
Definition assumeDual (State : ProgramState) (Cond : SVal)
    : option ProgramState * option ProgramState :=
  (assume State Cond true, assume State Cond false).

Definition checkLoopCondition (Cond : SVal) (blockCount : nat) (State : ProgramState)
    : Outcome :=
  if isUnknownOrUndef Cond then noTransition else
  let Condition := Cond in
  if Nat.eqb blockCount 1 then
    if negb (isConstant Condition) then
      let '(StTrue, StFalse) := assumeDual State Condition in
      mkOutcome []
        (match StTrue with Some St => [St] | None => [] end
         ++ match StFalse with Some St => [clearWeakening St] | None => [] end)
        false
    else if isZeroConstant Condition then addTransition (clearWeakening State)
    else noTransition
  else if Nat.eqb blockCount 2 then
    if negb (isConstant Condition) then
      let '(StTrue, StFalse) := assumeDual State Condition in
      mkOutcome [] (match StFalse with Some St => [clearWeakening St] | None => [] end) false
    else if negb (isZeroConstant Condition) then addSink
    else addTransition (clearWeakening State)
  else noTransition.

(** ** Call events and the escape tracker *)

(** [Decl::getAsFunction] succeeds on [FunctionD] only. *)
Inductive Decl :=
| FunctionD (F : FunctionDecl)
| OtherDecl.

Record CallEvent := mkCall {
  OriginExpr : option Expr;
  CalleeDecl : option Decl;
  CallParameters : list ParmVarDecl;       (* CallEvent::parameters() *)
  ArgSVals : list SVal;                    (* getArgSVal(0 .. getNumArgs()-1) *)
  ReturnValue : SVal
}.

Definition ignoreEscapeAnalysis (CE : CallEvent) : bool :=
  match CalleeDecl CE with
  | None => false
  | Some OtherDecl => false
  | Some (FunctionD F) => ignoreEscapeAnalysis_decl F
  end.

(** [recordPointerEscapes].  The loop follows the pointee chain of [T], so it
    is a recursion on [T].  [None]: a [castAs] of the source fails (the value
    is not a location, or the location holds an undefined value). *)
Fixpoint recordPointerEscapes (V : SVal) (T : QualType) (State : ProgramState)
    : option ProgramState :=
  match T with
  | LValueReferenceType Pointee | PointerType Pointee _ =>
      if isPointerType Pointee then
        if negb (isLoc V) then None else
        let L := V in
        let V' := getSVal State L in
        if isUndef V' then None else
        let State' :=
          match getLValLocRegion L with
          | Some R =>
              let Constraint := getNullConstraint V' State in
              let Validity := if isConstQualified Pointee then AlwaysValid else Valid in
              set_EscapedNullable <[R := mkEscaped Constraint Validity]> State
          | None => State
          end in
        recordPointerEscapes V' Pointee State'
      else Some State
  | _ => Some State
  end.

(** The three ways a block of a hook can end. *)
Inductive Step :=
| Continue (State : ProgramState)
| Reported (BT : BugType) (State : ProgramState)
| Aborted.                               (* a failed [castAs] or index *)

(** The [while] loop of [checkPreCall] over the levels of a parameter type
    (source lines 4724-4746). *)
Fixpoint escapeLevels (Type_ : QualType) (Val : SVal) (State : ProgramState) : Step :=
  match Type_ with
  | LValueReferenceType Pointee | PointerType Pointee _ =>
      if isPointerType Pointee then
        if negb (isLoc Val) then Aborted else
        let L := Val in
        let V := getSVal State L in
        if isUndef V then Aborted else
        match getLValLocRegion L with
        | Some R =>
            let Constraint := getNullConstraint V State in
            if negb (isConstQualified Pointee) && isVolatileQualified Pointee
            then Reported BugVolatilePointerEscape State
            else
              let Validity := if isConstQualified Pointee then AlwaysValid else Valid in
              escapeLevels Pointee V
                (set_EscapedNullable <[R := mkEscaped Constraint Validity]> State)
        | None => escapeLevels Pointee V State
        end
      else Continue State
  | _ => Continue State
  end.

(** One argument of the call: the wrapper is looked through, then the
    levels are walked. *)
Definition escapeArgument (Ctx : ASTContext) (Param : ParmVarDecl) (ArgSVal : SVal)
    (State : ProgramState) : Step :=
  let ParamType := ParmType Param in
  let '(Type_, Val) :=
    if isNonNullableType Ctx ParamType then
      match getNonNullableField Ctx ParamType, ArgSVal with
      | Some FD, nonloc_LazyCompoundVal R =>
          let NNVL := loc_MemRegionVal (FieldRegion FD R) in
          (FieldType FD, getSVal State NNVL)
      | _, _ => (ParamType, ArgSVal)
      end
    else (ParamType, ArgSVal) in
  escapeLevels Type_ Val State.

(** The [for] loop over the arguments; [parameters()[I]] past the end of the
    parameter list is undefined. *)
Fixpoint escapeArguments (Ctx : ASTContext) (Params : list ParmVarDecl) (Args : list SVal)
    (State : ProgramState) {struct Args} : Step :=
  match Args with
  | [] => Continue State
  | ArgSVal :: Args' =>
      match Params with
      | [] => Aborted
      | Param :: Params' =>
          match escapeArgument Ctx Param ArgSVal State with
          | Continue State' => escapeArguments Ctx Params' Args' State'
          | R => R
          end
      end
  end.

(** The first escape block of [checkPreCall] (source lines 4633-4652): the
    constraint of every record that is not [Invalid] is refreshed.  The
    records are visited in the order of the map; each visit writes its own
    key only. *)
Definition refreshEscaped (State : ProgramState) : ProgramState :=
  map_fold
    (fun LValRegion Rec St =>
       if bool_decide (Validity Rec ≠ Invalid) then
         let CurrentConstraint := getNullConstraint (loc_MemRegionVal LValRegion) St in
         set_EscapedNullable <[LValRegion := mkEscaped CurrentConstraint (Validity Rec)]> St
       else St)
    State (EscapedNullable State).

(** The escape tracker's part of [checkPreCall], for a call whose callee
    expression passes [checkCalleeExpr] and that does not construct a
    [gsl::not_null]: refresh the records, walk the arguments, and either
    report or add the transition.  [Node]: the engine yields the error node
    when the hook asks for it.  [None]: the walk is undefined. *)
Definition checkPreCall_escapes (Node : bool) (Ctx : ASTContext) (Call : CallEvent)
    (State : ProgramState) : option Outcome :=
  match OriginExpr Call with
  | None => Some noTransition
  | Some E =>
      let IgnoreEscapeAnalysis := ignoreEscapeAnalysis Call in
      let State1 := if negb IgnoreEscapeAnalysis then refreshEscaped State else State in
      if negb IgnoreEscapeAnalysis then
        match escapeArguments Ctx (CallParameters Call) (ArgSVals Call) State1 with
        | Continue State2 => Some (addTransition State2)
        | Reported BT St => Some (reportBug Node BT St)
        | Aborted => None
        end
      else Some (addTransition State1)
  end.

(** The escape tracker's part of [checkPostCall] (source lines 3788-3824):
    the only block of the hook that writes [EscapedNullable]. *)
Definition invalidateEscaped (State : ProgramState) : ProgramState :=
  map_fold
    (fun LValRegion EscapeRecord St =>
       let Constraint := Constraint EscapeRecord in
       let Validity := Validity EscapeRecord in
       if bool_decide (Validity = Valid) && bool_decide (Constraint ≠ Unknown) then
         set_EscapedNullable <[LValRegion := mkEscaped (Core.Constraint EscapeRecord) Invalid]> St
       else St)
    State (EscapedNullable State).

Definition checkPostCall_escapes (Call : CallEvent) (State : ProgramState) : ProgramState :=
  match OriginExpr Call with
  | None => State
  | Some E =>
      let IgnoreEscapeAnalysis := ignoreEscapeAnalysis Call in
      if negb IgnoreEscapeAnalysis then invalidateEscaped State else State
  end.

(** The first block of [checkPostCall] (source lines 3673-3683): the result of
    a new-expression whose allocation function may throw is assumed not
    null.  [None]: the assumption is infeasible. *)
Definition checkPostCall_new (Call : CallEvent) (State : ProgramState) : option ProgramState :=
  match OriginExpr Call with
  | Some (CXXNewExpr _ (Some NewOp)) =>
      match ExceptionSpecType NewOp with
      | EST_BasicNoexcept | EST_NoexceptTrue => Some State
      | _ => assume State (ReturnValue Call) true
      end
  | _ => Some State
  end.

(** The escape block of [checkLocation] on a load (source lines 3330-3348).
    [RhsNullness] is the constraint of the loaded value and [NewVal] the
    symbol conjured for the load. *)
Definition checkLocation_escaped (L : SVal) (RhsNullness : NullConstraint) (NewVal : SVal)
    (State : ProgramState) : ProgramState :=
  match getAsRegion L with
  | None => State
  | Some R =>
      match EscapedNullable State !! R with
      | None => State
      | Some EscapedPtrConstraintValidity =>
          let State1 :=
            if bool_decide (Validity EscapedPtrConstraintValidity = Invalid)
               && bool_decide (RhsNullness ≠ Unknown)
            then set_EscapedNullable <[R := mkEscaped Unknown Valid]>
                   (bindLoc (killBinding State L) L NewVal)
            else State in
          if bool_decide (Validity EscapedPtrConstraintValidity = AlwaysInvalid)
          then bindLoc (killBinding State1 L) L NewVal
          else State1
      end
  end.

(** ** The driver's view of an outcome *)

(** Modelled from the spec: §5 ("every hook is a pure function from (state,
    input) to a set of states") and §7 ("the current path is sunk, no
    successors generated"); the driver is the analyzer core.  A hook that adds
    neither a transition nor a sink leaves the path on its predecessor
    state. *)
Definition successors (Pred : ProgramState) (O : Outcome) : list ProgramState :=
  if Sunk O then []
  else match Transitions O with
       | [] => [Pred]
       | Ts => Ts
       end.

(** The diagnostics of running the hooks of a path, in program-point order,
    on every successor state. *)
Fixpoint explore (Hooks : list (ProgramState → Outcome)) (State : ProgramState)
    : list BugType :=
  match Hooks with
  | [] => []
  | Hook :: Rest =>
      let O := Hook State in
      Reports O ++ flat_map (explore Rest) (successors State O)
  end.

(** The analysis of a function body: [BeginFunction], then the hooks of the
    statements of the body. *)
Definition analyzeFunction (Ctx : ASTContext) (FD : FunctionDecl) (inTopFrame : bool)
    (Body : list (ProgramState → Outcome)) (State : ProgramState) : list BugType :=
  explore (checkBeginFunction Ctx FD inTopFrame :: Body) State.

(** A call event as the escape tracker sees it, for a call that the engine
    does not inline: [checkPreCall], the evaluation of the call by the
    engine, [Eval], on each state that is left, then [checkPostCall].
    [None]: the walk of [checkPreCall] is undefined. *)
Definition callEvent_escapes (Node : bool) (Ctx : ASTContext) (Call : CallEvent)
    (Eval : ProgramState → ProgramState) (State : ProgramState)
    : option (list ProgramState) :=
  match checkPreCall_escapes Node Ctx Call State with
  | None => None
  | Some Out =>
      Some (map (fun St => checkPostCall_escapes Call (Eval St)) (successors State Out))
  end.

End Core.

(* ===================================================================== *)
(** * The alias graph of nullable objects (namespace [dno])               *)
(* ===================================================================== *)

Module dno.
Import AST Core.

Definition createConstraint (State : ProgramState) (K : NullableObjectStateKey)
    (C : NullConstraint) : ProgramState :=
  set_DNOConstraintMap <[K := C]> State.

(** The loop of [setAliasInternal].

    [Range] holds the keys between the iterators [I] and [E], which the source
    reads once, before the loop: keys appended to [Pending] lie past [E] and
    are not visited.  [Pending] is threaded to show where the source appends;
    nothing reads it.  ([Pending] is a [SmallVector] with room for six keys;
    the iterators stay valid as long as it does not outgrow that room.) *)
Fixpoint setAliasLoop (LK : NullableObjectStateKey) (Break : bool)
    (Range : list NullableObjectStateKey) (Pending Visited : list NullableObjectStateKey)
    (State : ProgramState) : ProgramState :=
  match Range with
  | [] => State
  | It :: Range' =>
      if (It =? LK)%N then setAliasLoop LK Break Range' Pending Visited State
      else if ImmutableSet.contains Visited It
      then setAliasLoop LK Break Range' Pending Visited State
      else
        match DNOAliasMap State !! It with
        | None =>
            if Break then setAliasLoop LK Break Range' Pending Visited State
            else
              let UpdatedAliases := ImmutableSet.add ImmutableSet.getEmptySet LK in
              setAliasLoop LK Break Range' Pending (It :: Visited)
                (set_DNOAliasMap <[It := UpdatedAliases]> State)
        | Some Aliases =>
            let UpdatedAliases :=
              if Break then ImmutableSet.remove Aliases LK
              else ImmutableSet.add Aliases LK in
            setAliasLoop LK Break Range' (Pending ++ Aliases) (It :: Visited)
              (set_DNOAliasMap <[It := UpdatedAliases]> State)
        end
  end.

(** [setAliasInternal].  After the first two tests [Aliases] is set, so the
    statement guarded by [Break && !Aliases], which would remove [RK] from the
    set of [LK], never runs. *)
Definition setAliasInternal (State : ProgramState) (LK RK : NullableObjectStateKey)
    (Break : bool) : ProgramState :=
  match DNOAliasMap State !! LK with
  | None =>
      if Break then State
      else
        let State1 :=
          set_DNOAliasMap
            <[LK := ImmutableSet.add ImmutableSet.getEmptySet RK]> State in
        match DNOAliasMap State1 !! LK with
        | None => State1
        | Some Aliases => setAliasLoop LK Break Aliases Aliases [] State1
        end
  | Some Aliases => setAliasLoop LK Break Aliases Aliases [] State
  end.

Definition addAlias (State : ProgramState) (LK RK : NullableObjectStateKey) : ProgramState :=
  let State1 := setAliasInternal State LK RK false in
  setAliasInternal State1 RK LK false.

Definition breakAlias (State : ProgramState) (LK RK : NullableObjectStateKey) : ProgramState :=
  let State1 := setAliasInternal State LK RK true in
  setAliasInternal State1 RK LK true.

Definition breakAliases (State : ProgramState) (LK : NullableObjectStateKey) : ProgramState :=
  match DNOAliasMap State !! LK with
  | None => State
  | Some Aliases =>
      fold_left (fun St AliasKey => breakAlias St LK AliasKey) Aliases State
  end.

(** [alias(State, K, AliasK)]. *)
Definition alias (State : ProgramState) (K AliasK : NullableObjectStateKey) : ProgramState :=
  match DNOConstraintMap State !! AliasK with
  | None => State
  | Some AC => addAlias (createConstraint State K AC) K AliasK
  end.

(** The loop of [alias(State, Sym, K)]; [Range], [Pending] as in
    [setAliasLoop]. *)
Fixpoint aliasSymLoop (Sym : SymbolRef) (Range : list NullableObjectStateKey)
    (Pending Visited : list NullableObjectStateKey) (State : ProgramState) : ProgramState :=
  match Range with
  | [] => State
  | It :: Range' =>
      if ImmutableSet.contains Visited It
      then aliasSymLoop Sym Range' Pending Visited State
      else
        let SymAliases := DNOToPtrAliasMap State !! It in
        let UpdatedAliases :=
          ImmutableSet.add (default ImmutableSet.getEmptySet SymAliases) Sym in
        let State' := set_DNOToPtrAliasMap <[It := UpdatedAliases]> State in
        aliasSymLoop Sym Range'
          (Pending ++ default [] (DNOAliasMap State' !! It)) (It :: Visited) State'
  end.

Definition alias_sym (State : ProgramState) (Sym : SymbolRef) (K : NullableObjectStateKey)
    : ProgramState :=
  if (Sym =? 0)%N || (K =? 0)%N then State else
  let Aliases := PtrToDNOAliasMap State !! Sym in
  let UpdatedAliases := ImmutableSet.add (default ImmutableSet.getEmptySet Aliases) K in
  let State1 := set_PtrToDNOAliasMap <[Sym := UpdatedAliases]> State in
  aliasSymLoop Sym UpdatedAliases UpdatedAliases [] State1.

(** [updateConstraint(State, ImmutableSet<NullableObjectStateKey>, C)]
    (source lines 2606-2618). *)
Fixpoint updateConstraintLoop (C : NullConstraint) (Range Pending : list NullableObjectStateKey)
    (State : ProgramState) : ProgramState :=
  match Range with
  | [] => State
  | It :: Range' =>
      let State' := set_DNOConstraintMap <[It := C]> State in
      updateConstraintLoop C Range' (Pending ++ default [] (DNOAliasMap State' !! It)) State'
  end.

Definition updateConstraint_aliases (State : ProgramState) (Aliases : DNOAliasSet)
    (C : NullConstraint) : ProgramState :=
  updateConstraintLoop C Aliases Aliases State.

(** [makeSymbolVal(Sym)]: a location or a non-location value according to
    the type of the symbol; both stand for the same symbol in the constraint
    store. *)
Definition makeSymbolVal (Sym : SymbolRef) : SVal := nonloc_SymbolVal Sym.

(** [updateConstraint(State, ImmutableSet<SymbolRef>, C)].  [None]: an
    assumption is infeasible and the source goes on with the null state. *)
Fixpoint assumeSyms (C : NullConstraint) (Syms : list SymbolRef) (State : ProgramState)
    : option ProgramState :=
  match Syms with
  | [] => Some State
  | Sym :: Syms' =>
      match assume State (makeSymbolVal Sym) (bool_decide (C = IsNotNull)) with
      | None => None
      | Some State' => assumeSyms C Syms' State'
      end
  end.

Definition updateConstraint_syms (State : ProgramState) (Aliases : SymAliasSet)
    (C : NullConstraint) : option ProgramState :=
  match assumeSyms C Aliases (set_AliasGuard true State) with
  | None => None
  | Some State' => Some (set_AliasGuard false State')
  end.

(** [updateConstraint(State, NullableObjectStateKey, C)] (source lines
    2631-2642). *)
Definition updateConstraint (State : ProgramState) (K : NullableObjectStateKey)
    (C : NullConstraint) : option ProgramState :=
  let State1 := set_DNOConstraintMap <[K := C]> State in
  let State2 :=
    match DNOAliasMap State1 !! K with
    | Some Aliases => updateConstraint_aliases State1 Aliases C
    | None => State1
    end in
  match DNOToPtrAliasMap State2 !! K with
  | Some SymAliases => updateConstraint_syms State2 SymAliases C
  | None => Some State2
  end.

(** The inner loop of [updateConstraint(State, SymbolRef, C)] over the symbol
    aliases of one key. *)
Fixpoint updateSymAliases (C : NullConstraint) (SymAliases : list SymbolRef)
    (Pending : list NullableObjectStateKey) (VisitedSyms : list SymbolRef)
    (State : ProgramState)
    : option (ProgramState * list NullableObjectStateKey * list SymbolRef) :=
  match SymAliases with
  | [] => Some (State, Pending, VisitedSyms)
  | SymAlias :: Rest =>
      if ImmutableSet.contains VisitedSyms SymAlias
      then updateSymAliases C Rest Pending VisitedSyms State
      else
        match assume (set_AliasGuard true State) (makeSymbolVal SymAlias)
                (bool_decide (C = IsNotNull)) with
        | None => None
        | Some State1 =>
            let State2 := set_AliasGuard false State1 in
            updateSymAliases C Rest
              (Pending ++ default [] (PtrToDNOAliasMap State2 !! SymAlias))
              (SymAlias :: VisitedSyms) State2
        end
  end.

Fixpoint updateConstraintSymLoop (C : NullConstraint) (Range : list NullableObjectStateKey)
    (Pending : list NullableObjectStateKey) (VisitedSyms : list SymbolRef)
    (VisitedNullObjs : list NullableObjectStateKey) (State : ProgramState)
    : option ProgramState :=
  match Range with
  | [] => Some State
  | It :: Range' =>
      if ImmutableSet.contains VisitedNullObjs It
      then updateConstraintSymLoop C Range' Pending VisitedSyms VisitedNullObjs State
      else
        let State1 := set_DNOConstraintMap <[It := C]> State in
        let VisitedNullObjs' := It :: VisitedNullObjs in
        let Pending1 := Pending ++ default [] (DNOAliasMap State1 !! It) in
        match DNOToPtrAliasMap State1 !! It with
        | None => updateConstraintSymLoop C Range' Pending1 VisitedSyms VisitedNullObjs' State1
        | Some SymAliases =>
            match updateSymAliases C SymAliases Pending1 VisitedSyms State1 with
            | None => None
            | Some (State2, Pending2, VisitedSyms') =>
                updateConstraintSymLoop C Range' Pending2 VisitedSyms' VisitedNullObjs' State2
            end
        end
  end.

(** [updateConstraint(State, SymbolRef, C)] (source lines 2644-2682). *)
Definition updateConstraint_sym (State : ProgramState) (Sym : SymbolRef) (C : NullConstraint)
    : option ProgramState :=
  if (Sym =? 0)%N then Some State else
  match PtrToDNOAliasMap State !! Sym with
  | None => Some State
  | Some Aliases => updateConstraintSymLoop C Aliases Aliases [Sym] [] State
  end.

(** ** Alias classes and reachable states *)

(** Two keys are directly aliased when one is recorded in the alias set of
    the other. *)
Definition aliased (State : ProgramState) (K1 K2 : NullableObjectStateKey) : bool :=
  ImmutableSet.contains (default [] (DNOAliasMap State !! K1)) K2
  || ImmutableSet.contains (default [] (DNOAliasMap State !! K2)) K1.

(** The alias equivalence class: the reflexive, transitive closure of
    [aliased]. *)
Inductive sameAliasClass (State : ProgramState) : NullableObjectStateKey → NullableObjectStateKey → Prop :=
| sameAliasClass_refl K : sameAliasClass State K K
| sameAliasClass_step K1 K2 K3 :
    aliased State K1 K2 = true → sameAliasClass State K2 K3 → sameAliasClass State K1 K3.

(** The states the alias-graph operations produce from the empty state. *)
Inductive reachable (U : MemRegion → SVal) : ProgramState → Prop :=
| reachable_empty : reachable U (emptyState U)
| reachable_create State K C :
    reachable U State → reachable U (createConstraint State K C)
| reachable_alias State K AliasK :
    reachable U State → reachable U (alias State K AliasK)
| reachable_break State K :
    reachable U State → reachable U (breakAliases State K)
| reachable_update State K C State' :
    reachable U State → updateConstraint State K C = Some State' → reachable U State'.

End dno.

(* ===================================================================== *)
(** * Further predicates on types and calls                               *)
(* ===================================================================== *)

Module Classifier.
Import AST Core.

(** [getLocTypeRank].  The [do ... while] loop runs on a location type, which
    has a pointee; the last branch of the loop is not reached. *)
Fixpoint getLocTypeRank_loop (T : QualType) (R : nat) : nat :=
  match T with
  | PointerType Pointee _ | MemberPointerType Pointee _ _ | LValueReferenceType Pointee =>
      if isLocType Pointee then getLocTypeRank_loop Pointee (S R) else S R
  | _ => S R
  end.

Definition getLocTypeRank (T : QualType) : nat :=
  if negb (isLocType T) then 0%nat
  else
    let R := if isLValueReferenceType T then 1%nat else 0%nat in
    (getLocTypeRank_loop T R - 1)%nat.

(** [isInterProcedural(const CallEvent &)]. *)
Definition isInterProcedural_call (CE : CallEvent) : bool :=
  match CalleeDecl CE with
  | None => false
  | Some OtherDecl => false
  | Some (FunctionD F) => isInterProcedural F
  end.

End Classifier.

(* ===================================================================== *)
(** * The key of the constant-call map                                    *)
(* ===================================================================== *)

(** [struct CallEventKey], the key type of the [ConstantCallEvents] map. *)
Module CallEventKey.
Import AST Core.

(** [F] is the callee declaration, compared by address. *)
Record t := mk { F : option DeclRef; ArgVals : list SVal }.

Definition atEnd (It : list SVal) : bool :=
  match It with [] => true | _ => false end.

(** The [while] loop of [operator<].  [ptr_lt] is the order of addresses the
    built-in [<] compares the regions of the two values with. *)
Fixpoint operator_lt_loop (ptr_lt : option MemRegion → option MemRegion → bool)
    (R : bool) (LI RI : list SVal) : bool :=
  match LI, RI with
  | L :: LI', R' :: RI' =>
      let R := ptr_lt (getAsRegion L) (getAsRegion R') in
      let R := if atEnd LI' && atEnd RI' then false else R in
      let R := if atEnd LI' && negb (atEnd RI') then true else R in
      let R := if negb (atEnd LI') && atEnd RI' then false else R in
      operator_lt_loop ptr_lt R LI' RI'
  | _, _ => R
  end.

Definition operator_lt (ptr_lt : option MemRegion → option MemRegion → bool)
    (LHS RHS : t) : bool :=
  let L := bool_decide (F LHS = F RHS) in
  if negb L then false
  else operator_lt_loop ptr_lt false (ArgVals LHS) (ArgVals RHS).

End CallEventKey.

(* ===================================================================== *)
(** * Further hooks                                                        *)
(* ===================================================================== *)

Module Hooks.
Import AST Core dno.

Definition set_PtrGuards (f : gset SymbolRef → gset SymbolRef) (S : ProgramState)
    : ProgramState :=
  mkState (Bindings S) (Unbound S) (Constraints S) (NullabilityMap S)
    (EscapedNullable S) (NonLocalNullable S) (DNOConstraintMap S) (DNOAliasMap S)
    (PtrToDNOAliasMap S) (DNOToPtrAliasMap S) (f (PtrGuards S)) (AliasGuard S)
    (WeakenMap S) (WeakenSynonyms S) (LoopStack S).

Definition set_WeakenMap (f : gmap StmtId Weakening → gmap StmtId Weakening)
    (S : ProgramState) : ProgramState :=
  mkState (Bindings S) (Unbound S) (Constraints S) (NullabilityMap S)
    (EscapedNullable S) (NonLocalNullable S) (DNOConstraintMap S) (DNOAliasMap S)
    (PtrToDNOAliasMap S) (DNOToPtrAliasMap S) (PtrGuards S) (AliasGuard S)
    (f (WeakenMap S)) (WeakenSynonyms S) (LoopStack S).

Definition set_WeakenSynonyms
    (f : gmap StmtId (list StmtId) → gmap StmtId (list StmtId))
    (S : ProgramState) : ProgramState :=
  mkState (Bindings S) (Unbound S) (Constraints S) (NullabilityMap S)
    (EscapedNullable S) (NonLocalNullable S) (DNOConstraintMap S) (DNOAliasMap S)
    (PtrToDNOAliasMap S) (DNOToPtrAliasMap S) (PtrGuards S) (AliasGuard S)
    (WeakenMap S) (f (WeakenSynonyms S)) (LoopStack S).

(** ** [checkLocation] on a store (source lines 3144-3164)

    [S] is the statement of the store. *)
Definition checkLocation_store (S : StmtId) (State : ProgramState) : Outcome :=
  if bool_decide (is_Some (WeakenMap State !! S)) then
    let State1 := set_WeakenMap (delete S) State in
    let State2 :=
      match WeakenSynonyms State1 !! S with
      | Some Syns => fold_left (fun St WS => set_WeakenMap (delete WS) St) Syns State1
      | None => State1
      end in
    let State3 := set_WeakenSynonyms (delete S) State2 in
    addTransition State3
  else noTransition.

(** ** [checkPostStmt] on a [BreakStmt] *)
Definition checkPostStmt_BreakStmt (State : ProgramState) : Outcome :=
  let State1 := set_WeakenSynonyms (fun _ => ∅) State in
  addTransition (set_WeakenMap (fun _ => ∅) State1).

(** ** [evalAssume] *)

(** The entries of an [llvm::ImmutableMap] in the order of iteration, which
    is the order of the keys. *)
Definition key_le {V} (a b : N * V) : Prop := (a.1 ≤ b.1)%N.

Global Instance key_le_dec {V} (a b : N * V) : Decision (key_le a b).
Proof. unfold key_le. apply _. Defined.

Definition entries {V} (m : gmap N V) : list (N * V) :=
  sorting.merge_sort key_le (map_to_list m).

(** One round of the loop of [evalAssume].  [CMgr.isNull(State, PtrSym)] is
    the constraint store's verdict on the symbol.  [None]: the constraint
    update went on with the null state. *)
Definition evalAssume_symbol (PtrSym : SymbolRef) (State : ProgramState)
    : option ProgramState :=
  if bool_decide (PtrSym ∈ PtrGuards State) then Some State else
  let State1 := set_PtrGuards (fun Guards => Guards ∪ {[PtrSym]}) State in
  let IsNullConstraint := isNull State1 (makeSymbolVal PtrSym) in
  let State2 :=
    match IsNullConstraint with
    | Some true => updateConstraint_sym State1 PtrSym IsNull
    | _ => Some State1
    end in
  match State2 with
  | None => None
  | Some State2 =>
      match IsNullConstraint with
      | Some false => updateConstraint_sym State2 PtrSym IsNotNull
      | _ => Some State2
      end
  end.

Fixpoint evalAssume_loop (PtrToDNOAliases : list (SymbolRef * DNOAliasSet))
    (State : ProgramState) : option ProgramState :=
  match PtrToDNOAliases with
  | [] => Some State
  | PtrAliases :: Rest =>
      match evalAssume_symbol PtrAliases.1 State with
      | None => None
      | Some State' => evalAssume_loop Rest State'
      end
  end.

Definition evalAssume (State : ProgramState) (Cond : SVal) (Assumption : bool)
    : option ProgramState :=
  if isUndef Cond then Some State else
  if AliasGuard State then Some State else
  match evalAssume_loop (entries (PtrToDNOAliasMap State)) State with
  | None => None
  | Some State' => Some (set_PtrGuards (fun _ => ∅) State')
  end.

End Hooks.

(* ===================================================================== *)
(** * Nullable objects in the hooks                                        *)
(* ===================================================================== *)

(** The blocks of [evalCall], [checkPostCall] and [checkCalleeExpr] that
    model objects of a nullable-object class.  [Key] is
    [getNullableObjectStateKey]: it maps a value to the address of its region
    or else of its symbol, and to the null key [0] when the value has
    neither. *)
Module Objects.
Import AST Core dno.

(** [isNonNullableGLValLoc]. *)
Definition isNonNullableGLValLoc (Ctx : ASTContext) (Val : SVal) : bool :=
  if negb (isGLValLoc Val) then false
  else match Val with
       | loc_MemRegionVal (FieldRegion F _) =>
           String.eqb (QualifiedName (getRecordDecl Ctx (FieldParent F)))
             NotNullPtrQualifiedName
       | _ => false
       end.

(** ** A dereference through [operator*], [operator->] or [operator->*]

    The block of [checkCalleeExpr] for an operator call whose target class is
    a nullable object (source lines 4552-4580); [TargetSVal] is the value of
    the first argument.  [Some BT]: the bug is reported and the hook is left;
    [None]: nothing is reported. *)
Definition checkCalleeExpr_operator (Ctx : ASTContext) (Key : SVal → NullableObjectStateKey)
    (TargetSVal : SVal) (State : ProgramState) : option BugType :=
  if isUnknownOrUndef TargetSVal then Some BugUndefinedNullable else
  if isNonNullableGLValLoc Ctx TargetSVal then None else
  let TargetKey := Key TargetSVal in
  let TargetState := DNOConstraintMap State !! TargetKey in
  match TargetState with
  | Some IsNotNull => None
  | _ => Some BugNullablePointerDereference
  end.

(** ** What a block of [evalCall] hands back

    [Evaluated Ts]: the block adds the transitions [Ts] and returns [true];
    a transition is a state together with the truth value the block binds to
    the call expression, when it binds one.  [Passed State]: the block leaves
    the call to the blocks that follow, with [State] in the local variable of
    the hook. *)
Inductive Evaluation :=
| Evaluated (Ts : list (option bool * ProgramState))
| Passed (State : ProgramState).

(** ** Comparison with the null constant

    One operand is the zero constant and [K], not null, is the key of the
    other (source lines 5557-5600 and 5603-5647).  [IsEq] says that the
    operator is [==].  [None]: a constraint update went on with the null
    state. *)
Definition compareWithNull (IsEq : bool) (K : NullableObjectStateKey) (State : ProgramState)
    : option Evaluation :=
  let IsTrueState := State in
  let IsFalseState := State in
  let RHState := DNOConstraintMap State !! K in
  let '(IsTrueState, IsFalseState, RHState) :=
    match RHState with
    | None => (createConstraint IsTrueState K Unknown,
               createConstraint IsFalseState K Unknown, Unknown)
    | Some RHState => (IsTrueState, IsFalseState, RHState)
    end in
  match RHState with
  | Unknown =>
      let IsTrueConstraint := if IsEq then IsNull else IsNotNull in
      let IsFalseConstraint := negateNullConstraint IsTrueConstraint in
      match updateConstraint IsTrueState K IsTrueConstraint with
      | None => None
      | Some IsTrueState =>
          match updateConstraint IsFalseState K IsFalseConstraint with
          | None => None
          | Some IsFalseState =>
              Some (Evaluated [(Some true, IsTrueState); (Some false, IsFalseState)])
          end
      end
  | IsNull => Some (Evaluated [if IsEq then (Some true, IsTrueState)
                               else (Some false, IsFalseState)])
  | IsNotNull => Some (Evaluated [if IsEq then (Some false, IsFalseState)
                                  else (Some true, IsTrueState)])
  end.

(** ** Comparison of two keys (source lines 5655-5747) *)
Definition compareKeys (IsEq : bool) (LHSKey RHSKey : NullableObjectStateKey)
    (State : ProgramState) : option Evaluation :=
  let IsTrueState := State in
  let IsFalseState := State in
  let LHState := DNOConstraintMap State !! LHSKey in
  let RHState := DNOConstraintMap State !! RHSKey in
  let '(IsTrueState, IsFalseState, LHState) :=
    match LHState with
    | None => (createConstraint IsTrueState LHSKey Unknown,
               createConstraint IsFalseState LHSKey Unknown, Unknown)
    | Some LHState => (IsTrueState, IsFalseState, LHState)
    end in
  let '(IsTrueState, IsFalseState, RHState) :=
    match RHState with
    | None => (createConstraint IsTrueState RHSKey Unknown,
               createConstraint IsFalseState RHSKey Unknown, Unknown)
    | Some RHState => (IsTrueState, IsFalseState, RHState)
    end in
  match LHState, RHState with
  | Unknown, Unknown =>
      let IsTrueState := if IsEq then addAlias IsTrueState LHSKey RHSKey else IsTrueState in
      let IsFalseState := if IsEq then IsFalseState else addAlias IsFalseState LHSKey RHSKey in
      Some (Evaluated [(Some true, IsTrueState); (Some false, IsFalseState)])
  | Unknown, _ =>
      let IsTrueConstraint := if IsEq then RHState else negateNullConstraint RHState in
      let IsFalseConstraint := negateNullConstraint IsTrueConstraint in
      match updateConstraint IsTrueState LHSKey IsTrueConstraint with
      | None => None
      | Some IsTrueState =>
          match updateConstraint IsFalseState LHSKey IsFalseConstraint with
          | None => None
          | Some IsFalseState =>
              Some (Evaluated [(Some true, IsTrueState); (Some false, IsFalseState)])
          end
      end
  | _, Unknown =>
      let IsTrueConstraint := if IsEq then LHState else negateNullConstraint LHState in
      let IsFalseConstraint := negateNullConstraint IsTrueConstraint in
      match updateConstraint IsTrueState RHSKey IsTrueConstraint with
      | None => None
      | Some IsTrueState =>
          match updateConstraint IsFalseState RHSKey IsFalseConstraint with
          | None => None
          | Some IsFalseState =>
              Some (Evaluated [(Some true, IsTrueState); (Some false, IsFalseState)])
          end
      end
  | _, _ =>
      let IsTrue := if IsEq then bool_decide (LHState = RHState)
                    else bool_decide (LHState ≠ RHState) in
      Some (Evaluated [(Some IsTrue, State)])
  end.

(** ** The comparison block of [evalCall] (source lines 5535-5750)

    for a call of [operator==] or [operator!=] with an operand of a
    nullable-object class. *)
Definition evalCall_comparison (Key : SVal → NullableObjectStateKey)
    (Op : OverloadedOperatorKind) (LHSVal RHSVal : SVal) (State : ProgramState)
    : option Evaluation :=
  let IsEq := OverloadedOperatorKind_eqb Op OO_EqualEqual in
  if bool_decide (LHSVal = RHSVal) then Some (Evaluated [(Some IsEq, State)]) else
  if isZeroConstant LHSVal && negb (Key RHSVal =? 0)%N
  then compareWithNull IsEq (Key RHSVal) State else
  if isZeroConstant RHSVal && negb (Key LHSVal =? 0)%N
  then compareWithNull IsEq (Key LHSVal) State else
  let LHSKey := Key LHSVal in
  let RHSKey := Key RHSVal in
  if negb (LHSKey =? 0)%N && negb (RHSKey =? 0)%N
  then compareKeys IsEq LHSKey RHSKey State
  else Some (Passed State).

(** ** The conversion to [bool] (source lines 5762-5782) *)
Definition evalCall_boolConversion (Key : SVal → NullableObjectStateKey) (TargetSVal : SVal)
    (State : ProgramState) : option Evaluation :=
  let TargetKey := Key TargetSVal in
  if negb (TargetKey =? 0)%N then
    match updateConstraint State TargetKey IsNotNull with
    | None => None
    | Some IsNotNullState =>
        match updateConstraint State TargetKey IsNull with
        | None => None
        | Some IsNullState =>
            Some (Evaluated [(Some true, IsNotNullState); (Some false, IsNullState)])
        end
    end
  else Some (Passed State).

(** ** Assignment to a nullable object (source lines 5470-5523)

    for a call of [operator=] whose left operand is of a nullable-object
    class; [RHSType] is the type of the right operand.  [None]: the
    classification of the class of the right operand is undefined. *)
Definition evalCall_assignment (Ctx : ASTContext) (Key : SVal → NullableObjectStateKey)
    (RHSType : QualType) (LHSVal RHSVal : SVal) (State : ProgramState) : option Evaluation :=
  if bool_decide (LHSVal = RHSVal) then Some (Evaluated []) else
  let LHSKey := Key LHSVal in
  let State := breakAliases State LHSKey in
  if isZeroConstant RHSVal then
    Some (Evaluated [(None, createConstraint State LHSKey IsNull)])
  else if isNakedRawPointerType RHSType then
    let RHSConstraint := getNullConstraint RHSVal State in
    Some (Evaluated [(None, createConstraint State LHSKey RHSConstraint)])
  else
    match getCXXRecordFromType RHSType with
    | None => Some (Passed State)
    | Some RHSRec =>
        match isNullableObject (getRecordDecl Ctx RHSRec) with
        | None => None
        | Some true => Some (Evaluated [(None, alias State LHSKey (Key RHSVal))])
        | Some false => Some (Passed State)
        end
    end.

(** ** After a call (source lines 3701-3712, 3874-3878 and 3895-3899)

    The copy constructor of a nullable-object class, and a member function
    or operator that is not [const] called on a nullable object. *)
Definition checkPostCall_copyConstruction (CopyKey OrigKey : NullableObjectStateKey)
    (State : ProgramState) : ProgramState :=
  let OrigConstraint := DNOConstraintMap State !! OrigKey in
  let State :=
    match OrigConstraint with
    | None => createConstraint State OrigKey Unknown
    | Some _ => State
    end in
  alias State CopyKey OrigKey.

Definition checkPostCall_nonConstCall (TargetKey : NullableObjectStateKey)
    (State : ProgramState) : ProgramState :=
  if negb (TargetKey =? 0)%N then
    let State := breakAliases State TargetKey in
    createConstraint State TargetKey Unknown
  else State.

End Objects.

(* ===================================================================== *)
(** * Dereferences in the hooks                                            *)
(* ===================================================================== *)

(** The hooks that check a dereference: [checkPreStmt] on a
    [UnaryOperator], a [BinaryOperator] and a [MemberExpr], and the block of
    [checkPreCall] on the construction of a [gsl::not_null]. *)
Module Dereference.
Import AST Core.

(** [isNullableObjectType]; undefined where [isNullableObject] is. *)
Definition isNullableObjectType (Ctx : ASTContext) (T : QualType) : option bool :=
  match getCXXRecordFromType T with
  | None => Some false
  | Some R => isNullableObject (getRecordDecl Ctx R)
  end.

(** ** [checkPreStmt] on a [UnaryOperator] (source lines 4079-4167)

    [MethodParent] is the qualified name of the class of the method under
    analysis, none when the function under analysis is not a method.
    [SubExprSVal] is the value of the operand and [DerefExprVal] the value
    of [bugreporter::getDerefExpr] of the operand. *)
Definition checkPreStmt_UnaryOperator (Node : bool) (MethodParent : option string)
    (Opc : UnaryOperatorKind) (SubExpr : Expr) (SubExprSVal : SVal)
    (DerefExprVal : option SVal) (State : ProgramState) : Outcome :=
  if match MethodParent with
     | Some Name => String.eqb Name NotNullPtrQualifiedName
     | None => false
     end
  then noTransition else
  match Opc with
  | UO_Deref =>
      if negb (isPointerType (getType SubExpr)) then noTransition
      else checkPointer Node SubExprSVal SubExpr DerefExprVal State
  | _ => noTransition
  end.

(** ** [checkPreStmt] on a [BinaryOperator] (source lines 4204-4219)

    for the opcodes [BO_PtrMemI] ([->*], [IsArrow]) and [BO_PtrMemD] ([.*])
    with both operands; every other opcode leaves the hook before a check.
    [VL] and [VR] are the values of the operands.  The two calls of
    [checkPointer] run on the same state at the same program point: when
    the first has asked for the error node, the engine yields none to the
    second.  [None]: a [castAs<DefinedOrUnknownSVal>] fails on an undefined
    value. *)
Definition checkPreStmt_BinaryOperator (Node : bool) (IsArrow : bool)
    (LHS RHS : Expr) (VL VR : SVal) (DerefL DerefR : option SVal)
    (State : ProgramState) : option Outcome :=
  if IsArrow && isUndef VL then None else
  let OL := if IsArrow then checkPointer Node VL LHS DerefL State else noTransition in
  if isUndef VR then None else
  let OR := checkPointer (Node && negb (Sunk OL)) VR RHS DerefR State in
  Some (mkOutcome (Reports OL ++ Reports OR) (Transitions OL ++ Transitions OR)
          (Sunk OL || Sunk OR)).

(** ** [checkPreStmt] on a [MemberExpr] (source lines 4243-4320)

    [Base] is the base expression and [BaseSVal] its value.  [None]: the
    classification of the class of the base is undefined. *)
Definition receiverIsNotNull (Ctx : ASTContext) (BaseType : QualType) : bool :=
  if isNakedRawPointerType BaseType then
    match getPointeeType BaseType with
    | Some Pointee =>
        match getAsCXXRecordDecl Pointee with
        | Some D => String.eqb (QualifiedName (getRecordDecl Ctx D)) NotNullPtrQualifiedName
        | None => false
        end
    | None => false
    end
  else false.

Definition checkPreStmt_MemberExpr (Node : bool) (Ctx : ASTContext) (Base : Expr)
    (BaseSVal : SVal) (State : ProgramState) : option Outcome :=
  match Base with
  | CXXThisExpr _ => Some noTransition
  | _ =>
      match (if isNakedRawPointerType (getType Base) then Some true
             else isNullableObjectType Ctx (getType Base)) with
      | None => None
      | Some false => Some noTransition
      | Some true =>
          if isUndef BaseSVal then Some (reportBug Node BugUndefinedNullable State) else
          let SubExprSVal := BaseSVal in
          if receiverIsNotNull Ctx (getType Base) then Some noTransition else
          if isZeroConstant SubExprSVal
          then Some (reportBug Node BugNullablePointerDereference State) else
          if isArrayToPointerDecay Base then Some noTransition else
          let Constraint := getNullConstraint SubExprSVal State in
          let NullabilityState := getNullabilityState State SubExprSVal in
          if bool_decide (NullabilityState = Some NonNullable)
             || bool_decide (Constraint = IsNotNull)
          then Some noTransition
          else Some (reportBug Node BugNullablePointerDereference State)
      end
  end.

(** ** The construction of a [gsl::not_null] in [checkPreCall] (source lines
    4654-4688) *)

(** [reportNonNullableFromNullable]: as [reportBug], with the bug type
    [BugNullableToNonNullable]. *)
Definition reportNonNullableFromNullable (Node : bool) (State : ProgramState) : Outcome :=
  if Node then mkOutcome [BugNullableToNonNullable] [] true else mkOutcome [] [] true.

(** The block, for a call whose callee expression passes [checkCalleeExpr]
    and for which the lambda [IsNotNullConstruction] holds: the construction
    of a [gsl::not_null] that is neither a copy nor a move nor from another
    [gsl::not_null], or a call of [gsl::make_not_null].  The state is the one the
    refresh of the escape records has left.  [None]: the call has no
    argument, or the [castAs<DefinedOrUnknownSVal>] of its value fails. *)
Definition checkPreCall_construction (Node : bool) (Call : CallEvent) (Arg0 : Expr)
    (State : ProgramState) : option Outcome :=
  let State1 := if negb (ignoreEscapeAnalysis Call) then refreshEscaped State else State in
  match ArgSVals Call with
  | [] => None
  | ArgSVal :: _ =>
      if isUndef ArgSVal then None else
      if isArrayToPointerDecay Arg0 then Some noTransition else
      let Constraint := getNullConstraint ArgSVal State1 in
      if bool_decide (Constraint ≠ IsNotNull)
      then Some (reportNonNullableFromNullable Node State1)
      else Some noTransition
  end.

End Dereference.

(* ===================================================================== *)
(** * The claims of the specification, in its own words                   *)
(* ===================================================================== *)

Module Spec.
Import AST Core dno Dereference.

(** §6: the wrapper "is identified by (a) the qualified name match and (b) the
    presence of a single non-static data member named ptr_". *)
Definition countPtrFields (R : CXXRecordDecl) : nat :=
  length (List.filter (fun FD => String.eqb (FieldName FD) "ptr_") (fields R)).

Definition spec_isNonNullableWrapper (Ctx : ASTContext) (T : QualType) : Prop :=
  ∃ R, getCXXRecordFromType T = Some R
       ∧ QualifiedName (getRecordDecl Ctx R) = "gsl::not_null"
       ∧ countPtrFields (getRecordDecl Ctx R) = 1.

(** §3.1, the conditions on the constructors and conversions of a nullable
    object. *)
Definition hasPublicDefaultCtor (R : CXXRecordDecl) : Prop :=
  ∃ Ctor, In Ctor (ctors R) ∧ isDefaultConstructor Ctor = true ∧ CtorAccess Ctor = AS_public.

Definition hasPublicCopyCtor (R : CXXRecordDecl) : Prop :=
  (∃ Ctor, In Ctor (ctors R) ∧ isCopyConstructor Ctor = true ∧ CtorAccess Ctor = AS_public)
  ∨ hasSimpleCopyConstructor R = true ∨ hasTrivialCopyConstructor R = true.

Definition hasNullPtrConversionCtor (R : CXXRecordDecl) : Prop :=
  ∃ Ctor P Rest, In Ctor (ctors R) ∧ isConvertingConstructor Ctor = true
                 ∧ CtorAccess Ctor = AS_public ∧ CtorParams Ctor = P :: Rest
                 ∧ isNullPtrType (ParmType P) = true.

Definition hasBoolConversion (R : CXXRecordDecl) : Prop :=
  ∃ RT, In (CXXConversionDecl RT) (VisibleConversionFunctions R) ∧ isBooleanType RT = true.

(** §8: "a new T with a non-noexcept allocator": the allocation function is
    declared [noexcept] when its exception specification is [noexcept] or
    [noexcept(true)]. *)
Definition isDeclaredNoexcept (F : FunctionDecl) : bool :=
  match ExceptionSpecType F with
  | EST_BasicNoexcept | EST_NoexceptTrue => true
  | _ => false
  end.

(** §8.4 as claim C1 reads it: no diagnostic iff the constraint is [NotNull]
    or the nullability is [NonNullable]; the error node of the state is
    new. *)
Definition spec_checkPointer (V : SVal) (S : Expr) (DerefExprVal : option SVal)
    (State : ProgramState) : Prop :=
  Reports (checkPointer true V S DerefExprVal State) = []
  ↔ (getNullConstraint V State = IsNotNull
     ∨ derefNullabilityState DerefExprVal State = Some NonNullable).

(** The same reading for [v->m], on the hook of a [MemberExpr]. *)
Definition spec_memberExpr (Ctx : ASTContext) (Base : Expr) (BaseSVal : SVal)
    (State : ProgramState) : Prop :=
  ∀ O, checkPreStmt_MemberExpr true Ctx Base BaseSVal State = Some O →
       (Reports O = []
        ↔ (getNullConstraint BaseSVal State = IsNotNull
           ∨ getNullabilityState State BaseSVal = Some NonNullable)).

(** §8.3 as claim C3 reads it: in every state a call event leaves, each
    record that was [Valid] before the call is [Invalid], and each record
    that was [AlwaysValid] is as it was. *)
Definition spec_call_invalidates (Node : bool) (Ctx : ASTContext) (Call : CallEvent)
    (Eval : ProgramState → ProgramState) (State : ProgramState) : Prop :=
  ∀ Afters After,
    callEvent_escapes Node Ctx Call Eval State = Some Afters → In After Afters →
    ∀ R Rec, EscapedNullable State !! R = Some Rec →
             (Validity Rec = Valid →
              ∃ Rec', EscapedNullable After !! R = Some Rec' ∧ Validity Rec' = Invalid)
             ∧ (Validity Rec = AlwaysValid → EscapedNullable After !! R = Some Rec).

(** What [checkPostCall] does to one escape record: a [Valid] record whose
    constraint is known becomes [Invalid]; every other record is kept. *)
Definition invalidateRecord (Rec : EscapedNullableState) : EscapedNullableState :=
  if bool_decide (Validity Rec = Valid) && bool_decide (Constraint Rec ≠ Unknown)
  then mkEscaped (Constraint Rec) Invalid
  else Rec.

(** §4.7.3: the condition is constrained true, constrained false, or
    unknown in [State]. *)
Definition constrainedTrue (State : ProgramState) (Cond : SVal) : Prop :=
  isNull State Cond = Some false.

Definition constrainedFalse (State : ProgramState) (Cond : SVal) : Prop :=
  isNull State Cond = Some true.

Definition undecided (State : ProgramState) (Cond : SVal) : Prop :=
  isNull State Cond = None.

(** §4.7.3: "if the result is constrained-true continue": the path has a
    successor. *)
Definition spec_loop_continues (Cond : SVal) (State : ProgramState) : Prop :=
  constrainedTrue State Cond → successors State (checkLoopCondition Cond 2 State) ≠ [].

(** §4.7.3: "if unknown fork": the path has a successor in which the
    condition holds and one in which it does not. *)
Definition spec_loop_forks (Cond : SVal) (State : ProgramState) : Prop :=
  undecided State Cond →
  (∃ St, In St (successors State (checkLoopCondition Cond 2 State)) ∧ constrainedTrue St Cond)
  ∧ (∃ St, In St (successors State (checkLoopCondition Cond 2 State))
           ∧ constrainedFalse St Cond).

(** §4.5 and claim C9: "a pointer's address escapes to non-const volatile
    storage".  Following the levels of a reference or pointer type along the
    values the state stores, a level whose pointee is a non-const volatile
    pointer is reached with the location of an lvalue that holds a defined
    value. *)
Definition levelOf (T : QualType) : option QualType :=
  match T with
  | LValueReferenceType Pointee | PointerType Pointee _ => Some Pointee
  | _ => None
  end.

Inductive escapesToVolatile (State : ProgramState) : QualType → SVal → Prop :=
| escapes_here T Pointee R :
    levelOf T = Some Pointee → isPointerType Pointee = true →
    isConstQualified Pointee = false → isVolatileQualified Pointee = true →
    isLValLoc (loc_MemRegionVal R) = true →
    isUndef (getSVal State (loc_MemRegionVal R)) = false →
    escapesToVolatile State T (loc_MemRegionVal R)
| escapes_deeper T Pointee L :
    levelOf T = Some Pointee → isPointerType Pointee = true → isLoc L = true →
    escapesToVolatile State Pointee (getSVal State L) →
    escapesToVolatile State T L.

(** The type and the value the walk starts from for one argument: those of
    the [ptr_] member when the parameter is the wrapper and the argument a
    compound value, those of the parameter and the argument otherwise. *)
Definition argumentLevels (Ctx : ASTContext) (State : ProgramState) (Param : ParmVarDecl)
    (ArgSVal : SVal) : QualType * SVal :=
  if isNonNullableType Ctx (ParmType Param) then
    match getNonNullableField Ctx (ParmType Param), ArgSVal with
    | Some FD, nonloc_LazyCompoundVal R =>
        (FieldType FD, getSVal State (loc_MemRegionVal (FieldRegion FD R)))
    | _, _ => (ParmType Param, ArgSVal)
    end
  else (ParmType Param, ArgSVal).

(** Some argument of the call escapes to volatile storage. *)
Definition argumentEscapesToVolatile (Ctx : ASTContext) (State : ProgramState)
    (Params : list ParmVarDecl) (Args : list SVal) : Prop :=
  ∃ I Param ArgSVal,
    Params !! I = Some Param ∧ Args !! I = Some ArgSVal
    ∧ escapesToVolatile State (argumentLevels Ctx State Param ArgSVal).1
        (argumentLevels Ctx State Param ArgSVal).2.

(** §7: a volatile escape "poisons the affected region with AlwaysInvalid":
    some state the hook hands on records the region as [AlwaysInvalid]. *)
Definition spec_poisons (O : Outcome) (R : MemRegion) : Prop :=
  ∃ State' Rec, In State' (Transitions O)
                ∧ EscapedNullable State' !! R = Some Rec ∧ Validity Rec = AlwaysInvalid.

(** No record of the state is [AlwaysInvalid] unless it was so in [State0]. *)
Definition noNewAlwaysInvalid (State0 State : ProgramState) : Prop :=
  ∀ R Rec, EscapedNullable State !! R = Some Rec → Validity Rec = AlwaysInvalid →
           ∃ Rec0, EscapedNullable State0 !! R = Some Rec0 ∧ Validity Rec0 = AlwaysInvalid.

(** §8.2 as claim C2 reads it: keys of one alias class carry the same
    constraint. *)
Definition spec_classConstraints (State : ProgramState) : Prop :=
  ∀ K1 K2, sameAliasClass State K1 K2 → DNOConstraintMap State !! K1 = DNOConstraintMap State !! K2.

End Spec.

(* ===================================================================== *)
(** * The type classifier                                                 *)
(* ===================================================================== *)

Module ClassifierFacts.
Import AST Core Spec.

(** ** Lists scanned by the classifier *)

Lemma find_Some_first {A} (p : A → bool) (l : list A) (x : A) :
  List.find p l = Some x
  ↔ ∃ pre post, l = pre ++ x :: post ∧ p x = true ∧ Forall (fun y => p y = false) pre.
Proof.
  induction l as [|y l IH]; simpl.
  - split; [discriminate|].
    intros (pre & post & Heq & _). destruct pre; discriminate.
  - destruct (p y) eqn:Hy.
    + split.
      * intros [= ->]. exists [], l. auto.
      * intros (pre & post & Heq & Hx & Hpre).
        destruct pre as [|z pre]; simpl in Heq.
        -- congruence.
        -- injection Heq as -> ->. inversion Hpre; congruence.
    + rewrite IH. split.
      * intros (pre & post & -> & Hx & Hpre). exists (y :: pre), post. auto.
      * intros (pre & post & Heq & Hx & Hpre).
        destruct pre as [|z pre]; simpl in Heq.
        -- injection Heq as -> ->. congruence.
        -- injection Heq as -> ->. inversion Hpre; subst. eauto.
Qed.

Example getNakedType_const_ref_to_wrapper :
  getNakedType (LValueReferenceType (RecordType 5%positive (mkQuals true false)))
  = RecordType 5%positive NoQuals.
Proof. reflexivity. Qed.

(** ** The non-nullable wrapper *)

Lemma isNonNullableType_iff (Ctx : ASTContext) (T : QualType) :
  isNonNullableType Ctx T = true
  ↔ ∃ R, getCXXRecordFromType T = Some R
         ∧ QualifiedName (getRecordDecl Ctx R) = NotNullPtrQualifiedName.
Proof.
  unfold isNonNullableType.
  destruct (getCXXRecordFromType T) as [R|].
  - rewrite String.eqb_eq. split; [eauto|].
    intros (R' & [= <-] & H). exact H.
  - split; [discriminate|]. intros (R' & [=] & _).
Qed.

Lemma getNonNullableField_iff (Ctx : ASTContext) (T : QualType) (F : FieldDecl) :
  getNonNullableField Ctx T = Some F
  ↔ ∃ R pre post, getCXXRecordFromType T = Some R
                  ∧ fields (getRecordDecl Ctx R) = pre ++ F :: post
                  ∧ FieldName F = "ptr_"
                  ∧ Forall (fun G => FieldName G ≠ "ptr_") pre.
Proof.
  unfold getNonNullableField.
  destruct (getCXXRecordFromType T) as [R|].
  - rewrite find_Some_first. split.
    + intros (pre & post & Heq & Hx & Hpre). exists R, pre, post.
      repeat split; auto.
      * now apply String.eqb_eq.
      * eapply Forall_impl; [|exact Hpre]. intros G HG. now apply String.eqb_neq.
    + intros (R' & pre & post & [= <-] & Heq & Hx & Hpre). exists pre, post.
      repeat split; auto.
      * now apply String.eqb_eq.
      * eapply Forall_impl; [|exact Hpre]. intros G HG. now apply String.eqb_neq.
  - split; [discriminate|]. intros (R' & pre & post & [=] & _).
Qed.

(** A record named [gsl::not_null] without any data member. *)
Definition emptyNotNull : CXXRecordDecl :=
  mkRecord 1%positive "gsl::not_null" [] [] false false false false [] [].

(** C5, counterexample: a class named [gsl::not_null] that has no data member
    is classified as the non-nullable wrapper, although condition (b) of the
    claim fails for it. *)
Lemma C5_counterexample :
  isNonNullableType (mkAST (fun _ => emptyNotNull)) (RecordType 1%positive NoQuals) = true
  ∧ ¬ spec_isNonNullableWrapper (mkAST (fun _ => emptyNotNull)) (RecordType 1%positive NoQuals).
Proof.
  split; [reflexivity|].
  intros (R & _ & _ & Hcount). discriminate Hcount.
Qed.

(** C5, amended: a type is classified as the non-nullable wrapper exactly when
    the record behind it (references and qualifiers stripped) has the
    qualified name [gsl::not_null], whatever its data members; the inner
    pointer is read through the first data member named [ptr_], which
    [getNonNullableField] finds exactly when the record has one. *)
Theorem C5_wrapper_is_recognized_by_name (Ctx : ASTContext) (T : QualType) :
  (isNonNullableType Ctx T = true
   ↔ ∃ R, getCXXRecordFromType T = Some R
          ∧ QualifiedName (getRecordDecl Ctx R) = "gsl::not_null")
  ∧ (∀ F, getNonNullableField Ctx T = Some F
          ↔ ∃ R pre post, getCXXRecordFromType T = Some R
                          ∧ fields (getRecordDecl Ctx R) = pre ++ F :: post
                          ∧ FieldName F = "ptr_"
                          ∧ Forall (fun G => FieldName G ≠ "ptr_") pre).
Proof.
  split.
  - apply isNonNullableType_iff.
  - intros F. apply getNonNullableField_iff.
Qed.

(** ** Nullable objects *)

Lemma AccessSpecifier_eqb_public (a : AccessSpecifier) :
  AccessSpecifier_eqb a AS_public = true ↔ a = AS_public.
Proof. destruct a; simpl; split; congruence. Qed.

Lemma HasDefaultCtor_iff (R : CXXRecordDecl) :
  existsb (fun Ctor => isDefaultConstructor Ctor
                       && AccessSpecifier_eqb (CtorAccess Ctor) AS_public) (ctors R) = true
  ↔ hasPublicDefaultCtor R.
Proof.
  rewrite existsb_exists. unfold hasPublicDefaultCtor.
  split; intros (Ctor & Hin & H); exists Ctor.
  - apply andb_true_iff in H as [H1 H2]. apply AccessSpecifier_eqb_public in H2. auto.
  - destruct H as [H1 H2]. split; [auto|].
    apply andb_true_iff. split; [auto|]. now apply AccessSpecifier_eqb_public.
Qed.

Lemma HasCopyCtor_iff (R : CXXRecordDecl) :
  negb (existsb (fun Ctor => isCopyConstructor Ctor
                             && AccessSpecifier_eqb (CtorAccess Ctor) AS_public) (ctors R))
  && negb (hasSimpleCopyConstructor R || hasTrivialCopyConstructor R) = false
  ↔ hasPublicCopyCtor R.
Proof.
  unfold hasPublicCopyCtor.
  rewrite andb_false_iff, !negb_false_iff, orb_true_iff, existsb_exists.
  split.
  - intros [(Ctor & Hin & H)|H]; [left|right; exact H].
    exists Ctor. apply andb_true_iff in H as [H1 H2].
    apply AccessSpecifier_eqb_public in H2. auto.
  - intros [(Ctor & Hin & H1 & H2)|H]; [left|right; exact H].
    exists Ctor. split; [auto|]. apply andb_true_iff. split; [auto|].
    now apply AccessSpecifier_eqb_public.
Qed.

Lemma HasNullPtrConversionCtor_iff (R : CXXRecordDecl) :
  existsb (fun Ctor =>
             isConvertingConstructor Ctor
             && AccessSpecifier_eqb (CtorAccess Ctor) AS_public
             && match CtorParams Ctor with
                | [] => false
                | P :: _ => isNullPtrType (ParmType P)
                end) (ctors R) = true
  ↔ hasNullPtrConversionCtor R.
Proof.
  rewrite existsb_exists. unfold hasNullPtrConversionCtor. split.
  - intros (Ctor & Hin & H).
    apply andb_true_iff in H as [H H3]. apply andb_true_iff in H as [H1 H2].
    apply AccessSpecifier_eqb_public in H2.
    destruct (CtorParams Ctor) as [|P Rest] eqn:HP; [discriminate|].
    exists Ctor, P, Rest. auto.
  - intros (Ctor & P & Rest & Hin & H1 & H2 & HP & H3).
    exists Ctor. split; [auto|]. rewrite HP, H1, H3.
    apply AccessSpecifier_eqb_public in H2. now rewrite H2.
Qed.

Lemma HasBoolConversion_iff (R : CXXRecordDecl) :
  existsb (fun Conv => match Conv with
                       | CXXConversionDecl RT => isBooleanType RT
                       | OtherNamedDecl => false
                       end) (VisibleConversionFunctions R) = true
  ↔ hasBoolConversion R.
Proof.
  rewrite existsb_exists. unfold hasBoolConversion. split.
  - intros ([RT|] & Hin & H); [eauto|discriminate].
  - intros (RT & Hin & H). exists (CXXConversionDecl RT). auto.
Qed.

(** The class [NullableScalar] of the test suite: a defaulted default
    constructor, a constructor from [nullptr_t], implicit copy operations, an
    explicit conversion to [bool] and the two friend operators. *)
Definition ownType : QualType := RecordType 1%positive NoQuals.

Definition friendOp (Op : OverloadedOperatorKind) (Name : string) : FriendDecl :=
  FriendFunction (mkFunction Name Op [mkParm ownType; mkParm ownType] EST_None false).

Definition NullableScalar_ctors : list CXXConstructorDecl :=
  [ mkCtor true false false false AS_public [];
    mkCtor false false false true AS_public [mkParm (BuiltinType BK_NullPtr NoQuals)] ].

Definition NullableScalar : CXXRecordDecl :=
  mkRecord 1%positive "NullableScalar" [mkField "v" (BuiltinType BK_Int NoQuals) 1%positive]
    NullableScalar_ctors true true true true
    [CXXConversionDecl (BuiltinType BK_Bool NoQuals)]
    [friendOp OO_EqualEqual "operator=="; friendOp OO_ExclaimEqual "operator!="].

Example NullableScalar_is_nullable_object : isNullableObject NullableScalar = Some true.
Proof. reflexivity. Qed.

(** A class like [NullableScalar] whose only friend is
    [swap(NullableScalar &, NullableScalar &)]. *)
Definition Swappable : CXXRecordDecl :=
  mkRecord 1%positive "Swappable" [mkField "v" (BuiltinType BK_Int NoQuals) 1%positive]
    NullableScalar_ctors true true true true
    [CXXConversionDecl (BuiltinType BK_Bool NoQuals)]
    [FriendFunction
       (mkFunction "swap" OO_None
          [mkParm (LValueReferenceType ownType); mkParm (LValueReferenceType ownType)]
          EST_None false)].

(** Each friend scan passes over the operator it looks for: an [operator==]
    never satisfies the scan whose failure is reported as "no == operator",
    and an [operator!=] never the one reported as "no != operator". *)
Lemma friendTest_skips_its_operator (Op : OverloadedOperatorKind) (R : CXXRecordDecl)
    (F : FunctionDecl) :
  isOverloadedOperator F = true → OverloadedOperator F = Op →
  friendTest Op R (FriendFunction F) = Some false.
Proof.
  intros HO <-. simpl. rewrite HO.
  destruct (OverloadedOperator F); reflexivity.
Qed.

(** A class like [Swappable] that also declares a well-formed [operator==],
    and no [operator!=]. *)
Definition EqualityOnly : CXXRecordDecl :=
  mkRecord 1%positive "EqualityOnly" [mkField "v" (BuiltinType BK_Int NoQuals) 1%positive]
    NullableScalar_ctors true true true true
    [CXXConversionDecl (BuiltinType BK_Bool NoQuals)]
    [friendOp OO_EqualEqual "operator=="].

(** C6: [isNullableObject] classifies as a nullable object the class
    [Swappable], which declares no equality and no inequality operator at
    all: its only friend, [swap], is not an overloaded operator.  Each of the
    two friend scans returns false on the operator it looks for and accepts
    any other friend function with two operands of the class's own type, so
    the scan for [operator==] is satisfied by [swap], and so is the scan for
    [operator!=].  On [EqualityOnly] the first scan fails, the one reported
    as "no == operator", although the class declares that operator and lacks
    the other one. *)
Theorem C6_friend_scans_skip_their_operator :
  isNullableObject Swappable = Some true
  ∧ (∀ F, In (FriendFunction F) (friends Swappable) → isOverloadedOperator F = false)
  ∧ any_of (friendTest OO_EqualEqual Swappable) (friends Swappable) = Some true
  ∧ any_of (friendTest OO_ExclaimEqual Swappable) (friends Swappable) = Some true
  ∧ any_of (friendTest OO_EqualEqual EqualityOnly) (friends EqualityOnly) = Some false
  ∧ isNullableObject EqualityOnly = Some false
  ∧ ∀ Op R F, isOverloadedOperator F = true → OverloadedOperator F = Op →
              friendTest Op R (FriendFunction F) = Some false.
Proof.
  split; [reflexivity|]. split.
  { intros F [Hin|[]]. injection Hin as <-. reflexivity. }
  repeat (split; [reflexivity|]).
  intros Op R F. apply friendTest_skips_its_operator.
Qed.

(** ** New-expressions *)

Lemma isNullSafeExpr_new (Ctx : ASTContext) (A : QualType) (NewOp : FunctionDecl) :
  isNullSafeExpr Ctx (CXXNewExpr A (Some NewOp)) = negb (isDeclaredNoexcept NewOp).
Proof.
  unfold isNullSafeExpr, isDeclaredNoexcept. simpl.
  destruct (ExceptionSpecType NewOp); reflexivity.
Qed.

End ClassifierFacts.

(* ===================================================================== *)
(** * The hooks                                                           *)
(* ===================================================================== *)

Module CheckerFacts.
Import AST Core Dereference Spec.

(** Reads of unbound regions yield the unknown value. *)
Definition U0 : MemRegion → SVal := fun _ => UnknownVal.

(** A translation unit whose record declarations play no part. *)
Definition anyContext : ASTContext := mkAST (fun _ => ClassifierFacts.NullableScalar).

Definition intTy : QualType := BuiltinType BK_Int NoQuals.
Definition intPtrTy : QualType := PointerType intTy NoQuals.

(** A local variable [p] of type [int *]. *)
Definition var_p : MemRegion := NonParamVarRegion (mkVar 1%positive intPtrTy).

(** ** The refresh of the escape records writes nothing else *)

Lemma set_EscapedNullable_id (State : ProgramState) :
  set_EscapedNullable (fun _ => EscapedNullable State) State = State.
Proof. destruct State; reflexivity. Qed.

Lemma set_EscapedNullable_frame
    (g : gmap MemRegion EscapedNullableState → gmap MemRegion EscapedNullableState)
    (r State : ProgramState) :
  r = set_EscapedNullable (fun _ => EscapedNullable r) State →
  set_EscapedNullable g r
  = set_EscapedNullable (fun _ => EscapedNullable (set_EscapedNullable g r)) State.
Proof.
  intros H. destruct r, State. unfold set_EscapedNullable in *. simpl in *.
  injection H; intros; subst. reflexivity.
Qed.

(** [refreshEscaped] writes [EscapedNullable] only. *)
Lemma refreshEscaped_frame (State : ProgramState) :
  refreshEscaped State
  = set_EscapedNullable (fun _ => EscapedNullable (refreshEscaped State)) State.
Proof.
  unfold refreshEscaped.
  apply (map_fold_weak_ind
           (fun (acc : ProgramState) (_ : gmap MemRegion EscapedNullableState) =>
              acc = set_EscapedNullable (fun _ => EscapedNullable acc) State)).
  - symmetry. apply set_EscapedNullable_id.
  - intros i x m r _ Hr.
    destruct (bool_decide (Validity x ≠ Invalid)); [|exact Hr].
    now apply set_EscapedNullable_frame.
Qed.

Lemma refreshEscaped_getSVal (State : ProgramState) (L : SVal) :
  getSVal (refreshEscaped State) L = getSVal State L.
Proof. rewrite refreshEscaped_frame. reflexivity. Qed.

(** ** Dereference checks *)

(** A state where the symbol [7] is constrained not null and the local [p] is
    recorded as [VolatileNullable]. *)
Definition volatileState : ProgramState :=
  mkState ∅ U0 {[ 7%N := false ]} {[ var_p := VolatileNullable ]} ∅ ∅ ∅ ∅ ∅ ∅ ∅ false ∅ ∅ [].

Example volatileState_constraint :
  getNullConstraint (loc_MemRegionVal (SymbolicRegion 7%N)) volatileState = IsNotNull.
Proof. reflexivity. Qed.

Example volatileState_report :
  checkPointer true (loc_MemRegionVal (SymbolicRegion 7%N)) (DeclRefExpr intPtrTy)
    (Some (loc_MemRegionVal var_p)) volatileState
  = mkOutcome [BugNullablePointerDereference] [] true.
Proof. reflexivity. Qed.

(** A translation unit whose records are the wrapper, and a pointer [q] to
    the wrapper, of which nothing is known. *)
Definition wrapperRecord : CXXRecordDecl :=
  mkRecord 1%positive "gsl::not_null" [mkField "ptr_" intPtrTy 1%positive] [] true true
    true true [] [].

Definition wrapperContext : ASTContext := mkAST (fun _ => wrapperRecord).

Definition wrapperPtrTy : QualType := PointerType (RecordType 1%positive NoQuals) NoQuals.

Example member_of_wrapper_pointer_passes :
  checkPreStmt_MemberExpr true wrapperContext (DeclRefExpr wrapperPtrTy)
    (loc_MemRegionVal (SymbolicRegion 8%N)) (emptyState U0)
  = Some noTransition.
Proof. reflexivity. Qed.


(** What [checkPointer] accepts: a defined value that is an array-to-pointer
    decay, or whose dereferenced expression is not recorded as
    [VolatileNullable] and that is constrained [NotNull] or recorded as
    [NonNullable]. *)
Definition pointerIsSafe (V : SVal) (S : Expr) (DerefExprVal : option SVal)
    (State : ProgramState) : Prop :=
  isUndef V = false
  ∧ (isArrayToPointerDecay S = true
     ∨ (derefNullabilityState DerefExprVal State ≠ Some VolatileNullable
        ∧ (getNullConstraint V State = IsNotNull
           ∨ derefNullabilityState DerefExprVal State = Some NonNullable))).

(** What [checkPreStmt] accepts as the base of a [MemberExpr]: the [this]
    expression, or a defined value that is a pointer to the wrapper, or is
    not the null constant and is an array-to-pointer decay, recorded as
    [NonNullable] or constrained [NotNull]. *)
Definition memberBaseIsSafe (Ctx : ASTContext) (Base : Expr) (BaseSVal : SVal)
    (State : ProgramState) : Prop :=
  (∃ Ty, Base = CXXThisExpr Ty)
  ∨ (isUndef BaseSVal = false
     ∧ (receiverIsNotNull Ctx (getType Base) = true
        ∨ (isZeroConstant BaseSVal = false
           ∧ (isArrayToPointerDecay Base = true
              ∨ getNullabilityState State BaseSVal = Some NonNullable
              ∨ getNullConstraint BaseSVal State = IsNotNull)))).

(** The bug types of a dereference. *)
Definition isDereferenceBug (BT : BugType) : Prop :=
  BT = BugUndefinedNullable ∨ BT = BugNullalbeNullptrDeference
  ∨ BT = BugNullablePointerDereference.

Lemma reportBug_outcome (Node : bool) (BT : BugType) (State : ProgramState) :
  Reports (reportBug Node BT State) = (if Node then [BT] else [])
  ∧ Transitions (reportBug Node BT State) = []
  ∧ Sunk (reportBug Node BT State) = true.
Proof. destruct Node; repeat split. Qed.

Lemma checkPointer_cases (Node : bool) (V : SVal) (S : Expr) (DerefExprVal : option SVal)
    (State : ProgramState) :
  (pointerIsSafe V S DerefExprVal State
   ∧ checkPointer Node V S DerefExprVal State = noTransition)
  ∨ (¬ pointerIsSafe V S DerefExprVal State
     ∧ ∃ BT, checkPointer Node V S DerefExprVal State = reportBug Node BT State
             ∧ isDereferenceBug BT).
Proof.
  unfold checkPointer, pointerIsSafe, isDereferenceBug.
  destruct (isUndef V), (isArrayToPointerDecay S),
    (derefNullabilityState DerefExprVal State) as [[]|], (getNullConstraint V State);
    simpl;
    first [ left; split; [intuition congruence | reflexivity]
          | right; split; [intuition congruence | eauto 6] ].
Qed.

Lemma checkPointer_verdict (Node : bool) (V : SVal) (S : Expr) (DerefExprVal : option SVal)
    (State : ProgramState) :
  (pointerIsSafe V S DerefExprVal State → checkPointer Node V S DerefExprVal State = noTransition)
  ∧ (¬ pointerIsSafe V S DerefExprVal State →
     ∃ BT, checkPointer Node V S DerefExprVal State = reportBug Node BT State
           ∧ isDereferenceBug BT).
Proof.
  destruct (checkPointer_cases Node V S DerefExprVal State) as [[HS HE]|[HS HE]].
  - split; [intros _; exact HE | intros Hn; contradiction].
  - split; [intros H; contradiction | intros _; exact HE].
Qed.

Lemma checkPreStmt_BinaryOperator_verdict (Node IsArrow : bool) (LHS RHS : Expr)
    (VL VR : SVal) (DerefL DerefR : option SVal) (State : ProgramState) :
  isUndef VL = false → isUndef VR = false →
  ∃ O, checkPreStmt_BinaryOperator Node IsArrow LHS RHS VL VR DerefL DerefR State = Some O
       ∧ (((IsArrow = true → pointerIsSafe VL LHS DerefL State)
           ∧ pointerIsSafe VR RHS DerefR State) → O = noTransition)
       ∧ (¬ ((IsArrow = true → pointerIsSafe VL LHS DerefL State)
             ∧ pointerIsSafe VR RHS DerefR State) →
          ∃ BT, O = reportBug Node BT State ∧ isDereferenceBug BT).
Proof.
  intros HL HR. unfold checkPreStmt_BinaryOperator. rewrite HL, HR, andb_false_r.
  eexists. split; [reflexivity|].
  destruct IsArrow.
  - destruct (checkPointer_cases Node VL LHS DerefL State) as [[SL ->]|[SL (BT & -> & HBT)]].
    + cbn [Sunk Reports Transitions noTransition negb app orb].
      rewrite andb_true_r.
      destruct (checkPointer_cases Node VR RHS DerefR State)
        as [[SR ->]|[SR (BT & -> & HBT)]].
      * split; [reflexivity|]. intros Hn. elim Hn. auto.
      * split; [intros [_ H]; contradiction|]. intros _.
        exists BT. split; [|exact HBT]. destruct Node; reflexivity.
    + rewrite (proj2 (proj2 (reportBug_outcome Node BT State))).
      cbn [negb]. rewrite andb_false_r.
      split; [intros [H _]; elim SL; now apply H|].
      intros _. exists BT. split; [|exact HBT].
      destruct (checkPointer_cases false VR RHS DerefR State)
        as [[SR ->]|[SR (BT' & -> & _)]]; destruct Node; reflexivity.
  - cbn [Sunk Reports Transitions noTransition negb app orb]. rewrite andb_true_r.
    destruct (checkPointer_cases Node VR RHS DerefR State)
      as [[SR ->]|[SR (BT & -> & HBT)]].
    + split; [reflexivity|]. intros Hn. elim Hn. split; [discriminate|exact SR].
    + split; [intros [_ H]; contradiction|]. intros _.
      exists BT. split; [|exact HBT]. destruct Node; reflexivity.
Qed.

Lemma checkPreStmt_MemberExpr_verdict (Node : bool) (Ctx : ASTContext) (Base : Expr)
    (BaseSVal : SVal) (State : ProgramState) :
  isNakedRawPointerType (getType Base) = true →
  (memberBaseIsSafe Ctx Base BaseSVal State →
   checkPreStmt_MemberExpr Node Ctx Base BaseSVal State = Some noTransition)
  ∧ (¬ memberBaseIsSafe Ctx Base BaseSVal State →
     ∃ BT, checkPreStmt_MemberExpr Node Ctx Base BaseSVal State
           = Some (reportBug Node BT State)
           ∧ (BT = BugUndefinedNullable ∨ BT = BugNullablePointerDereference)).
Proof.
  intros HT. unfold memberBaseIsSafe.
  assert (Hthis : ∀ Ty, checkPreStmt_MemberExpr Node Ctx (CXXThisExpr Ty) BaseSVal State
                        = Some noTransition) by reflexivity.
  assert (Hother : (∀ Ty, Base ≠ CXXThisExpr Ty) →
            checkPreStmt_MemberExpr Node Ctx Base BaseSVal State
            = if isUndef BaseSVal then Some (reportBug Node BugUndefinedNullable State) else
              if receiverIsNotNull Ctx (getType Base) then Some noTransition else
              if isZeroConstant BaseSVal
              then Some (reportBug Node BugNullablePointerDereference State) else
              if isArrayToPointerDecay Base then Some noTransition else
              if bool_decide (getNullabilityState State BaseSVal = Some NonNullable)
                 || bool_decide (getNullConstraint BaseSVal State = IsNotNull)
              then Some noTransition
              else Some (reportBug Node BugNullablePointerDereference State)).
  { intros Hn. unfold checkPreStmt_MemberExpr. rewrite HT.
    destruct Base; try reflexivity. elim (Hn Ty). reflexivity. }
  assert (Hcase : (∃ Ty, Base = CXXThisExpr Ty) ∨ (∀ Ty, Base ≠ CXXThisExpr Ty)).
  { destruct Base; try (right; intros Ty' HTy; discriminate HTy). left. eauto. }
  destruct Hcase as [[Ty ->]|Hn].
  { split; [intros _; apply Hthis|]. intros H. elim H. left. eauto. }
  rewrite Hother by assumption.
  assert (Hn' : ¬ ∃ Ty, Base = CXXThisExpr Ty) by (intros [Ty HTy]; exact (Hn Ty HTy)).
  destruct (isUndef BaseSVal), (receiverIsNotNull Ctx (getType Base)),
    (isZeroConstant BaseSVal), (isArrayToPointerDecay Base);
    try (split; [try reflexivity; intuition congruence
                |try (intros _; eauto; fail); intros H; exfalso; apply H; intuition congruence]).
  destruct (decide (getNullabilityState State BaseSVal = Some NonNullable)) as [HN|HN];
    destruct (decide (getNullConstraint BaseSVal State = IsNotNull)) as [HC|HC];
    rewrite ?(bool_decide_eq_true_2 _ HN), ?(bool_decide_eq_false_2 _ HN),
      ?(bool_decide_eq_true_2 _ HC), ?(bool_decide_eq_false_2 _ HC); simpl;
    (split; [try reflexivity; intuition congruence
            |try (intros _; eauto; fail); intros H; exfalso; apply H; intuition congruence]).
Qed.

Lemma getNullConstraint_refreshEscaped (V : SVal) (State : ProgramState) :
  getNullConstraint V (refreshEscaped State) = getNullConstraint V State.
Proof. rewrite refreshEscaped_frame. reflexivity. Qed.

Lemma checkPreCall_construction_verdict (Node : bool) (Call : CallEvent) (Arg0 : Expr)
    (ArgSVal : SVal) (Args : list SVal) (State : ProgramState) :
  ArgSVals Call = ArgSVal :: Args → isUndef ArgSVal = false →
  (isArrayToPointerDecay Arg0 = true ∨ getNullConstraint ArgSVal State = IsNotNull →
   checkPreCall_construction Node Call Arg0 State = Some noTransition)
  ∧ (¬ (isArrayToPointerDecay Arg0 = true ∨ getNullConstraint ArgSVal State = IsNotNull) →
     ∃ State1, checkPreCall_construction Node Call Arg0 State
               = Some (reportNonNullableFromNullable Node State1)).
Proof.
  intros HA HU. unfold checkPreCall_construction. rewrite HA, HU.
  assert (HC : getNullConstraint ArgSVal
                 (if negb (ignoreEscapeAnalysis Call) then refreshEscaped State else State)
               = getNullConstraint ArgSVal State).
  { destruct (ignoreEscapeAnalysis Call); [reflexivity|apply getNullConstraint_refreshEscaped]. }
  rewrite HC.
  destruct (isArrayToPointerDecay Arg0).
  { split; [reflexivity|]. intros H. elim H. now left. }
  destruct (decide (getNullConstraint ArgSVal State = IsNotNull)) as [H|H].
  - rewrite bool_decide_eq_false_2 by (intros Hn; apply Hn; exact H).
    split; [reflexivity|]. intros Hn. elim Hn. now right.
  - rewrite bool_decide_eq_true_2 by assumption.
    split; [intros [Hd|Hd]; [discriminate Hd|contradiction]|]. intros _. eauto.
Qed.


(** The second operand of [->*] is not reported when the first is: both
    operands are unconstrained, and the hook emits one diagnostic. *)
Example second_operand_is_not_reported :
  checkPreStmt_BinaryOperator true true (DeclRefExpr intPtrTy) (DeclRefExpr intPtrTy)
    (loc_MemRegionVal (SymbolicRegion 8%N)) (loc_MemRegionVal (SymbolicRegion 9%N))
    None None (emptyState U0)
  = Some (mkOutcome [BugNullablePointerDereference] [] true).
Proof. reflexivity. Qed.

(** [v->m] does not consult the nullability of the dereferenced expression:
    on the state of the counterexample it passes. *)
Example member_access_ignores_volatile :
  checkPreStmt_MemberExpr true anyContext (DeclRefExpr intPtrTy)
    (loc_MemRegionVal (SymbolicRegion 7%N)) volatileState
  = Some noTransition.
Proof. reflexivity. Qed.

(** ** [BeginFunction] on implicit functions *)

(** C10: on an implicit function [checkBeginFunction] adds a sink and
    nothing else; the path has no successor, so whatever hooks the body of the
    function would run report nothing. *)
Theorem C10_implicit_function_is_sunk (Ctx : ASTContext) (FD : FunctionDecl)
    (inTopFrame : bool) (Body : list (ProgramState → Outcome)) (State : ProgramState) :
  isImplicit FD = true →
  checkBeginFunction Ctx FD inTopFrame State = mkOutcome [] [] true
  ∧ successors State (checkBeginFunction Ctx FD inTopFrame State) = []
  ∧ analyzeFunction Ctx FD inTopFrame Body State = [].
Proof.
  intros Himp. unfold analyzeFunction, checkBeginFunction. simpl. rewrite Himp.
  repeat split.
Qed.

(** An implicitly defined copy constructor, and a hook that always reports. *)
Definition implicitCopyCtor : FunctionDecl :=
  mkFunction "Object::Object" OO_None
    [mkParm (LValueReferenceType (RecordType 3%positive (mkQuals true false)))]
    EST_None true.

Definition alwaysReports (State : ProgramState) : Outcome :=
  reportBug true BugNullablePointerDereference State.

Lemma C10_witness :
  checkBeginFunction anyContext implicitCopyCtor false
    (emptyState U0) = mkOutcome [] [] true
  ∧ successors (emptyState U0)
      (checkBeginFunction anyContext implicitCopyCtor
         false (emptyState U0)) = []
  ∧ analyzeFunction anyContext implicitCopyCtor false
      [alwaysReports] (emptyState U0) = [].
Proof.
  apply (C10_implicit_function_is_sunk anyContext
           implicitCopyCtor false [alwaysReports] (emptyState U0)).
  reflexivity.
Defined.

(** The same body does report when the function is not implicit. *)
Example explicit_function_is_analyzed :
  analyzeFunction anyContext
    (mkFunction "f" OO_None [] EST_None false) false [alwaysReports] (emptyState U0)
  = [BugNullablePointerDereference].
Proof. reflexivity. Qed.

(** ** Escape records across a call *)

Lemma EscapedNullable_set (f : gmap MemRegion EscapedNullableState → gmap MemRegion EscapedNullableState)
    (State : ProgramState) :
  EscapedNullable (set_EscapedNullable f State) = f (EscapedNullable State).
Proof. reflexivity. Qed.

(** The loop of [checkPostCall] maps [invalidateRecord] over the records. *)
Lemma invalidateEscaped_lookup (State : ProgramState) (R : MemRegion) :
  EscapedNullable (invalidateEscaped State) !! R
  = invalidateRecord <$> EscapedNullable State !! R.
Proof.
  unfold invalidateEscaped.
  set (f := fun (LValRegion : MemRegion) (EscapeRecord : EscapedNullableState)
                (St : ProgramState) => _).
  enough (H : ∀ m, (∀ R' Rec, m !! R' = Some Rec → EscapedNullable State !! R' = Some Rec) →
                   ∀ R', EscapedNullable (map_fold f State m) !! R'
                         = match m !! R' with
                           | Some Rec => Some (invalidateRecord Rec)
                           | None => EscapedNullable State !! R'
                           end).
  { rewrite (H (EscapedNullable State)) by auto.
    destruct (EscapedNullable State !! R); reflexivity. }
  intros m. induction m as [|i x m Hi Hfirst IH] using map_first_key_ind.
  - intros _ R'. rewrite map_fold_empty, lookup_empty. reflexivity.
  - intros Hsub R'. rewrite map_fold_insert_first_key by assumption.
    assert (Hsub' : ∀ R'' Rec, m !! R'' = Some Rec → EscapedNullable State !! R'' = Some Rec).
    { intros R'' Rec HR. apply Hsub. rewrite lookup_insert_ne; [exact HR|]. congruence. }
    specialize (IH Hsub').
    assert (Hx : EscapedNullable State !! i = Some x).
    { apply Hsub. apply lookup_insert_eq. }
    unfold f at 1. unfold invalidateRecord.
    destruct (bool_decide (Validity x = Valid) && bool_decide (Constraint x ≠ Unknown)) eqn:Hc.
    + rewrite EscapedNullable_set.
      destruct (decide (i = R')) as [->|Hne].
      * rewrite !lookup_insert_eq. now rewrite Hc.
      * rewrite !lookup_insert_ne by assumption. apply IH.
    + destruct (decide (i = R')) as [->|Hne].
      * rewrite lookup_insert_eq, Hc, IH, Hi. exact Hx.
      * rewrite lookup_insert_ne by assumption. apply IH.
Qed.

(** A function of the program under analysis, neither a wrapper member nor a
    forwarding helper. *)
Definition opaqueCallee : FunctionDecl :=
  mkFunction "some_opaque_call" OO_None [] EST_None false.

Definition opaqueCall : CallEvent :=
  mkCall (Some (OtherExpr (BuiltinType BK_Void NoQuals))) (Some (FunctionD opaqueCallee))
    [] [] UnknownVal.

Definition escapedState (Rec : EscapedNullableState) : ProgramState :=
  set_EscapedNullable (fun _ => {[ var_p := Rec ]}) (emptyState U0).

(** [checkPostCall] maps [invalidateRecord] over the records of a call that
    has an origin expression and is not allow-listed. *)
Lemma checkPostCall_escapes_lookup (Call : CallEvent) (State : ProgramState) (E : Expr)
    (R : MemRegion) :
  OriginExpr Call = Some E → ignoreEscapeAnalysis Call = false →
  EscapedNullable (checkPostCall_escapes Call State) !! R
  = invalidateRecord <$> EscapedNullable State !! R.
Proof.
  intros HE Hign. unfold checkPostCall_escapes. rewrite HE, Hign. simpl.
  apply invalidateEscaped_lookup.
Qed.

Example postCall_invalidates_proof :
  EscapedNullable (checkPostCall_escapes opaqueCall (escapedState (mkEscaped IsNotNull Valid)))
    !! var_p = Some (mkEscaped IsNotNull Invalid).
Proof. vm_compute. reflexivity. Qed.

Example postCall_keeps_always_valid :
  EscapedNullable
    (checkPostCall_escapes opaqueCall (escapedState (mkEscaped IsNotNull AlwaysValid)))
    !! var_p = Some (mkEscaped IsNotNull AlwaysValid).
Proof. vm_compute. reflexivity. Qed.

(** An allow-listed helper leaves the records alone. *)
Lemma checkPostCall_escapes_ignored (Call : CallEvent) (State : ProgramState) :
  ignoreEscapeAnalysis Call = true → checkPostCall_escapes Call State = State.
Proof.
  intros H. unfold checkPostCall_escapes. rewrite H. destruct (OriginExpr Call); reflexivity.
Qed.

(** ** The second evaluation of a loop condition *)

Lemma isConstant_known (Cond : SVal) : isConstant Cond = true → isUnknownOrUndef Cond = false.
Proof. destruct Cond; simpl; intros H; (discriminate H || reflexivity). Qed.

Lemma isZeroConstant_isConstant (Cond : SVal) : isZeroConstant Cond = true → isConstant Cond = true.
Proof. destruct Cond; simpl; intros H; (discriminate H || reflexivity). Qed.

(** A state in which a symbolic condition was assumed false constrains its
    symbol to zero. *)
Lemma assume_false_constrains (State State' : ProgramState) (Cond : SVal) (Sym : SymbolRef) :
  isConstant Cond = false → getAsSymbol Cond = Some Sym →
  assume State Cond false = Some State' → Constraints State' !! Sym = Some true.
Proof.
  intros Hc Hs. unfold assume, isNull.
  replace (isZeroConstant Cond) with false
    by (destruct Cond; simpl in *; congruence).
  rewrite Hc, Hs.
  destruct (Constraints State !! Sym) as [[|]|] eqn:HC; intros [= <-].
  - exact HC.
  - simpl. apply lookup_insert_eq.
Qed.

Lemma clearWeakening_Constraints (State : ProgramState) :
  Constraints (clearWeakening State) = Constraints State.
Proof. reflexivity. Qed.

(** C4, counterexample: at the second evaluation a condition that is the
    constant [1] is constrained true, and the path has no successor; and a
    condition that is an unconstrained symbol does not fork: the only
    successor is the state in which the condition is false. *)
Lemma C4_counterexample :
  ¬ spec_loop_continues (nonloc_ConcreteInt 1) (emptyState U0)
  ∧ ¬ spec_loop_forks (nonloc_SymbolVal 5%N) (emptyState U0).
Proof.
  split.
  - intros H. apply H; reflexivity.
  - intros H. destruct (H eq_refl) as [(St & Hin & HT) _].
    destruct Hin as [<-|[]]. discriminate HT.
Qed.

Example second_evaluation_does_not_fork :
  successors (emptyState U0) (checkLoopCondition (nonloc_SymbolVal 5%N) 2 (emptyState U0))
  = [set_Constraints (fun _ => {[ 5%N := true ]}) (emptyState U0)].
Proof. reflexivity. Qed.

(** A symbolic condition that is constrained true: the hook adds nothing and
    the path goes on in the state it was in. *)
Example second_evaluation_continues :
  successors (set_Constraints (fun _ => {[ 5%N := false ]}) (emptyState U0))
    (checkLoopCondition (nonloc_SymbolVal 5%N) 2
       (set_Constraints (fun _ => {[ 5%N := false ]}) (emptyState U0)))
  = [set_Constraints (fun _ => {[ 5%N := false ]}) (emptyState U0)].
Proof. reflexivity. Qed.

Lemma isNull_symbolic (State : ProgramState) (Cond : SVal) :
  isConstant Cond = false →
  isNull State Cond = match getAsSymbol Cond with
                      | Some Sym => Constraints State !! Sym
                      | None => None
                      end.
Proof.
  intros Hc. unfold isNull.
  replace (isZeroConstant Cond) with false by (destruct Cond; simpl in *; congruence).
  now rewrite Hc.
Qed.

(** C4, amended: at the second evaluation of a loop condition the hook
    leaves the path to the engine when the value of the condition is unknown
    or undefined.  When the condition is constrained true the path
    continues, in the state it was in, if the condition is symbolic, and is
    sunk if it is a non-zero constant.  When the condition is constrained
    false (the zero constant, or a symbolic value constrained false) the
    path exits the loop: its only successor is the state with the weaken
    map and the synonyms cleared.  When a symbolic condition is undecided
    the path does not fork: its only successor is the state in which the
    condition is assumed false, weaken map and synonyms cleared. *)
Theorem C4_second_evaluation (Cond : SVal) (State : ProgramState) :
  (isUnknownOrUndef Cond = true →
   checkLoopCondition Cond 2 State = noTransition
   ∧ successors State (checkLoopCondition Cond 2 State) = [State])
  ∧ (isConstant Cond = true → isZeroConstant Cond = false →
     constrainedTrue State Cond
     ∧ checkLoopCondition Cond 2 State = addSink
     ∧ successors State (checkLoopCondition Cond 2 State) = [])
  ∧ (isZeroConstant Cond = true →
     constrainedFalse State Cond
     ∧ successors State (checkLoopCondition Cond 2 State) = [clearWeakening State])
  ∧ (isUnknownOrUndef Cond = false → isConstant Cond = false →
     (constrainedTrue State Cond →
      checkLoopCondition Cond 2 State = noTransition
      ∧ successors State (checkLoopCondition Cond 2 State) = [State])
     ∧ (constrainedFalse State Cond →
        successors State (checkLoopCondition Cond 2 State) = [clearWeakening State])
     ∧ (undecided State Cond →
        ∃ St, assume State Cond false = Some St
              ∧ successors State (checkLoopCondition Cond 2 State) = [clearWeakening St]
              ∧ (∀ Sym, getAsSymbol Cond = Some Sym →
                        constrainedFalse (clearWeakening St) Cond))).
Proof.
  unfold checkLoopCondition, constrainedTrue, constrainedFalse, undecided.
  cbn [Nat.eqb]. split; [|split; [|split]].
  - intros ->. split; reflexivity.
  - intros Hc Hz. rewrite (isConstant_known _ Hc), Hc, Hz. simpl.
    split; [|split; reflexivity]. unfold isNull. now rewrite Hz, Hc.
  - intros Hz. rewrite (isConstant_known _ (isZeroConstant_isConstant _ Hz)),
      (isZeroConstant_isConstant _ Hz), Hz. simpl.
    split; [|reflexivity]. unfold isNull. now rewrite Hz.
  - intros Hk Hc. rewrite Hk, Hc. cbn [negb assumeDual].
    unfold assume. split; [|split].
    + intros HT. rewrite HT. split; reflexivity.
    + intros HF. rewrite HF. reflexivity.
    + intros HU. rewrite HU.
      destruct (getAsSymbol Cond) as [Sym|] eqn:HS.
      * eexists. split; [reflexivity|]. split; [reflexivity|].
        intros Sym' [= <-]. rewrite (isNull_symbolic _ _ Hc), HS.
        cbn. apply lookup_insert_eq.
      * eexists. split; [reflexivity|]. split; [reflexivity|]. intros Sym' H. discriminate H.
Qed.

(** ** New-expressions after the call *)

Lemma getNullConstraint_symbolic_region (Sym : SymbolRef) (State : ProgramState) :
  Constraints State !! Sym = Some false →
  getNullConstraint (loc_MemRegionVal (SymbolicRegion Sym)) State = IsNotNull.
Proof. intros H. unfold getNullConstraint, isNull. simpl. rewrite H. reflexivity. Qed.

(** C8: a new-expression whose allocation function is not declared
    [noexcept] is null-safe, and after the call the checker holds its result,
    the fresh heap region of the allocation, to be [NotNull]; when the
    allocation function is declared [noexcept] the expression is not
    null-safe and the checker adds no constraint on the result, which stays
    nullable. *)
Theorem C8_new_expression (Ctx : ASTContext) (A : QualType) (NewOp : FunctionDecl)
    (Call : CallEvent) (State : ProgramState) (Sym : SymbolRef) :
  OriginExpr Call = Some (CXXNewExpr A (Some NewOp)) →
  ReturnValue Call = loc_MemRegionVal (SymbolicRegion Sym) →
  Constraints State !! Sym ≠ Some true →
  (isDeclaredNoexcept NewOp = false →
   isNullSafeExpr Ctx (CXXNewExpr A (Some NewOp)) = true
   ∧ ∃ State', checkPostCall_new Call State = Some State'
               ∧ getNullConstraint (ReturnValue Call) State' = IsNotNull)
  ∧ (isDeclaredNoexcept NewOp = true →
     isNullSafeExpr Ctx (CXXNewExpr A (Some NewOp)) = false
     ∧ checkPostCall_new Call State = Some State).
Proof.
  intros HE HR HC. rewrite ClassifierFacts.isNullSafeExpr_new.
  unfold checkPostCall_new, isDeclaredNoexcept. rewrite HE, HR.
  split; intros Hn.
  - rewrite Hn. split; [reflexivity|].
    assert (Ha : ∃ State', assume State (loc_MemRegionVal (SymbolicRegion Sym)) true = Some State'
                            ∧ Constraints State' !! Sym = Some false).
    { unfold assume, isNull. simpl.
      destruct (Constraints State !! Sym) as [[|]|] eqn:Hs.
      - congruence.
      - eauto.
      - eexists. split; [reflexivity|]. simpl. apply lookup_insert_eq. }
    destruct Ha as (State' & Ha & Hs). exists State'. split.
    + destruct (ExceptionSpecType NewOp); try discriminate Hn; exact Ha.
    + now apply getNullConstraint_symbolic_region.
  - rewrite Hn. split; [reflexivity|].
    destruct (ExceptionSpecType NewOp); try discriminate Hn; reflexivity.
Qed.

(** [operator new(size_t)] and [operator new(size_t, const std::nothrow_t &)
    noexcept]. *)
Definition throwingNew : FunctionDecl :=
  mkFunction "operator new" OO_New [mkParm (BuiltinType BK_Int NoQuals)] EST_None false.

Definition nothrowNew : FunctionDecl :=
  mkFunction "operator new" OO_New
    [mkParm (BuiltinType BK_Int NoQuals);
     mkParm (LValueReferenceType (RecordType 9%positive (mkQuals true false)))]
    EST_BasicNoexcept false.

Definition newCall (NewOp : FunctionDecl) : CallEvent :=
  mkCall (Some (CXXNewExpr intTy (Some NewOp))) (Some (FunctionD NewOp))
    (parameters NewOp) [] (loc_MemRegionVal (SymbolicRegion 4%N)).

Lemma C8_witness :
  isNullSafeExpr anyContext (CXXNewExpr intTy (Some throwingNew)) = true
  ∧ ∃ State', checkPostCall_new (newCall throwingNew) (emptyState U0) = Some State'
              ∧ getNullConstraint (ReturnValue (newCall throwingNew)) State' = IsNotNull.
Proof.
  assert (Hfresh : Constraints (emptyState U0) !! 4%N ≠ Some true)
    by (vm_compute; discriminate).
  apply (proj1 (C8_new_expression anyContext intTy throwingNew (newCall throwingNew)
                  (emptyState U0) 4%N eq_refl eq_refl Hfresh)).
  reflexivity.
Defined.

Example throwing_new_is_not_null :
  isNullSafeExpr anyContext
    (CXXNewExpr intTy (Some throwingNew)) = true
  ∧ (getNullConstraint (ReturnValue (newCall throwingNew))
       <$> checkPostCall_new (newCall throwingNew) (emptyState U0)) = Some IsNotNull.
Proof. split; reflexivity. Qed.

Example nothrow_new_is_nullable :
  isNullSafeExpr anyContext
    (CXXNewExpr intTy (Some nothrowNew)) = false
  ∧ (getNullConstraint (ReturnValue (newCall nothrowNew))
       <$> checkPostCall_new (newCall nothrowNew) (emptyState U0)) = Some Unknown.
Proof. split; reflexivity. Qed.

(** ** Volatile escapes *)

(** [refreshEscaped] keeps the validity of every record. *)
Lemma refreshEscaped_validity (State : ProgramState) (R : MemRegion) :
  Validity <$> EscapedNullable (refreshEscaped State) !! R
  = Validity <$> EscapedNullable State !! R.
Proof.
  unfold refreshEscaped.
  set (f := fun (LValRegion : MemRegion) (Rec : EscapedNullableState) (St : ProgramState) => _).
  enough (H : ∀ m, (∀ R' Rec, m !! R' = Some Rec → EscapedNullable State !! R' = Some Rec) →
                   ∀ R', Validity <$> EscapedNullable (map_fold f State m) !! R'
                         = Validity <$> EscapedNullable State !! R') by (apply H; auto).
  intros m. induction m as [|i x m Hi Hfirst IH] using map_first_key_ind.
  - intros _ R'. rewrite map_fold_empty. reflexivity.
  - intros Hsub R'. rewrite map_fold_insert_first_key by assumption.
    assert (Hsub' : ∀ R'' Rec, m !! R'' = Some Rec → EscapedNullable State !! R'' = Some Rec).
    { intros R'' Rec HR. apply Hsub. rewrite lookup_insert_ne; [exact HR|]. congruence. }
    specialize (IH Hsub').
    assert (Hx : EscapedNullable State !! i = Some x).
    { apply Hsub. apply lookup_insert_eq. }
    unfold f at 1.
    destruct (bool_decide (Validity x ≠ Invalid)); [|apply IH].
    rewrite EscapedNullable_set.
    destruct (decide (i = R')) as [->|Hne].
    + rewrite lookup_insert_eq, Hx. reflexivity.
    + rewrite lookup_insert_ne by assumption. apply IH.
Qed.

Lemma refreshEscaped_noNewAlwaysInvalid (State : ProgramState) :
  noNewAlwaysInvalid State (refreshEscaped State).
Proof.
  intros R Rec HR Hv. pose proof (refreshEscaped_validity State R) as H.
  rewrite HR in H. simpl in H.
  destruct (EscapedNullable State !! R) as [Rec0|]; [|discriminate H].
  exists Rec0. split; [reflexivity|]. simpl in H. congruence.
Qed.

Lemma noNewAlwaysInvalid_trans (S1 S2 S3 : ProgramState) :
  noNewAlwaysInvalid S1 S2 → noNewAlwaysInvalid S2 S3 → noNewAlwaysInvalid S1 S3.
Proof.
  intros H12 H23 R Rec HR Hv.
  destruct (H23 R Rec HR Hv) as (Rec2 & HR2 & Hv2). eauto.
Qed.

Lemma noNewAlwaysInvalid_refl (State : ProgramState) : noNewAlwaysInvalid State State.
Proof. intros R Rec HR Hv. eauto. Qed.

(** Recording an escape writes [AlwaysValid] or [Valid]. *)
Lemma noNewAlwaysInvalid_record (State : ProgramState) (R : MemRegion) (C : NullConstraint)
    (b : bool) :
  noNewAlwaysInvalid State
    (set_EscapedNullable <[R := mkEscaped C (if b then AlwaysValid else Valid)]> State).
Proof.
  intros R' Rec HR Hv. rewrite EscapedNullable_set in HR.
  destruct (decide (R = R')) as [->|Hne].
  - rewrite lookup_insert_eq in HR. injection HR as <-. destruct b; discriminate Hv.
  - rewrite lookup_insert_ne in HR by assumption. eauto.
Qed.

(** The walk over the levels of a parameter type reports nothing but the
    volatile escape, and the state it goes on with has no new [AlwaysInvalid]
    record. *)
Lemma escapeLevels_outcome (Type_ : QualType) :
  ∀ (Val : SVal) (State : ProgramState),
    match escapeLevels Type_ Val State with
    | Continue State' => noNewAlwaysInvalid State State'
    | Reported BT State' => BT = BugVolatilePointerEscape ∧ noNewAlwaysInvalid State State'
    | Aborted => True
    end.
Proof.
  assert (Hstep : ∀ Pointee : QualType,
             (∀ Val State,
                 match escapeLevels Pointee Val State with
                 | Continue State' => noNewAlwaysInvalid State State'
                 | Reported BT State' =>
                     BT = BugVolatilePointerEscape ∧ noNewAlwaysInvalid State State'
                 | Aborted => True
                 end) →
             ∀ Val State,
               match
                 (if isPointerType Pointee then
                    if negb (isLoc Val) then Aborted else
                    if isUndef (getSVal State Val) then Aborted else
                    match getLValLocRegion Val with
                    | Some R =>
                        if negb (isConstQualified Pointee) && isVolatileQualified Pointee
                        then Reported BugVolatilePointerEscape State
                        else escapeLevels Pointee (getSVal State Val)
                               (set_EscapedNullable
                                  <[R := mkEscaped (getNullConstraint (getSVal State Val) State)
                                           (if isConstQualified Pointee
                                            then AlwaysValid else Valid)]> State)
                    | None => escapeLevels Pointee (getSVal State Val) State
                    end
                  else Continue State)
               with
               | Continue State' => noNewAlwaysInvalid State State'
               | Reported BT State' =>
                   BT = BugVolatilePointerEscape ∧ noNewAlwaysInvalid State State'
               | Aborted => True
               end).
  { intros Pointee IH Val State.
    destruct (isPointerType Pointee); [|apply noNewAlwaysInvalid_refl].
    destruct (negb (isLoc Val)); [exact Logic.I|].
    destruct (isUndef (getSVal State Val)); [exact Logic.I|].
    destruct (getLValLocRegion Val) as [R|]; [|apply IH].
    destruct (negb (isConstQualified Pointee) && isVolatileQualified Pointee).
    { split; [reflexivity|apply noNewAlwaysInvalid_refl]. }
    match goal with
    | |- match escapeLevels ?P ?V ?S' with _ => _ end =>
        specialize (IH V S'); destruct (escapeLevels P V S') as [State'|BT State'|]
    end.
    - eapply noNewAlwaysInvalid_trans; [apply noNewAlwaysInvalid_record|exact IH].
    - destruct IH as [-> IH]. split; [reflexivity|].
      eapply noNewAlwaysInvalid_trans; [apply noNewAlwaysInvalid_record|exact IH].
    - exact Logic.I. }
  induction Type_ as [K Q|P IH Q|P IH C Q|P IH|P IH|E IH| |D Q]; intros Val State;
    try apply noNewAlwaysInvalid_refl.
  - apply (Hstep P IH).
  - apply (Hstep P IH).
Qed.

Lemma escapeArgument_outcome (Ctx : ASTContext) (Param : ParmVarDecl) (ArgSVal : SVal)
    (State : ProgramState) :
  match escapeArgument Ctx Param ArgSVal State with
  | Continue State' => noNewAlwaysInvalid State State'
  | Reported BT State' => BT = BugVolatilePointerEscape ∧ noNewAlwaysInvalid State State'
  | Aborted => True
  end.
Proof.
  unfold escapeArgument.
  destruct (isNonNullableType Ctx (ParmType Param)); [|apply escapeLevels_outcome].
  destruct (getNonNullableField Ctx (ParmType Param)) as [FD|];
    destruct ArgSVal; apply escapeLevels_outcome.
Qed.

Lemma escapeArguments_outcome (Ctx : ASTContext) (Args : list SVal) :
  ∀ (Params : list ParmVarDecl) (State : ProgramState),
    match escapeArguments Ctx Params Args State with
    | Continue State' => noNewAlwaysInvalid State State'
    | Reported BT State' => BT = BugVolatilePointerEscape ∧ noNewAlwaysInvalid State State'
    | Aborted => True
    end.
Proof.
  induction Args as [|ArgSVal Args IH]; intros Params State; simpl.
  - apply noNewAlwaysInvalid_refl.
  - destruct Params as [|Param Params]; [exact Logic.I|].
    pose proof (escapeArgument_outcome Ctx Param ArgSVal State) as H.
    destruct (escapeArgument Ctx Param ArgSVal State) as [State1|BT State1|].
    + specialize (IH Params State1).
      destruct (escapeArguments Ctx Params Args State1) as [State2|BT State2|].
      * eapply noNewAlwaysInvalid_trans; eauto.
      * destruct IH as [-> IH]. split; [reflexivity|].
        eapply noNewAlwaysInvalid_trans; eauto.
      * exact Logic.I.
    + exact H.
    + exact Logic.I.
Qed.

(** The walk writes [EscapedNullable] only: the store it reads stays as it
    is. *)
Definition sameStore (A B : ProgramState) : Prop :=
  Bindings A = Bindings B ∧ Unbound A = Unbound B.

Lemma sameStore_refl (A : ProgramState) : sameStore A A.
Proof. split; reflexivity. Qed.

Lemma sameStore_trans (A B C : ProgramState) :
  sameStore A B → sameStore B C → sameStore A C.
Proof. intros [H1 H2] [H3 H4]. split; congruence. Qed.

Lemma sameStore_getSVal (A B : ProgramState) (L : SVal) :
  sameStore A B → getSVal A L = getSVal B L.
Proof. intros [H1 H2]. unfold getSVal. now rewrite H1, H2. Qed.

Lemma sameStore_record (State : ProgramState)
    (g : gmap MemRegion EscapedNullableState → gmap MemRegion EscapedNullableState) :
  sameStore (set_EscapedNullable g State) State.
Proof. split; reflexivity. Qed.

Lemma refreshEscaped_sameStore (State : ProgramState) : sameStore (refreshEscaped State) State.
Proof. rewrite refreshEscaped_frame. apply sameStore_record. Qed.

Lemma levelOf_cases (T Pointee : QualType) :
  levelOf T = Some Pointee →
  T = LValueReferenceType Pointee ∨ ∃ Q, T = PointerType Pointee Q.
Proof. destruct T; simpl; intros [= <-]; eauto. Qed.

Lemma escapesToVolatile_isLoc (State : ProgramState) (T : QualType) (V : SVal) :
  escapesToVolatile State T V → isLoc V = true.
Proof. intros H. destruct H; [reflexivity|assumption]. Qed.

Lemma isLoc_defined (V : SVal) : isLoc V = true → isUndef V = false.
Proof. destruct V; simpl; congruence. Qed.

Lemma escapesToVolatile_sameStore (A B : ProgramState) (T : QualType) (V : SVal) :
  sameStore A B → escapesToVolatile A T V → escapesToVolatile B T V.
Proof.
  intros HS H. induction H as [T Pointee R HT HP Hc Hv HL HU|T Pointee L HT HP HL H IH].
  - apply (escapes_here B T Pointee R); auto.
    now rewrite <- (sameStore_getSVal A B _ HS).
  - apply (escapes_deeper B T Pointee L); auto.
    now rewrite <- (sameStore_getSVal A B _ HS).
Qed.

(** One level of the walk, for a type with the pointee [Pointee]. *)
Lemma escapeLevels_level (T Pointee : QualType) (Val : SVal) (State : ProgramState) :
  levelOf T = Some Pointee →
  escapeLevels T Val State
  = if isPointerType Pointee then
      if negb (isLoc Val) then Aborted else
      if isUndef (getSVal State Val) then Aborted else
      match getLValLocRegion Val with
      | Some R =>
          if negb (isConstQualified Pointee) && isVolatileQualified Pointee
          then Reported BugVolatilePointerEscape State
          else escapeLevels Pointee (getSVal State Val)
                 (set_EscapedNullable
                    <[R := mkEscaped (getNullConstraint (getSVal State Val) State)
                             (if isConstQualified Pointee then AlwaysValid else Valid)]> State)
      | None => escapeLevels Pointee (getSVal State Val) State
      end
    else Continue State.
Proof. intros H. apply levelOf_cases in H as [->|[Q ->]]; reflexivity. Qed.

Lemma escapeLevels_no_level (T : QualType) (Val : SVal) (State : ProgramState) :
  levelOf T = None → escapeLevels T Val State = Continue State.
Proof. destruct T; simpl; intros H; (reflexivity || discriminate H). Qed.

(** The walk keeps the store, whatever it ends in. *)
Lemma escapeLevels_sameStore (T : QualType) :
  ∀ (Val : SVal) (State : ProgramState),
    match escapeLevels T Val State with
    | Continue State' | Reported _ State' => sameStore State' State
    | Aborted => True
    end.
Proof.
  induction T as [K Q|P IH Q|P IH C Q|P IH|P IH|E IH| |D Q]; intros Val State;
    try (simpl; apply sameStore_refl).
  all: rewrite (escapeLevels_level _ P) by reflexivity.
  all: destruct (isPointerType P); [|apply sameStore_refl].
  all: destruct (negb (isLoc Val)); [exact Logic.I|].
  all: destruct (isUndef (getSVal State Val)); [exact Logic.I|].
  all: destruct (getLValLocRegion Val) as [R|]; [|apply IH].
  all: destruct (negb (isConstQualified P) && isVolatileQualified P); [apply sameStore_refl|].
  all: match goal with
       | |- match escapeLevels ?P ?V ?S' with _ => _ end =>
           specialize (IH V S'); destruct (escapeLevels P V S'); auto;
           (eapply sameStore_trans; [exact IH|apply sameStore_record])
       end.
Qed.

(** A level whose pointee is a non-const volatile pointer, reached through
    the location of an lvalue, at any depth: the walk reports. *)
Lemma escapeLevels_reports (State : ProgramState) (T : QualType) (V : SVal) :
  escapesToVolatile State T V →
  ∀ St, sameStore St State →
        ∃ St', escapeLevels T V St = Reported BugVolatilePointerEscape St'.
Proof.
  induction 1 as [T Pointee R HT HP Hc Hv HL HU|T Pointee L HT HP HL H IH]; intros St HS.
  - rewrite (escapeLevels_level _ _ _ _ HT), HP. cbn [isLoc negb].
    rewrite (sameStore_getSVal _ _ _ HS), HU.
    apply bool_decide_eq_true in HL as [R' HR']. rewrite HR', Hc, Hv. eauto.
  - rewrite (escapeLevels_level _ _ _ _ HT), HP, HL. cbn [negb].
    rewrite (sameStore_getSVal _ _ _ HS).
    rewrite (isLoc_defined _ (escapesToVolatile_isLoc _ _ _ H)).
    destruct (getLValLocRegion L) as [R|]; [|now apply IH].
    destruct (negb (isConstQualified Pointee) && isVolatileQualified Pointee); [eauto|].
    apply IH. eapply sameStore_trans; [apply sameStore_record|exact HS].
Qed.

(** And the walk reports nowhere else. *)
Lemma escapeLevels_reported (T : QualType) :
  ∀ (Val : SVal) (State State' : ProgramState) (BT : BugType),
    escapeLevels T Val State = Reported BT State' → escapesToVolatile State T Val.
Proof.
  induction T as [K Q|P IH Q|P IH C Q|P IH|P IH|E IH| |D Q]; intros Val State State' BT;
    try (simpl; discriminate).
  all: rewrite (escapeLevels_level _ P) by reflexivity.
  all: destruct (isPointerType P) eqn:HP; [|discriminate].
  all: destruct (isLoc Val) eqn:HL; cbn [negb]; [|discriminate].
  all: destruct (isUndef (getSVal State Val)) eqn:HU; [discriminate|].
  all: destruct (getLValLocRegion Val) as [R|] eqn:HR.
  all: try (intros H; eapply escapes_deeper; [reflexivity|exact HP|exact HL|];
            eapply IH; exact H).
  all: destruct (isConstQualified P) eqn:Hc, (isVolatileQualified P) eqn:Hv; cbn [negb andb].
  all: try (intros H; eapply escapes_deeper; [reflexivity|exact HP|exact HL|];
            eapply (escapesToVolatile_sameStore _ State); [apply sameStore_record|];
            eapply IH; exact H).
  all: intros _; destruct Val; try discriminate HR;
    eapply escapes_here; try reflexivity; try assumption;
    apply bool_decide_eq_true; rewrite HR; eauto.
Qed.

Lemma escapeArgument_levels (Ctx : ASTContext) (Param : ParmVarDecl) (ArgSVal : SVal)
    (State : ProgramState) :
  escapeArgument Ctx Param ArgSVal State
  = escapeLevels (argumentLevels Ctx State Param ArgSVal).1
      (argumentLevels Ctx State Param ArgSVal).2 State.
Proof.
  unfold escapeArgument, argumentLevels.
  destruct (isNonNullableType Ctx (ParmType Param)); [|reflexivity].
  destruct (getNonNullableField Ctx (ParmType Param)); destruct ArgSVal; reflexivity.
Qed.

Lemma argumentLevels_sameStore (Ctx : ASTContext) (A B : ProgramState) (Param : ParmVarDecl)
    (ArgSVal : SVal) :
  sameStore A B → argumentLevels Ctx A Param ArgSVal = argumentLevels Ctx B Param ArgSVal.
Proof.
  intros HS. unfold argumentLevels.
  destruct (isNonNullableType Ctx (ParmType Param)); [|reflexivity].
  destruct (getNonNullableField Ctx (ParmType Param)); destruct ArgSVal; try reflexivity.
  now rewrite (sameStore_getSVal A B _ HS).
Qed.

Lemma escapeArguments_sameStore (Ctx : ASTContext) (Args : list SVal) :
  ∀ (Params : list ParmVarDecl) (State : ProgramState),
    match escapeArguments Ctx Params Args State with
    | Continue State' | Reported _ State' => sameStore State' State
    | Aborted => True
    end.
Proof.
  induction Args as [|ArgSVal Args IH]; intros Params State; simpl.
  - apply sameStore_refl.
  - destruct Params as [|Param Params]; [exact Logic.I|].
    rewrite escapeArgument_levels.
    pose proof (escapeLevels_sameStore (argumentLevels Ctx State Param ArgSVal).1
                  (argumentLevels Ctx State Param ArgSVal).2 State) as H.
    destruct (escapeLevels _ _ State) as [State1|BT State1|]; auto.
    specialize (IH Params State1).
    destruct (escapeArguments Ctx Params Args State1); auto;
      (eapply sameStore_trans; eauto).
Qed.

(** The walk over the arguments reports exactly when some argument escapes
    to volatile storage, unless it is undefined. *)
Lemma escapeArguments_reports (Ctx : ASTContext) (State : ProgramState) (Args : list SVal) :
  ∀ (Params : list ParmVarDecl) (St : ProgramState),
    sameStore St State →
    match escapeArguments Ctx Params Args St with
    | Continue _ => ¬ argumentEscapesToVolatile Ctx State Params Args
    | Reported BT _ =>
        BT = BugVolatilePointerEscape ∧ argumentEscapesToVolatile Ctx State Params Args
    | Aborted => True
    end.
Proof.
  unfold argumentEscapesToVolatile.
  induction Args as [|ArgSVal Args IH]; intros Params St HS; simpl.
  - intros (I & Param & A & _ & HA & _). destruct I; discriminate HA.
  - destruct Params as [|Param Params]; [exact Logic.I|].
    rewrite escapeArgument_levels, (argumentLevels_sameStore Ctx St State _ _ HS).
    pose proof (escapeLevels_sameStore (argumentLevels Ctx State Param ArgSVal).1
                  (argumentLevels Ctx State Param ArgSVal).2 St) as Hstore.
    pose proof (escapeLevels_outcome (argumentLevels Ctx State Param ArgSVal).1
                  (argumentLevels Ctx State Param ArgSVal).2 St) as Hout.
    destruct (escapeLevels _ _ St) as [State1|BT State1|] eqn:Hlev.
    + assert (HS1 : sameStore State1 State) by (eapply sameStore_trans; eauto).
      assert (Hhead : ¬ escapesToVolatile State (argumentLevels Ctx State Param ArgSVal).1
                          (argumentLevels Ctx State Param ArgSVal).2).
      { intros He. destruct (escapeLevels_reports _ _ _ He St HS) as [St' HSt'].
        congruence. }
      specialize (IH Params State1 HS1).
      destruct (escapeArguments Ctx Params Args State1) as [State2|BT State2|].
      * intros (I & P & A & HP & HA & He). destruct I as [|I]; simpl in HP, HA.
        -- injection HP as <-. injection HA as <-. contradiction.
        -- apply IH. eauto 6.
      * destruct IH as [-> (I & P & A & HP & HA & He)]. split; [reflexivity|].
        exists (S I), P, A. auto.
      * exact Logic.I.
    + destruct Hout as [-> _]. split; [reflexivity|].
      exists 0%nat, Param, ArgSVal. repeat split.
      eapply (escapesToVolatile_sameStore St State); [exact HS|].
      eapply escapeLevels_reported. exact Hlev.
    + exact Logic.I.
Qed.

(** A call [f(&p)] where [f] takes an [int * volatile *]. *)
Definition volatilePtrPtrTy : QualType :=
  PointerType (PointerType intTy (mkQuals false true)) NoQuals.

Definition volatileCall : CallEvent :=
  mkCall (Some (OtherExpr (BuiltinType BK_Void NoQuals)))
    (Some (FunctionD (mkFunction "take_volatile" OO_None [mkParm volatilePtrPtrTy]
                        EST_None false)))
    [mkParm volatilePtrPtrTy] [loc_MemRegionVal var_p] UnknownVal.

Example volatileCall_outcome :
  checkPreCall_escapes true anyContext volatileCall (emptyState U0)
  = Some (mkOutcome [BugVolatilePointerEscape] [] true).
Proof. reflexivity. Qed.


(** An argument that escapes is reported wherever it stands in the list,
    as long as the walk over the arguments before it is defined. *)
Lemma escapeArguments_forced (Ctx : ASTContext) (State : ProgramState) (Args : list SVal) :
  ∀ (Params : list ParmVarDecl) (St : ProgramState) (I : nat) (Param : ParmVarDecl)
    (ArgSVal : SVal),
    sameStore St State →
    Params !! I = Some Param → Args !! I = Some ArgSVal →
    escapesToVolatile State (argumentLevels Ctx State Param ArgSVal).1
      (argumentLevels Ctx State Param ArgSVal).2 →
    escapeArguments Ctx (take I Params) (take I Args) St ≠ Aborted →
    ∃ St', escapeArguments Ctx Params Args St = Reported BugVolatilePointerEscape St'.
Proof.
  induction Args as [|A Args IH]; intros Params St I Param ArgSVal HS HP HA He Hpre.
  - destruct I; discriminate HA.
  - destruct Params as [|P Params]; [destruct I; discriminate HP|].
    destruct I as [|I]; simpl in HP, HA.
    + injection HP as ->. injection HA as ->. simpl.
      rewrite escapeArgument_levels, (argumentLevels_sameStore Ctx St State _ _ HS).
      destruct (escapeLevels_reports _ _ _ He St HS) as [St' ->]. eauto.
    + simpl in Hpre |- *.
      pose proof (escapeArgument_outcome Ctx P A St) as Hout.
      assert (Hstore : match escapeArgument Ctx P A St with
                       | Continue State' | Reported _ State' => sameStore State' St
                       | Aborted => True
                       end).
      { rewrite escapeArgument_levels. apply escapeLevels_sameStore. }
      destruct (escapeArgument Ctx P A St) as [St1|BT St1|].
      * apply (IH Params St1 I Param ArgSVal); auto.
        eapply sameStore_trans; eauto.
      * destruct Hout as [-> _]. eauto.
      * contradiction.
Qed.


(** A call [g(n, &pp)]: the second parameter is an [int * volatile * *], and
    [pp] holds the address of the pointer [p].  The escape is at the second
    argument and the second level. *)
Definition var_pp : MemRegion := NonParamVarRegion (mkVar 2%positive volatilePtrPtrTy).

Definition deepVolatileCall : CallEvent :=
  mkCall (Some (OtherExpr (BuiltinType BK_Void NoQuals)))
    (Some (FunctionD (mkFunction "take_deep_volatile" OO_None
                        [mkParm intTy; mkParm (PointerType volatilePtrPtrTy NoQuals)]
                        EST_None false)))
    [mkParm intTy; mkParm (PointerType volatilePtrPtrTy NoQuals)]
    [nonloc_ConcreteInt 3; loc_MemRegionVal var_pp] UnknownVal.

Definition deepState : ProgramState :=
  bindLoc (emptyState U0) (loc_MemRegionVal var_pp) (loc_MemRegionVal var_p).

Example deepVolatileCall_escapes :
  argumentEscapesToVolatile anyContext deepState (CallParameters deepVolatileCall)
    (ArgSVals deepVolatileCall).
Proof.
  exists 1%nat, (mkParm (PointerType volatilePtrPtrTy NoQuals)), (loc_MemRegionVal var_pp).
  split; [reflexivity|]. split; [reflexivity|].
  eapply escapes_deeper; [reflexivity|reflexivity|reflexivity|].
  eapply escapes_here; reflexivity.
Qed.

Example deepVolatileCall_outcome :
  checkPreCall_escapes true anyContext deepVolatileCall deepState
  = Some (mkOutcome [BugVolatilePointerEscape] [] true).
Proof. reflexivity. Qed.

(** A pointer to a const pointer records an [AlwaysValid] escape; a pointer
    to a plain pointer a [Valid] one. *)
Example const_escape_is_always_valid :
  (fun O => (fun St => EscapedNullable St !! var_p) <$> Transitions O)
    <$> checkPreCall_escapes true anyContext
          (mkCall (Some (OtherExpr (BuiltinType BK_Void NoQuals))) (Some (FunctionD opaqueCallee))
             [mkParm (PointerType (PointerType intTy (mkQuals true false)) NoQuals)]
             [loc_MemRegionVal var_p] UnknownVal)
          (emptyState U0)
  = Some [Some (mkEscaped Unknown AlwaysValid)].
Proof. vm_compute. reflexivity. Qed.

Example plain_escape_is_valid :
  (fun O => (fun St => EscapedNullable St !! var_p) <$> Transitions O)
    <$> checkPreCall_escapes true anyContext
          (mkCall (Some (OtherExpr (BuiltinType BK_Void NoQuals))) (Some (FunctionD opaqueCallee))
             [mkParm (PointerType intPtrTy NoQuals)]
             [loc_MemRegionVal var_p] UnknownVal)
          (emptyState U0)
  = Some [Some (mkEscaped Unknown Valid)].
Proof. vm_compute. reflexivity. Qed.

(** The load hook consumes an [AlwaysInvalid] record without changing it. *)
Lemma checkLocation_escaped_noNewAlwaysInvalid (L : SVal) (RhsNullness : NullConstraint)
    (NewVal : SVal) (State : ProgramState) :
  noNewAlwaysInvalid State (checkLocation_escaped L RhsNullness NewVal State).
Proof.
  unfold checkLocation_escaped.
  destruct (getAsRegion L) as [R|] eqn:HL; [|apply noNewAlwaysInvalid_refl].
  destruct L; try discriminate HL. injection HL as ->.
  destruct (EscapedNullable State !! R) as [Rec|] eqn:HR; [|apply noNewAlwaysInvalid_refl].
  intros R' Rec' HR' Hv.
  destruct (bool_decide (Validity Rec = Invalid) && bool_decide (RhsNullness ≠ Unknown));
    destruct (bool_decide (Validity Rec = AlwaysInvalid)); simpl in HR';
    try (destruct (decide (R = R')) as [->|Hne];
         [rewrite lookup_insert_eq in HR'; injection HR' as <-; discriminate Hv
         |rewrite lookup_insert_ne in HR' by assumption]); eauto.
Qed.

(** Neither does the escape through a compound value, nor the call itself,
    produce an [AlwaysInvalid] record. *)
Lemma recordPointerEscapes_noNewAlwaysInvalid (T : QualType) :
  ∀ (V : SVal) (State State' : ProgramState),
    recordPointerEscapes V T State = Some State' → noNewAlwaysInvalid State State'.
Proof.
  assert (Hstep : ∀ Pointee : QualType,
             (∀ V State State',
                 recordPointerEscapes V Pointee State = Some State' →
                 noNewAlwaysInvalid State State') →
             ∀ V State State',
               (if isPointerType Pointee then
                  if negb (isLoc V) then None else
                  if isUndef (getSVal State V) then None else
                  recordPointerEscapes (getSVal State V) Pointee
                    match getLValLocRegion V with
                    | Some R =>
                        set_EscapedNullable
                          <[R := mkEscaped (getNullConstraint (getSVal State V) State)
                                   (if isConstQualified Pointee then AlwaysValid else Valid)]>
                          State
                    | None => State
                    end
                else Some State) = Some State' →
               noNewAlwaysInvalid State State').
  { intros Pointee IH V State State'.
    destruct (isPointerType Pointee); [|intros [= <-]; apply noNewAlwaysInvalid_refl].
    destruct (negb (isLoc V)); [discriminate|].
    destruct (isUndef (getSVal State V)); [discriminate|].
    intros H. apply IH in H.
    destruct (getLValLocRegion V) as [R|]; [|exact H].
    eapply noNewAlwaysInvalid_trans; [apply noNewAlwaysInvalid_record|exact H]. }
  induction T as [K Q|P IH Q|P IH C Q|P IH|P IH|E IH| |D Q]; intros V State State';
    try (intros [= <-]; apply noNewAlwaysInvalid_refl).
  - apply (Hstep P IH).
  - apply (Hstep P IH).
Qed.

Lemma invalidateEscaped_noNewAlwaysInvalid (State : ProgramState) :
  noNewAlwaysInvalid State (invalidateEscaped State).
Proof.
  intros R Rec HR Hv. rewrite invalidateEscaped_lookup in HR.
  destruct (EscapedNullable State !! R) as [Rec0|]; [|discriminate HR].
  simpl in HR. injection HR as <-. exists Rec0. split; [reflexivity|].
  unfold invalidateRecord in Hv.
  destruct (bool_decide (Validity Rec0 = Valid) && bool_decide (Constraint Rec0 ≠ Unknown));
    [discriminate Hv|exact Hv].
Qed.

(** ** Calls exempt from the escape analysis *)

Example allow_listed_callees :
  List.map (fun Name => ignoreEscapeAnalysis_decl (mkFunction Name OO_None [] EST_None false))
    ["gsl::make_not_null"; "std::forward"; "std::move"; "gsl::not_null::get";
     "std::addressof"; "some_opaque_call"]
  = [true; true; true; true; false; false].
Proof. reflexivity. Qed.

End CheckerFacts.

(* ===================================================================== *)
(** * The alias graph                                                     *)
(* ===================================================================== *)

Module AliasFacts.
Import AST Core dno Spec.
Import CheckerFacts.

Local Open Scope N_scope.

(** ** The alias operations leave the constraints alone *)

Lemma setAliasLoop_constraints (LK : NullableObjectStateKey) (Break : bool)
    (Range : list NullableObjectStateKey) :
  ∀ (Pending Visited : list NullableObjectStateKey) (State : ProgramState),
    DNOConstraintMap (setAliasLoop LK Break Range Pending Visited State)
    = DNOConstraintMap State.
Proof.
  induction Range as [|It Range IH]; intros Pending Visited State; simpl; [reflexivity|].
  destruct (It =? LK); [apply IH|].
  destruct (ImmutableSet.contains Visited It); [apply IH|].
  destruct (DNOAliasMap State !! It) as [Aliases|].
  - rewrite IH. reflexivity.
  - destruct Break; rewrite IH; reflexivity.
Qed.

Lemma setAliasInternal_constraints (State : ProgramState) (LK RK : NullableObjectStateKey)
    (Break : bool) :
  DNOConstraintMap (setAliasInternal State LK RK Break) = DNOConstraintMap State.
Proof.
  unfold setAliasInternal.
  destruct (DNOAliasMap State !! LK) as [Aliases|].
  - apply setAliasLoop_constraints.
  - destruct Break; [reflexivity|].
    match goal with
    | |- context [DNOAliasMap ?S1 !! LK] => destruct (DNOAliasMap S1 !! LK)
    end; [rewrite setAliasLoop_constraints|]; reflexivity.
Qed.

Lemma addAlias_constraints (State : ProgramState) (LK RK : NullableObjectStateKey) :
  DNOConstraintMap (addAlias State LK RK) = DNOConstraintMap State.
Proof. unfold addAlias. now rewrite !setAliasInternal_constraints. Qed.

Lemma breakAlias_constraints (State : ProgramState) (LK RK : NullableObjectStateKey) :
  DNOConstraintMap (breakAlias State LK RK) = DNOConstraintMap State.
Proof. unfold breakAlias. now rewrite !setAliasInternal_constraints. Qed.

Lemma breakAliases_constraints (State : ProgramState) (LK : NullableObjectStateKey) :
  DNOConstraintMap (breakAliases State LK) = DNOConstraintMap State.
Proof.
  unfold breakAliases. destruct (DNOAliasMap State !! LK) as [Aliases|]; [|reflexivity].
  revert State. induction Aliases as [|K Aliases IH]; intros State; simpl; [reflexivity|].
  rewrite IH. apply breakAlias_constraints.
Qed.

(** ** What the loops write *)

Lemma DNOAliasMap_set
    (f : gmap NullableObjectStateKey DNOAliasSet → gmap NullableObjectStateKey DNOAliasSet)
    (State : ProgramState) :
  DNOAliasMap (set_DNOAliasMap f State) = f (DNOAliasMap State).
Proof. reflexivity. Qed.

(** The loop of [setAliasInternal] never writes the alias set of [LK]
    itself. *)
Lemma setAliasLoop_own_set (LK : NullableObjectStateKey) (Break : bool)
    (Range : list NullableObjectStateKey) :
  ∀ (Pending Visited : list NullableObjectStateKey) (State : ProgramState),
    DNOAliasMap (setAliasLoop LK Break Range Pending Visited State) !! LK
    = DNOAliasMap State !! LK.
Proof.
  induction Range as [|It Range IH]; intros Pending Visited State; simpl; [reflexivity|].
  destruct (N.eqb_spec It LK) as [->|Hne]; [apply IH|].
  destruct (ImmutableSet.contains Visited It); [apply IH|].
  destruct (DNOAliasMap State !! It) as [Aliases|].
  - rewrite IH, DNOAliasMap_set. now apply lookup_insert_ne.
  - destruct Break; rewrite IH; [reflexivity|].
    rewrite DNOAliasMap_set. now apply lookup_insert_ne.
Qed.

(** Hence [setAliasInternal(State, LK, RK, true)] keeps [RK] in the alias set
    of [LK]. *)
Lemma setAliasInternal_break_own_set (State : ProgramState) (LK RK : NullableObjectStateKey) :
  DNOAliasMap (setAliasInternal State LK RK true) !! LK = DNOAliasMap State !! LK.
Proof.
  unfold setAliasInternal.
  destruct (DNOAliasMap State !! LK) as [Aliases|] eqn:H; [|exact H].
  rewrite setAliasLoop_own_set. exact H.
Qed.

(** [updateConstraint(State, Aliases, C)] writes the constraint of the keys
    of [Aliases], and of no other key. *)
Lemma updateConstraintLoop_lookup (C : NullConstraint) (Range : list NullableObjectStateKey) :
  ∀ (Pending : list NullableObjectStateKey) (State : ProgramState) (K : NullableObjectStateKey),
    DNOConstraintMap (updateConstraintLoop C Range Pending State) !! K
    = if bool_decide (K ∈ Range) then Some C else DNOConstraintMap State !! K.
Proof.
  induction Range as [|It Range IH]; intros Pending State K; cbn [updateConstraintLoop].
  - rewrite bool_decide_eq_false_2; [reflexivity|]. apply not_elem_of_nil.
  - rewrite IH. unfold set_DNOConstraintMap. cbn [DNOConstraintMap].
    destruct (decide (K ∈ Range)) as [Hin|Hnin].
    + rewrite !bool_decide_eq_true_2; auto. apply elem_of_cons; now right.
    + rewrite (bool_decide_eq_false_2 (K ∈ Range)) by assumption.
      destruct (decide (K = It)) as [->|Hne].
      * rewrite bool_decide_eq_true_2 by (apply elem_of_cons; now left).
        apply lookup_insert_eq.
      * rewrite bool_decide_eq_false_2.
        -- now apply lookup_insert_ne.
        -- intros Hin. apply elem_of_cons in Hin as [?|?]; contradiction.
Qed.

(** ** Breaking an alias *)

(** Two nullable objects [a = 1] and [b = 2] with constraints [Unknown] and
    [IsNull], aliased, after which the aliases of [a] are broken. *)
Definition twoObjects : ProgramState :=
  createConstraint (createConstraint (emptyState U0) 1 Unknown) 2 IsNull.

Definition brokenPair : ProgramState := breakAliases (addAlias twoObjects 1 2) 1.

Example addAlias_links_both_ways :
  DNOAliasMap (addAlias twoObjects 1 2) !! 1 = Some [2]
  ∧ DNOAliasMap (addAlias twoObjects 1 2) !! 2 = Some [1].
Proof. split; reflexivity. Qed.

(** C7: breaking the aliases of [a] keeps every recorded constraint, but on
    the pair [a = 1], [b = 2] it removes [a] from the alias set of [b] only:
    [b] stays in the alias set of [a], the two keys are still aliased, and a
    later constraint update on [a] overwrites the constraint of [b]. *)
Theorem C7_break_alias_keeps_edge :
  (∀ State a b, DNOConstraintMap (breakAliases (addAlias State a b) a) = DNOConstraintMap State)
  ∧ DNOAliasMap brokenPair !! 1 = Some [2]
  ∧ DNOAliasMap brokenPair !! 2 = Some []
  ∧ aliased brokenPair 1 2 = true
  ∧ DNOConstraintMap brokenPair !! 2 = Some IsNull
  ∧ (fun St => DNOConstraintMap St !! 2) <$> updateConstraint brokenPair 1 IsNotNull
    = Some (Some IsNotNull).
Proof.
  split.
  - intros State a b. now rewrite breakAliases_constraints, addAlias_constraints.
  - repeat split; vm_compute; reflexivity.
Qed.

(** ** Updating a constraint *)

(** Three nullable objects: [b = 2] is created, [a = 1] is made an alias of
    [b], and [c = 3] an alias of [a]. *)
Definition threeObjects : ProgramState :=
  alias (alias (createConstraint (emptyState U0) 2 Unknown) 1 2) 3 1.

Example threeObjects_aliases :
  DNOAliasMap threeObjects !! 1 = Some [2; 3]
  ∧ DNOAliasMap threeObjects !! 2 = Some [1]
  ∧ DNOAliasMap threeObjects !! 3 = Some [1].
Proof. repeat split; reflexivity. Qed.

Lemma threeObjects_reachable : reachable U0 threeObjects.
Proof. repeat constructor. Qed.

(** C2: the state reached from [threeObjects] by updating the constraint of
    [b] has [b] and [c] in one alias class with different constraints: the
    update reaches [a], the direct alias of [b], and stops there. *)
Theorem C2_update_stops_at_direct_aliases :
  ∃ State',
    updateConstraint threeObjects 2 IsNotNull = Some State'
    ∧ reachable U0 State'
    ∧ sameAliasClass State' 2 3
    ∧ DNOConstraintMap State' !! 2 = Some IsNotNull
    ∧ DNOConstraintMap State' !! 1 = Some IsNotNull
    ∧ DNOConstraintMap State' !! 3 = Some Unknown
    ∧ ¬ spec_classConstraints State'.
Proof.
  destruct (updateConstraint threeObjects 2 IsNotNull) as [State'|] eqn:HU;
    [|vm_compute in HU; discriminate HU].
  exists State'.
  assert (Hlook : DNOConstraintMap State' !! 2 = Some IsNotNull
                  ∧ DNOConstraintMap State' !! 1 = Some IsNotNull
                  ∧ DNOConstraintMap State' !! 3 = Some Unknown
                  ∧ aliased State' 2 1 = true ∧ aliased State' 1 3 = true).
  { vm_compute in HU. injection HU as <-. repeat split; vm_compute; reflexivity. }
  destruct Hlook as (H2 & H1 & H3 & A21 & A13).
  assert (Hclass : sameAliasClass State' 2 3).
  { eapply sameAliasClass_step; [exact A21|].
    eapply sameAliasClass_step; [exact A13|]. apply sameAliasClass_refl. }
  repeat split; auto.
  - eapply reachable_update; [apply threeObjects_reachable|exact HU].
  - intros Hspec. specialize (Hspec 2 3 Hclass).
    discriminate (eq_trans (eq_sym H2) (eq_trans Hspec H3)).
Qed.

End AliasFacts.

(* ===================================================================== *)
(** * Types, call predicates and keys                                      *)
(* ===================================================================== *)

Module TypeFacts.
Import AST Core Classifier Spec.

(** ** The allow-list *)

Lemma prefix_append (p s : string) :
  String.prefix p s = true ↔ ∃ Suffix, s = String.append p Suffix.
Proof.
  revert s; induction p as [|a p IH]; intros s; simpl.
  - split; [intros _; exists s; reflexivity | destruct s; reflexivity].
  - destruct s as [|b s].
    + split; [discriminate | intros [t Ht]; discriminate].
    + simpl. destruct (Ascii.ascii_dec a b) as [->|Hne].
      * split.
        -- intros H. apply IH in H as [t Ht]. exists t. now rewrite Ht.
        -- intros [t Ht]. apply IH. exists t. now injection Ht.
      * split; [discriminate | intros [t Ht]; injection Ht as Hab _; congruence].
Qed.

(** X1: The functions the analysis is carried into ([isInterProcedural]) are
    exactly the functions exempt from the escape analysis
    ([ignoreEscapeAnalysis]), for declarations and for call events: the
    functions named [gsl::make_not_null], [std::forward] or [std::move], and
    every function whose qualified name starts with [gsl::not_null]. *)
Theorem allow_lists_coincide (FD : FunctionDecl) (CE : CallEvent) :
  isInterProcedural FD = ignoreEscapeAnalysis_decl FD
  ∧ isInterProcedural_call CE = ignoreEscapeAnalysis CE
  ∧ (ignoreEscapeAnalysis_decl FD = true
     ↔ FunctionName FD = "gsl::make_not_null" ∨ FunctionName FD = "std::forward"
       ∨ FunctionName FD = "std::move"
       ∨ ∃ Suffix, FunctionName FD = String.append "gsl::not_null" Suffix).
Proof.
  assert (Hsame : ∀ G, isInterProcedural G = ignoreEscapeAnalysis_decl G).
  { intros G. unfold isInterProcedural, ignoreEscapeAnalysis_decl.
    destruct (String.eqb (FunctionName G) MakeNotNullQualifiedName); [reflexivity|].
    destruct (String.prefix NotNullPtrQualifiedName (FunctionName G)),
      (String.eqb (FunctionName G) StdForwardQualifiedName),
      (String.eqb (FunctionName G) StdMoveQualifiedName); reflexivity. }
  split; [apply Hsame|]. split.
  - unfold isInterProcedural_call, ignoreEscapeAnalysis.
    destruct (CalleeDecl CE) as [[G|]|]; auto.
  - unfold ignoreEscapeAnalysis_decl, MakeNotNullQualifiedName, StdForwardQualifiedName,
      StdMoveQualifiedName, NotNullPtrQualifiedName.
    destruct (String.eqb_spec (FunctionName FD) "gsl::make_not_null") as [->|H1];
      [split; auto|].
    destruct (String.eqb_spec (FunctionName FD) "std::forward") as [->|H2];
      [split; auto|].
    destruct (String.eqb_spec (FunctionName FD) "std::move") as [->|H3];
      [split; auto|].
    destruct (String.prefix "gsl::not_null" (FunctionName FD)) eqn:Hp.
    + split; [intros _|reflexivity]. do 3 right. now apply prefix_append.
    + split; [discriminate|]. intros [?|[?|[?|Hs]]]; try contradiction.
      apply prefix_append in Hs. congruence.
Qed.

(** ** The wrapper behind references and qualifiers *)

(** The record behind a type is looked up through one level of reference and
    through the cv-qualifiers. *)
Lemma getCXXRecordFromType_reference (T : QualType) :
  isReferenceType T = false →
  getCXXRecordFromType (LValueReferenceType T) = getCXXRecordFromType T
  ∧ getCXXRecordFromType (RValueReferenceType T) = getCXXRecordFromType T.
Proof. destruct T; intros H; try discriminate H; split; reflexivity. Qed.

(** X2: A type is recognised as the non-nullable wrapper, and its [ptr_] member
    is found, whether it is written plainly, behind an lvalue or rvalue
    reference, or with any cv-qualifiers; a pointer to a wrapper, an array of
    wrappers, a builtin type and a function type are never the wrapper. *)
Theorem wrapper_seen_through_reference_and_qualifiers (Ctx : ASTContext) (T : QualType) :
  isReferenceType T = false →
  (isNonNullableType Ctx (LValueReferenceType T) = isNonNullableType Ctx T
   ∧ isNonNullableType Ctx (RValueReferenceType T) = isNonNullableType Ctx T
   ∧ getNonNullableField Ctx (LValueReferenceType T) = getNonNullableField Ctx T
   ∧ getNonNullableField Ctx (RValueReferenceType T) = getNonNullableField Ctx T)
  ∧ (∀ D Q, T = RecordType D Q →
            isNonNullableType Ctx T = isNonNullableType Ctx (RecordType D NoQuals))
  ∧ (isNonNullableType Ctx T = true → ∃ D Q, T = RecordType D Q).
Proof.
  intros H. split; [|split].
  - unfold isNonNullableType, getNonNullableField.
    destruct (getCXXRecordFromType_reference T H) as [-> ->]. auto.
  - intros D Q ->. reflexivity.
  - destruct T; try discriminate H; try discriminate; eauto.
Qed.

Lemma wrapper_seen_through_reference_and_qualifiers_witness :
  (isNonNullableType (mkAST (fun _ => ClassifierFacts.emptyNotNull))
     (LValueReferenceType (RecordType 1%positive (mkQuals true false)))
   = isNonNullableType (mkAST (fun _ => ClassifierFacts.emptyNotNull))
       (RecordType 1%positive (mkQuals true false)))
  ∧ isNonNullableType (mkAST (fun _ => ClassifierFacts.emptyNotNull))
      (RecordType 1%positive (mkQuals true false)) = true.
Proof.
  split.
  - exact (proj1 (proj1 (wrapper_seen_through_reference_and_qualifiers
                           (mkAST (fun _ => ClassifierFacts.emptyNotNull))
                           (RecordType 1%positive (mkQuals true false)) eq_refl))).
  - reflexivity.
Defined.

(** ** What a nullable object needs *)

Lemma any_of_true_witness {A} (P : A → option bool) (l : list A) :
  any_of P l = Some true → ∃ x, In x l ∧ P x = Some true.
Proof.
  induction l as [|x l IH]; simpl; [discriminate|].
  destruct (P x) as [[|]|] eqn:Hx; try discriminate.
  - intros _. exists x. auto.
  - intros H. destruct (IH H) as (y & Hy & HP). exists y. auto.
Qed.

Lemma friendTest_true (Op : OverloadedOperatorKind) (R : CXXRecordDecl) (Fr : FriendDecl) :
  friendTest Op R Fr = Some true →
  ∃ F P0 P1 Rest, Fr = FriendFunction F ∧ parameters F = P0 :: P1 :: Rest
                  ∧ friendOperands R (ParmType P0) (ParmType P1) = true
                  ∧ (isOverloadedOperator F = true → OverloadedOperator F ≠ Op).
Proof.
  destruct Fr as [|F|]; simpl; try discriminate.
  destruct (isOverloadedOperator F && OverloadedOperatorKind_eqb (OverloadedOperator F) Op)
    eqn:Hop; [discriminate|].
  destruct (parameters F) as [|P0 [|P1 Rest]] eqn:HP; try discriminate.
  intros [= Ht]. exists F, P0, P1, Rest. repeat split; auto.
  intros Hov Heq. rewrite Hov, Heq in Hop. destruct Op; discriminate Hop.
Qed.

(** X3: Whatever its friend declarations are, a class is classified as a nullable
    object only if it has a public default constructor, a public or implicit
    copy constructor, a public converting constructor from the null literal
    and a conversion to [bool], and only if it declares as friends a function
    other than [operator==] and a function other than [operator!=], each with
    at least two parameters whose first two are the class itself on both
    sides or the class with the null literal: a class without friend
    functions is never a nullable object. *)
Theorem nullable_object_needs (R : CXXRecordDecl) :
  isNullableObject R = Some true →
  hasPublicDefaultCtor R ∧ hasPublicCopyCtor R
  ∧ hasNullPtrConversionCtor R ∧ hasBoolConversion R
  ∧ (∀ Op, Op = OO_EqualEqual ∨ Op = OO_ExclaimEqual →
           ∃ F P0 P1 Rest,
             In (FriendFunction F) (friends R) ∧ parameters F = P0 :: P1 :: Rest
             ∧ friendOperands R (ParmType P0) (ParmType P1) = true
             ∧ (isOverloadedOperator F = true → OverloadedOperator F ≠ Op))
  ∧ friends R ≠ [].
Proof.
  unfold isNullableObject. intros H.
  destruct (existsb _ (ctors R)) eqn:H1 in H; [|discriminate H]. simpl in H.
  destruct (negb (existsb (fun Ctor => isCopyConstructor Ctor && _) (ctors R)) && _) eqn:H2 in H;
    [discriminate H|].
  destruct (negb (existsb (fun Ctor => isCopyAssignmentOperator Ctor && _) (ctors R)) && _)
    eqn:H3 in H; [discriminate H|].
  destruct (existsb (fun Ctor => isConvertingConstructor Ctor && _ && _) (ctors R)) eqn:H4 in H;
    [|discriminate H]. simpl in H.
  destruct (existsb _ (VisibleConversionFunctions R)) eqn:H5 in H; [|discriminate H].
  simpl in H.
  destruct (any_of (friendTest OO_EqualEqual R) (friends R)) as [[|]|] eqn:H6;
    try discriminate H.
  destruct (any_of (friendTest OO_ExclaimEqual R) (friends R)) as [[|]|] eqn:H7;
    try discriminate H.
  split; [now apply ClassifierFacts.HasDefaultCtor_iff|].
  split; [now apply ClassifierFacts.HasCopyCtor_iff|].
  split; [now apply ClassifierFacts.HasNullPtrConversionCtor_iff|].
  split; [now apply ClassifierFacts.HasBoolConversion_iff|].
  split.
  - intros Op [->| ->]; [apply any_of_true_witness in H6 as (Fr & Hin & Ht)
                        |apply any_of_true_witness in H7 as (Fr & Hin & Ht)];
      apply friendTest_true in Ht as (F & P0 & P1 & Rest & -> & HP & Hops & Hne);
      exists F, P0, P1, Rest; auto.
  - intros Hnil. rewrite Hnil in H6. discriminate H6.
Qed.

Lemma nullable_object_needs_witness :
  hasPublicDefaultCtor ClassifierFacts.NullableScalar
  ∧ friends ClassifierFacts.NullableScalar ≠ [].
Proof.
  pose proof (nullable_object_needs ClassifierFacts.NullableScalar eq_refl) as H.
  split; [exact (proj1 H) | exact (proj2 (proj2 (proj2 (proj2 (proj2 H)))))].
Defined.

(** ** The rank of a location type *)

(** The number of pointer, member-pointer and lvalue-reference levels at the
    head of a type. *)
Fixpoint locLevels (T : QualType) : nat :=
  match T with
  | PointerType Pointee _ | MemberPointerType Pointee _ _ | LValueReferenceType Pointee =>
      S (locLevels Pointee)
  | _ => 0%nat
  end.

Lemma locLevels_not_loc (T : QualType) : isLocType T = false → locLevels T = 0%nat.
Proof. destruct T; simpl; intros H; try discriminate H; reflexivity. Qed.

Lemma getLocTypeRank_loop_levels (T : QualType) :
  ∀ R, isLocType T = true → getLocTypeRank_loop T R = (R + locLevels T)%nat.
Proof.
  induction T as [| P IH ? | P IH ? ? | P IH | | | |]; intros R H; try discriminate H;
    simpl; (destruct (isLocType P) eqn:HP;
            [rewrite IH by reflexivity; lia | rewrite (locLevels_not_loc P HP); lia]).
Qed.

(** X4: [getLocTypeRank] counts the levels of indirection below the first, and
    counts a leading lvalue reference once more: a type with [n] levels has
    rank [n - 1], or [n] when it is an lvalue reference.  So a pointer has
    rank 0, a pointer to pointer rank 1, and a reference to pointer rank 2. *)
Theorem getLocTypeRank_counts_levels (T : QualType) :
  getLocTypeRank T
  = (if isLValueReferenceType T then locLevels T else locLevels T - 1)%nat
  ∧ (∀ X Q Q', isLocType X = false →
               getLocTypeRank (PointerType X Q) = 0%nat
               ∧ getLocTypeRank (LValueReferenceType X) = 1%nat
               ∧ getLocTypeRank (PointerType (PointerType X Q) Q') = 1%nat
               ∧ getLocTypeRank (LValueReferenceType (PointerType X Q)) = 2%nat).
Proof.
  assert (Hrank : ∀ U, getLocTypeRank U
                       = (if isLValueReferenceType U then locLevels U else locLevels U - 1)%nat).
  { intros U. unfold getLocTypeRank. destruct (isLocType U) eqn:HL; simpl.
    - rewrite getLocTypeRank_loop_levels by assumption.
      destruct (isLValueReferenceType U); lia.
    - rewrite (locLevels_not_loc U HL). destruct U; try reflexivity; discriminate HL. }
  split; [apply Hrank|].
  intros X Q Q' HX. rewrite !Hrank. simpl. rewrite (locLevels_not_loc X HX). auto.
Qed.

(** ** The order of call-event keys *)

Lemma operator_lt_loop_lengths (ptr_lt : option MemRegion → option MemRegion → bool)
    (LI : list SVal) :
  ∀ (R : bool) (RI : list SVal),
    CallEventKey.operator_lt_loop ptr_lt R LI RI
    = if CallEventKey.atEnd LI || CallEventKey.atEnd RI then R
      else (length LI <? length RI)%nat.
Proof.
  induction LI as [|L LI IH]; intros R RI; [reflexivity|].
  destruct RI as [|R' RI]; [reflexivity|].
  cbn [CallEventKey.operator_lt_loop]. rewrite IH.
  destruct LI as [|L2 LI], RI as [|R2 RI]; reflexivity.
Qed.

(** X5: [CallEventKey::operator<] never looks at the argument values: a key is
    below another exactly when both have the same callee and the first has
    at least one argument and fewer arguments than the second.  Two keys of
    the same callee with equally many arguments are never ordered, whether
    [operator==] holds of them or not. *)
Theorem CallEventKey_order_counts_arguments
    (ptr_lt : option MemRegion → option MemRegion → bool) (LHS RHS : CallEventKey.t) :
  CallEventKey.operator_lt ptr_lt LHS RHS
  = bool_decide (CallEventKey.F LHS = CallEventKey.F RHS)
    && (0 <? length (CallEventKey.ArgVals LHS))%nat
    && (length (CallEventKey.ArgVals LHS) <? length (CallEventKey.ArgVals RHS))%nat.
Proof.
  unfold CallEventKey.operator_lt. rewrite operator_lt_loop_lengths.
  destruct (bool_decide _); [|reflexivity]. simpl.
  destruct (CallEventKey.ArgVals LHS) as [|L LI], (CallEventKey.ArgVals RHS) as [|R RI];
    reflexivity.
Qed.

(** ** The constraint of a value *)

(** X6: [getNullConstraint] answers [IsNull] only for a value the constraint
    store has constrained null.  The address of a function and an element of
    an array are [IsNotNull] in every state; an element of a typed region
    that is not an array is [Unknown] in every state, and so are the
    undefined value and the unknown value that carries a constraint. *)
Theorem getNullConstraint_sources (V : SVal) (State : ProgramState) :
  (getNullConstraint V State = IsNull → isNull State V = Some true)
  ∧ (∀ F, V = loc_MemRegionVal (CodeTextRegion F) → getNullConstraint V State = IsNotNull)
  ∧ (∀ T I Super ST, V = loc_MemRegionVal (ElementRegion T I Super) →
                     getValueType Super = Some ST →
                     getNullConstraint V State = if isArrayType ST then IsNotNull else Unknown)
  ∧ (isUndef V = true ∨ isUnknownNullable V = true → getNullConstraint V State = Unknown).
Proof.
  repeat split.
  - unfold getNullConstraint.
    destruct (isUndef V); [discriminate|]. destruct (isUnknownNullable V) eqn:HU; [discriminate|].
    destruct V as [| |C|R|z|z|s|R]; try discriminate HU;
      try (simpl; destruct (isNull _ _) as [[|]|]; try discriminate; auto;
           destruct (isGLValLoc _); discriminate).
    simpl. destruct R as [| | |T I Super| | | | |];
      try (destruct (isNull _ _) as [[|]|]; try discriminate; auto;
           destruct (isGLValLoc _); discriminate).
    destruct (getValueType Super) as [ST|].
    + destruct (isArrayType ST); discriminate.
    + destruct (isNull _ _) as [[|]|]; try discriminate; auto.
  - intros F ->. reflexivity.
  - intros T I Super ST -> HS. unfold getNullConstraint. simpl. rewrite HS. reflexivity.
  - intros [H|H]; unfold getNullConstraint; [rewrite H; reflexivity|].
    rewrite H. destruct (isUndef V); reflexivity.
Qed.

End TypeFacts.

(* ===================================================================== *)
(** * The escape tracker and the loop hooks                                *)
(* ===================================================================== *)

Module TrackerFacts.
Import AST Core dno Hooks Spec.

(** ** The two walks over the levels of a type *)

(** X7: The loop of [checkPreCall] over the levels of a parameter type and
    [recordPointerEscapes] are the same walk: whenever the loop of
    [checkPreCall] ends without a report it has computed the state
    [recordPointerEscapes] computes, it is undefined exactly where
    [recordPointerEscapes] is, and the only report it makes is
    [VolatilePointerEscape]. *)
Theorem checkPreCall_walk_is_recordPointerEscapes (T : QualType) :
  ∀ (V : SVal) (State : ProgramState),
    match escapeLevels T V State with
    | Continue State' => recordPointerEscapes V T State = Some State'
    | Aborted => recordPointerEscapes V T State = None
    | Reported BT _ => BT = BugVolatilePointerEscape
    end.
Proof.
  induction T as [| P IH ? | | P IH | | | |]; intros V State; try reflexivity;
    cbn [escapeLevels recordPointerEscapes];
    (destruct (isPointerType P); [|reflexivity]);
    (destruct (negb (isLoc V)); [reflexivity|]);
    (destruct (isUndef (getSVal State V)); [reflexivity|]);
    (destruct (getLValLocRegion V) as [R|]; [|apply IH]);
    (destruct (negb (isConstQualified P) && isVolatileQualified P); [reflexivity|apply IH]).
Qed.

(** ** Escape records across a call *)

Lemma getNullConstraint_EscapedNullable (V : SVal)
    (g : gmap MemRegion EscapedNullableState → gmap MemRegion EscapedNullableState)
    (State : ProgramState) :
  getNullConstraint V (set_EscapedNullable g State) = getNullConstraint V State.
Proof. reflexivity. Qed.

Definition refreshRecord (LValRegion : MemRegion) (State : ProgramState)
    (Rec : EscapedNullableState) : EscapedNullableState :=
  if bool_decide (Validity Rec ≠ Invalid)
  then mkEscaped (getNullConstraint (loc_MemRegionVal LValRegion) State) (Validity Rec)
  else Rec.

Lemma refreshEscaped_lookup (State : ProgramState) (R : MemRegion) :
  EscapedNullable (refreshEscaped State) !! R
  = refreshRecord R State <$> EscapedNullable State !! R.
Proof.
  unfold refreshEscaped.
  set (f := fun (LValRegion : MemRegion) (Rec : EscapedNullableState) (St : ProgramState) => _).
  assert (Hframe : ∀ m, map_fold f State m
                        = set_EscapedNullable (fun _ => EscapedNullable (map_fold f State m)) State).
  { intros m.
    apply (map_fold_weak_ind
             (fun (acc : ProgramState) (_ : gmap MemRegion EscapedNullableState) =>
                acc = set_EscapedNullable (fun _ => EscapedNullable acc) State)).
    - symmetry. apply CheckerFacts.set_EscapedNullable_id.
    - intros i x m' r _ Hr. unfold f.
      destruct (bool_decide (Validity x ≠ Invalid)); [|exact Hr].
      now apply CheckerFacts.set_EscapedNullable_frame. }
  enough (H : ∀ m, (∀ R' Rec, m !! R' = Some Rec → EscapedNullable State !! R' = Some Rec) →
                   ∀ R', EscapedNullable (map_fold f State m) !! R'
                         = match m !! R' with
                           | Some Rec => Some (refreshRecord R' State Rec)
                           | None => EscapedNullable State !! R'
                           end).
  { rewrite (H (EscapedNullable State)) by auto.
    destruct (EscapedNullable State !! R); reflexivity. }
  intros m. induction m as [|i x m Hi Hfirst IH] using map_first_key_ind.
  - intros _ R'. rewrite map_fold_empty, lookup_empty. reflexivity.
  - intros Hsub R'. rewrite map_fold_insert_first_key by assumption.
    assert (Hsub' : ∀ R'' Rec, m !! R'' = Some Rec → EscapedNullable State !! R'' = Some Rec).
    { intros R'' Rec HR. apply Hsub. rewrite lookup_insert_ne; [exact HR|]. congruence. }
    specialize (IH Hsub').
    assert (Hx : EscapedNullable State !! i = Some x).
    { apply Hsub. apply lookup_insert_eq. }
    unfold f at 1. unfold refreshRecord.
    destruct (bool_decide (Validity x ≠ Invalid)) eqn:Hc.
    + rewrite CheckerFacts.EscapedNullable_set.
      destruct (decide (i = R')) as [->|Hne].
      * rewrite !lookup_insert_eq, Hc. rewrite (Hframe m).
        now rewrite getNullConstraint_EscapedNullable.
      * rewrite !lookup_insert_ne by assumption. apply IH.
    + destruct (decide (i = R')) as [->|Hne].
      * rewrite lookup_insert_eq, Hc, IH, Hi. exact Hx.
      * rewrite lookup_insert_ne by assumption. apply IH.
Qed.

(** The address of a variable or of a parameter is never null, whatever is
    stored there. *)
Lemma getNullConstraint_variable (R : MemRegion) (State : ProgramState) :
  (∃ D, R = NonParamVarRegion D) ∨ (∃ I T, R = ParamVarRegion I T) →
  getNullConstraint (loc_MemRegionVal R) State = IsNotNull.
Proof. intros [[D ->]|(I & T & ->)]; reflexivity. Qed.



(** ** Every escape record, across a call *)

(** What the walk of [checkPreCall] over the arguments does to a record: it
    leaves it, or writes one that is [Valid] or [AlwaysValid]. *)
Definition keptOrWritten (State0 State : ProgramState) : Prop :=
  ∀ R, EscapedNullable State !! R = EscapedNullable State0 !! R
       ∨ ∃ C V, EscapedNullable State !! R = Some (mkEscaped C V)
                ∧ (V = Valid ∨ V = AlwaysValid).

Lemma keptOrWritten_refl (State : ProgramState) : keptOrWritten State State.
Proof. intros R. now left. Qed.

Lemma keptOrWritten_trans (S1 S2 S3 : ProgramState) :
  keptOrWritten S1 S2 → keptOrWritten S2 S3 → keptOrWritten S1 S3.
Proof.
  intros H1 H2 R. destruct (H2 R) as [->|H]; [apply H1|right; exact H].
Qed.

Lemma keptOrWritten_record (State : ProgramState) (R : MemRegion) (C : NullConstraint)
    (IsConst : bool) :
  keptOrWritten State
    (set_EscapedNullable
       <[R := mkEscaped C (if IsConst then AlwaysValid else Valid)]> State).
Proof.
  intros R'. rewrite CheckerFacts.EscapedNullable_set.
  destruct (decide (R = R')) as [->|Hne].
  - right. rewrite lookup_insert_eq. eexists _, _. split; [reflexivity|].
    destruct IsConst; auto.
  - left. now rewrite lookup_insert_ne.
Qed.

Lemma escapeLevels_keptOrWritten (T : QualType) :
  ∀ (Val : SVal) (State : ProgramState),
    match escapeLevels T Val State with
    | Continue State' => keptOrWritten State State'
    | _ => True
    end.
Proof.
  induction T as [K Q|P IH Q|P IH C Q|P IH|P IH|E IH| |D Q]; intros Val State;
    try (simpl; apply keptOrWritten_refl).
  all: rewrite (CheckerFacts.escapeLevels_level _ P) by reflexivity.
  all: destruct (isPointerType P); [|apply keptOrWritten_refl].
  all: destruct (negb (isLoc Val)); [exact Logic.I|].
  all: destruct (isUndef (getSVal State Val)); [exact Logic.I|].
  all: destruct (getLValLocRegion Val) as [R|]; [|apply IH].
  all: destruct (negb (isConstQualified P) && isVolatileQualified P); [exact Logic.I|].
  all: match goal with
       | |- match escapeLevels ?P ?V ?S' with _ => _ end =>
           specialize (IH V S'); destruct (escapeLevels P V S'); auto;
           (eapply keptOrWritten_trans; [apply keptOrWritten_record|exact IH])
       end.
Qed.

Lemma escapeArguments_keptOrWritten (Ctx : ASTContext) (Args : list SVal) :
  ∀ (Params : list ParmVarDecl) (State State' : ProgramState),
    escapeArguments Ctx Params Args State = Continue State' → keptOrWritten State State'.
Proof.
  induction Args as [|ArgSVal Args IH]; intros Params State State'; simpl.
  - intros [= <-]. apply keptOrWritten_refl.
  - destruct Params as [|Param Params]; [discriminate|].
    rewrite CheckerFacts.escapeArgument_levels.
    pose proof (escapeLevels_keptOrWritten (argumentLevels Ctx State Param ArgSVal).1
                  (argumentLevels Ctx State Param ArgSVal).2 State) as H.
    destruct (escapeLevels _ _ State) as [State1|BT State1|]; [|discriminate..].
    intros H2. eapply keptOrWritten_trans; [exact H|]. eapply IH. exact H2.
Qed.

(** A call [f(&p)] where [f] takes an [int **]: the address of [p] escapes
    again at this call. *)
Definition escapingCall : CallEvent :=
  mkCall (Some (OtherExpr (BuiltinType BK_Void NoQuals)))
    (Some (FunctionD (mkFunction "take_address" OO_None
                        [mkParm (PointerType CheckerFacts.intPtrTy NoQuals)] EST_None false)))
    [mkParm (PointerType CheckerFacts.intPtrTy NoQuals)]
    [loc_MemRegionVal CheckerFacts.var_p] UnknownVal.

Example escapingCall_keeps_valid :
  callEvent_escapes true CheckerFacts.anyContext escapingCall (fun St => St)
    (CheckerFacts.escapedState (mkEscaped Unknown Valid))
  = Some [CheckerFacts.escapedState (mkEscaped Unknown Valid)].
Proof. vm_compute. reflexivity. Qed.

Example opaqueCall_refreshes_always_valid :
  callEvent_escapes true CheckerFacts.anyContext CheckerFacts.opaqueCall (fun St => St)
    (CheckerFacts.escapedState (mkEscaped IsNull AlwaysValid))
  = Some [CheckerFacts.escapedState (mkEscaped IsNotNull AlwaysValid)].
Proof. vm_compute. reflexivity. Qed.




(** ** A load through an escaped pointer *)

Lemma Bindings_set (f : gmap MemRegion SVal → gmap MemRegion SVal) (State : ProgramState) :
  Bindings (set_Bindings f State) = f (Bindings State).
Proof. reflexivity. Qed.

(** X9: After a call has invalidated the record of an escaped pointer, the next
    load from the pointer whose value has a known constraint rebinds the
    pointer to the value conjured for the load and makes the record
    [Unknown] and [Valid] again; no other record and no other binding
    changes.  A load of a value whose constraint is [Unknown] leaves the
    record [Invalid] and the state as it is, and so does every load before
    the call, while the record is [Valid]. *)
Theorem load_after_call_conjures_value (Call : CallEvent) (State : ProgramState) (E : Expr)
    (R : MemRegion) (C RhsNullness : NullConstraint) (NewVal : SVal) :
  OriginExpr Call = Some E → ignoreEscapeAnalysis Call = false →
  EscapedNullable State !! R = Some (mkEscaped C Valid) → C ≠ Unknown →
  (RhsNullness ≠ Unknown →
   EscapedNullable
     (checkLocation_escaped (loc_MemRegionVal R) RhsNullness NewVal
        (checkPostCall_escapes Call State)) !! R = Some (mkEscaped Unknown Valid)
   ∧ getSVal (checkLocation_escaped (loc_MemRegionVal R) RhsNullness NewVal
                (checkPostCall_escapes Call State)) (loc_MemRegionVal R) = NewVal
   ∧ ∀ R', R' ≠ R →
           EscapedNullable
             (checkLocation_escaped (loc_MemRegionVal R) RhsNullness NewVal
                (checkPostCall_escapes Call State)) !! R'
           = EscapedNullable (checkPostCall_escapes Call State) !! R'
           ∧ getSVal (checkLocation_escaped (loc_MemRegionVal R) RhsNullness NewVal
                        (checkPostCall_escapes Call State)) (loc_MemRegionVal R')
             = getSVal (checkPostCall_escapes Call State) (loc_MemRegionVal R'))
  ∧ checkLocation_escaped (loc_MemRegionVal R) Unknown NewVal (checkPostCall_escapes Call State)
    = checkPostCall_escapes Call State
  ∧ checkLocation_escaped (loc_MemRegionVal R) RhsNullness NewVal State = State.
Proof.
  intros HE Hig Hrec HC.
  assert (Hinv : EscapedNullable (checkPostCall_escapes Call State) !! R
                 = Some (mkEscaped C Invalid)).
  { unfold checkPostCall_escapes. rewrite HE, Hig. simpl.
    rewrite CheckerFacts.invalidateEscaped_lookup, Hrec. simpl. unfold invalidateRecord. simpl.
    rewrite bool_decide_eq_true_2 by assumption. reflexivity. }
  split; [|split].
  - intros HRhs. unfold checkLocation_escaped. simpl. rewrite Hinv. simpl.
    rewrite (bool_decide_eq_true_2 (RhsNullness ≠ Unknown)) by assumption. simpl.
    set (St := checkPostCall_escapes Call State).
    split; [|split].
    + apply lookup_insert_eq.
    + now rewrite lookup_insert_eq.
    + intros R' Hne. split.
      * now apply lookup_insert_ne.
      * rewrite lookup_insert_ne by congruence. now rewrite lookup_delete_ne by congruence.
  - unfold checkLocation_escaped. simpl. rewrite Hinv. simpl.
    reflexivity.
  - unfold checkLocation_escaped. simpl. rewrite Hrec. reflexivity.
Qed.

Lemma load_after_call_conjures_value_witness :
  getSVal (checkLocation_escaped (loc_MemRegionVal CheckerFacts.var_p) IsNull
             (nonloc_SymbolVal 9%N)
             (checkPostCall_escapes CheckerFacts.opaqueCall
                (CheckerFacts.escapedState (mkEscaped IsNotNull Valid))))
    (loc_MemRegionVal CheckerFacts.var_p)
  = nonloc_SymbolVal 9%N.
Proof.
  refine (proj1 (proj2 (proj1
            (load_after_call_conjures_value CheckerFacts.opaqueCall
               (CheckerFacts.escapedState (mkEscaped IsNotNull Valid))
               (OtherExpr (BuiltinType BK_Void NoQuals)) CheckerFacts.var_p IsNotNull IsNull
               (nonloc_SymbolVal 9%N) eq_refl eq_refl eq_refl _) _))); discriminate.
Defined.

(** ** The parameters of an inlined function *)

Lemma set_Bindings_frame (f : gmap MemRegion SVal → gmap MemRegion SVal)
    (r State : ProgramState) :
  r = set_Bindings (fun _ => Bindings r) State →
  set_Bindings f r = set_Bindings (fun _ => Bindings (set_Bindings f r)) State.
Proof.
  intros H. destruct r, State. unfold set_Bindings in *. simpl in *.
  injection H; intros; subst. reflexivity.
Qed.

Lemma set_Bindings_id (State : ProgramState) :
  set_Bindings (fun _ => Bindings State) State = State.
Proof. destruct State; reflexivity. Qed.

Lemma breakParamBindings_frame (Ctx : ASTContext) (Params : list ParmVarDecl) :
  ∀ (Index : nat) (r State : ProgramState),
    r = set_Bindings (fun _ => Bindings r) State →
    breakParamBindings Ctx Index Params r
    = set_Bindings (fun _ => Bindings (breakParamBindings Ctx Index Params r)) State.
Proof.
  induction Params as [|Param Rest IH]; intros Index r State Hr; simpl; [exact Hr|].
  destruct (isNonNullableType Ctx (ParmType Param)); [now apply IH|].
  apply IH. unfold killBinding, getLValue_param. now apply set_Bindings_frame.
Qed.

Lemma breakParamBindings_kept (Ctx : ASTContext) (Params : list ParmVarDecl) :
  ∀ (Index : nat) (State : ProgramState) (R : MemRegion),
    (∀ I Param, Params !! I = Some Param → isNonNullableType Ctx (ParmType Param) = false →
                R ≠ ParamVarRegion (Index + I) (ParmType Param)) →
    Bindings (breakParamBindings Ctx Index Params State) !! R = Bindings State !! R.
Proof.
  induction Params as [|Param Rest IH]; intros Index State R HR; [reflexivity|].
  cbn [breakParamBindings].
  assert (HRest : ∀ I P, Rest !! I = Some P → isNonNullableType Ctx (ParmType P) = false →
                         R ≠ ParamVarRegion (S Index + I) (ParmType P)).
  { intros I P HI HP. replace (S Index + I)%nat with (Index + S I)%nat by lia.
    now apply HR. }
  destruct (isNonNullableType Ctx (ParmType Param)) eqn:HW.
  - now apply IH.
  - rewrite IH by assumption. unfold killBinding, getLValue_param. rewrite Bindings_set.
    apply lookup_delete_ne. intros Heq. apply (HR 0%nat Param eq_refl HW).
    rewrite <- Heq. f_equal. lia.
Qed.

Lemma breakParamBindings_killed (Ctx : ASTContext) (Params : list ParmVarDecl) :
  ∀ (Index : nat) (State : ProgramState) (I : nat) (Param : ParmVarDecl),
    Params !! I = Some Param → isNonNullableType Ctx (ParmType Param) = false →
    Bindings (breakParamBindings Ctx Index Params State)
      !! ParamVarRegion (Index + I) (ParmType Param) = None.
Proof.
  induction Params as [|P Rest IH]; intros Index State I Param HI HW;
    [now rewrite lookup_nil in HI|].
  cbn [breakParamBindings]. destruct I as [|I]; simpl in HI.
  - injection HI as ->. rewrite HW.
    rewrite breakParamBindings_kept.
    + unfold killBinding, getLValue_param. rewrite Bindings_set.
      replace (Index + 0)%nat with Index by lia. apply lookup_delete_eq.
    + intros J Q _ _ Heq. injection Heq as Heq _. lia.
  - replace (Index + S I)%nat with (S Index + I)%nat by lia.
    destruct (isNonNullableType Ctx (ParmType P)); now apply IH.
Qed.

(** X10: At the begin of an inlined function that is neither implicit nor
    allow-listed the hook hands on one state, in which the binding of every
    parameter whose type is not the non-nullable wrapper is gone, so that no
    constraint of the argument is carried into the callee; the bindings of
    the parameters of wrapper type, every other binding and every other
    component of the state are kept.  In the top frame and for an
    allow-listed function the hook adds no transition. *)
Theorem inlined_function_forgets_its_arguments (Ctx : ASTContext) (FD : FunctionDecl)
    (State : ProgramState) :
  isImplicit FD = false →
  (isInterProcedural FD = false →
   ∃ State', checkBeginFunction Ctx FD false State = addTransition State'
             ∧ State' = set_Bindings (fun _ => Bindings State') State
             ∧ (∀ I Param, parameters FD !! I = Some Param →
                           Bindings State' !! ParamVarRegion I (ParmType Param)
                           = if isNonNullableType Ctx (ParmType Param)
                             then Bindings State !! ParamVarRegion I (ParmType Param)
                             else None)
             ∧ (∀ R, (∀ I Param, parameters FD !! I = Some Param →
                                 R ≠ ParamVarRegion I (ParmType Param)) →
                     Bindings State' !! R = Bindings State !! R))
  ∧ checkBeginFunction Ctx FD true State = noTransition
  ∧ (isInterProcedural FD = true → checkBeginFunction Ctx FD false State = noTransition).
Proof.
  intros Himp. unfold checkBeginFunction. rewrite Himp. split; [|split].
  - intros Hip. rewrite Hip. eexists. split; [reflexivity|]. split; [|split].
    + apply breakParamBindings_frame. symmetry. apply set_Bindings_id.
    + intros I Param HI.
      destruct (isNonNullableType Ctx (ParmType Param)) eqn:HW.
      * apply breakParamBindings_kept. intros J P HJ HP Heq. simpl in Heq.
        injection Heq as -> HT. rewrite HI in HJ. injection HJ as <-. congruence.
      * now apply (breakParamBindings_killed Ctx (parameters FD) 0 State I Param).
    + intros R HR. apply breakParamBindings_kept. intros J P HJ _. now apply HR.
  - reflexivity.
  - intros ->. reflexivity.
Qed.

Definition takesPointerAndWrapper : FunctionDecl :=
  mkFunction "use" OO_None
    [mkParm CheckerFacts.intPtrTy; mkParm (RecordType 1%positive NoQuals)] EST_None false.

Lemma inlined_function_forgets_its_arguments_witness :
  ∃ State',
    checkBeginFunction (mkAST (fun _ => ClassifierFacts.emptyNotNull)) takesPointerAndWrapper
      false
      (bindLoc (emptyState CheckerFacts.U0)
         (loc_MemRegionVal (ParamVarRegion 0 CheckerFacts.intPtrTy))
         (loc_MemRegionVal (SymbolicRegion 3%N)))
    = addTransition State'
    ∧ Bindings State' !! ParamVarRegion 0 CheckerFacts.intPtrTy = None.
Proof.
  destruct (proj1 (inlined_function_forgets_its_arguments
                     (mkAST (fun _ => ClassifierFacts.emptyNotNull)) takesPointerAndWrapper
                     (bindLoc (emptyState CheckerFacts.U0)
                        (loc_MemRegionVal (ParamVarRegion 0 CheckerFacts.intPtrTy))
                        (loc_MemRegionVal (SymbolicRegion 3%N)))
                     eq_refl) eq_refl) as (State' & H1 & _ & H2 & _).
  exists State'. split; [exact H1|]. exact (H2 0%nat (mkParm CheckerFacts.intPtrTy) eq_refl).
Defined.

(** ** The loop condition *)

Lemma assume_decides (State State' : ProgramState) (Cond : SVal) (Sym : SymbolRef)
    (is_not_null : bool) :
  isConstant Cond = false → getAsSymbol Cond = Some Sym →
  assume State Cond is_not_null = Some State' →
  Constraints State' !! Sym = Some (negb is_not_null)
  ∧ WeakenMap State' = WeakenMap State ∧ WeakenSynonyms State' = WeakenSynonyms State.
Proof.
  intros HC HS. unfold assume, isNull.
  assert (HZ : isZeroConstant Cond = false).
  { destruct Cond; try reflexivity; discriminate HC. }
  rewrite HZ, HC, HS.
  destruct (Constraints State !! Sym) as [[|]|] eqn:HSym; destruct is_not_null;
    intros [= <-]; auto; simpl; now rewrite lookup_insert_eq.
Qed.

(** X11: [checkLoopCondition] never reports, and it sinks the path in one case
    only: at the second evaluation of a condition that is a non-zero
    constant.  From the third evaluation on it does nothing.  At the first
    evaluation of a condition that is not a constant the path forks into the
    feasible ones of the state where the condition holds and the state where
    it does not: the symbol of the condition is decided in each of them, and
    the state that leaves the loop carries no weakening mark. *)
Theorem loop_condition_forks_once (Cond : SVal) (blockCount : nat) (State : ProgramState) :
  Reports (checkLoopCondition Cond blockCount State) = []
  ∧ (Sunk (checkLoopCondition Cond blockCount State) = true
     ↔ blockCount = 2%nat ∧ isUnknownOrUndef Cond = false
       ∧ isConstant Cond = true ∧ isZeroConstant Cond = false)
  ∧ (blockCount ≠ 1%nat → blockCount ≠ 2%nat →
     checkLoopCondition Cond blockCount State = noTransition)
  ∧ (isUnknownOrUndef Cond = false → isConstant Cond = false →
     Transitions (checkLoopCondition Cond 1 State)
     = match assume State Cond true with Some St => [St] | None => [] end
       ++ match assume State Cond false with Some St => [clearWeakening St] | None => [] end
     ∧ ∀ St Sym, In St (Transitions (checkLoopCondition Cond 1 State)) →
                 getAsSymbol Cond = Some Sym →
                 ∃ b, Constraints St !! Sym = Some b
                      ∧ (b = true → WeakenMap St = ∅ ∧ WeakenSynonyms St = ∅)
                      ∧ (b = false → WeakenMap St = WeakenMap State
                                     ∧ WeakenSynonyms St = WeakenSynonyms State)).
Proof.
  split; [|split; [|split; [|]]].
  - unfold checkLoopCondition, assumeDual.
    destruct (isUnknownOrUndef Cond); [reflexivity|].
    destruct (blockCount =? 1)%nat; [|destruct (blockCount =? 2)%nat];
      destruct (isConstant Cond), (isZeroConstant Cond); reflexivity.
  - unfold checkLoopCondition, assumeDual.
    destruct (isUnknownOrUndef Cond);
      [split; [discriminate | intros (_ & H & _); discriminate H]|].
    destruct (Nat.eqb_spec blockCount 1) as [->|H1].
    + destruct (isConstant Cond), (isZeroConstant Cond); simpl;
        (split; [discriminate | intros (H & _); discriminate H]).
    + destruct (Nat.eqb_spec blockCount 2) as [->|H2].
      * destruct (isConstant Cond), (isZeroConstant Cond); simpl;
          (split; [try discriminate; auto | try reflexivity; intros (_ & _ & Ha & Hb);
                                            discriminate]).
      * split; [discriminate | intros (H & _); contradiction].
  - intros H1 H2. unfold checkLoopCondition.
    destruct (isUnknownOrUndef Cond); [reflexivity|].
    destruct (Nat.eqb_spec blockCount 1); [contradiction|].
    destruct (Nat.eqb_spec blockCount 2); [contradiction|]. reflexivity.
  - intros HU HC.
    assert (Heq : Transitions (checkLoopCondition Cond 1 State)
                  = match assume State Cond true with Some St => [St] | None => [] end
                    ++ match assume State Cond false with
                       | Some St => [clearWeakening St]
                       | None => []
                       end).
    { unfold checkLoopCondition, assumeDual. rewrite HU, HC. reflexivity. }
    split; [exact Heq|].
    intros St Sym Hin HS. rewrite Heq in Hin. apply in_app_or in Hin as [Hin|Hin].
    + destruct (assume State Cond true) as [St1|] eqn:Ha; [|contradiction].
      destruct Hin as [<-|[]].
      destruct (assume_decides _ _ _ _ _ HC HS Ha) as (Hc & Hw & Hs).
      exists false. repeat split; auto; discriminate.
    + destruct (assume State Cond false) as [St1|] eqn:Ha; [|contradiction].
      destruct Hin as [<-|[]].
      destruct (assume_decides _ _ _ _ _ HC HS Ha) as (Hc & Hw & Hs).
      exists true. repeat split; auto; discriminate.
Qed.

(** ** Weakening marks *)

Lemma deleteMarks_spec (Syns : list StmtId) :
  ∀ (St : ProgramState),
    let St' := fold_left (fun St WS => set_WeakenMap (delete WS) St) Syns St in
    St' = set_WeakenMap (fun _ => WeakenMap St') St
    ∧ ∀ S', WeakenMap St' !! S'
            = if bool_decide (S' ∈ Syns) then None else WeakenMap St !! S'.
Proof.
  induction Syns as [|WS Syns IH]; intros St; cbv zeta; cbn [fold_left].
  - split; [now destruct St|]. intros S'.
    rewrite bool_decide_eq_false_2; [reflexivity|]. apply not_elem_of_nil.
  - destruct (IH (set_WeakenMap (delete WS) St)) as [Hf Hl]. split.
    + rewrite Hf at 1. now destruct St.
    + intros S'. rewrite Hl. cbn [WeakenMap set_WeakenMap].
      destruct (decide (S' = WS)) as [->|Hne].
      * rewrite lookup_delete_eq.
        rewrite (bool_decide_eq_true_2 (WS ∈ WS :: Syns)) by (apply elem_of_cons; now left).
        now destruct (bool_decide _).
      * rewrite lookup_delete_ne by congruence.
        apply (f_equal (fun b : bool => if b then None else WeakenMap St !! S')).
        apply bool_decide_ext. rewrite elem_of_cons. tauto.
Qed.

(** X12: A store through a statement that is marked for weakening removes the
    mark of the statement, the marks of its synonyms and its list of
    synonyms, keeps every other mark and list, and changes nothing else; a
    store through a statement that is not marked adds no transition.  After a
    [break] no statement is marked, so a store that follows adds none. *)
Theorem store_discards_weakening_marks (S : StmtId) (State : ProgramState) :
  (WeakenMap State !! S = None → checkLocation_store S State = noTransition)
  ∧ (is_Some (WeakenMap State !! S) →
     ∃ State', checkLocation_store S State = addTransition State'
               ∧ State' = set_WeakenSynonyms (fun _ => WeakenSynonyms State')
                            (set_WeakenMap (fun _ => WeakenMap State') State)
               ∧ WeakenSynonyms State' = delete S (WeakenSynonyms State)
               ∧ ∀ S', WeakenMap State' !! S'
                       = if bool_decide (S' = S
                                         ∨ S' ∈ default [] (WeakenSynonyms State !! S))
                         then None else WeakenMap State !! S')
  ∧ (∀ State', In State' (Transitions (checkPostStmt_BreakStmt State)) →
               checkLocation_store S State' = noTransition).
Proof.
  split; [|split].
  - intros H. unfold checkLocation_store. rewrite H.
    rewrite bool_decide_eq_false_2; [reflexivity|]. now intros [? ?].
  - intros H. unfold checkLocation_store. rewrite bool_decide_eq_true_2 by assumption.
    eexists. split; [reflexivity|]. cbn [WeakenSynonyms set_WeakenMap].
    destruct (WeakenSynonyms State !! S) as [Syns|] eqn:HS; simpl.
    + destruct (deleteMarks_spec Syns (set_WeakenMap (delete S) State)) as [Hf Hl].
      simpl in Hf, Hl.
      set (St' := fold_left _ Syns _) in *.
      assert (Hsyn : WeakenSynonyms St' = WeakenSynonyms State) by (now rewrite Hf).
      split; [|split].
      * clear Hl Hsyn. clearbody St'. destruct St', State.
        unfold set_WeakenMap, set_WeakenSynonyms in *. simpl in *.
        injection Hf; intros; subst. reflexivity.
      * now rewrite Hsyn.
      * intros S'. rewrite Hl.
        destruct (decide (S' = S)) as [->|Hne].
        -- rewrite lookup_delete_eq.
           rewrite (bool_decide_eq_true_2 (S = S ∨ _)) by now left.
           now destruct (bool_decide _).
        -- rewrite lookup_delete_ne by congruence.
           apply (f_equal (fun b : bool => if b then None else WeakenMap State !! S')).
           apply bool_decide_ext. tauto.
    + split; [now destruct State|]. split; [reflexivity|].
      intros S'. simpl.
      destruct (decide (S' = S)) as [->|Hne].
      * rewrite lookup_delete_eq. now rewrite bool_decide_eq_true_2 by now left.
      * rewrite lookup_delete_ne by congruence.
        rewrite bool_decide_eq_false_2; [reflexivity|].
        intros [?|Hin]; [contradiction|]. now apply not_elem_of_nil in Hin.
  - intros State' [<-|[]]. unfold checkLocation_store. simpl.
    rewrite lookup_empty. rewrite bool_decide_eq_false_2; [reflexivity|]. now intros [? ?].
Qed.

Definition markedState : ProgramState :=
  set_WeakenSynonyms (fun _ => {[ 1%positive := [2%positive] ]})
    (set_WeakenMap (fun _ => {[ 1%positive := Variant; 2%positive := Variant;
                              3%positive := Invariant ]})
       (emptyState CheckerFacts.U0)).

Lemma store_discards_weakening_marks_witness :
  ∃ State', checkLocation_store 1%positive markedState = addTransition State'
            ∧ WeakenMap State' !! 2%positive = None
            ∧ WeakenMap State' !! 3%positive = Some Invariant.
Proof.
  destruct (proj1 (proj2 (store_discards_weakening_marks 1%positive markedState)))
    as (State' & H1 & _ & _ & H2).
  - exists Variant. reflexivity.
  - exists State'. split; [exact H1|]. split; [exact (H2 2%positive) | exact (H2 3%positive)].
Defined.

End TrackerFacts.

(* ===================================================================== *)
(** * The alias graph: what the operations write                          *)
(* ===================================================================== *)

Module GraphFacts.
Import AST Core dno Spec.
Local Open Scope N_scope.

(** ** Sets of keys *)

Lemma elem_of_add (Old : ImmutableSet.t) (V x : N) :
  x ∈ ImmutableSet.add Old V ↔ x = V ∨ x ∈ Old.
Proof.
  induction Old as [|X Rest IH]; simpl.
  - rewrite list_elem_of_singleton. rewrite elem_of_nil. tauto.
  - destruct (N.ltb_spec V X).
    + rewrite elem_of_cons. tauto.
    + destruct (N.eqb_spec V X) as [->|Hne].
      * rewrite elem_of_cons. tauto.
      * rewrite !elem_of_cons, IH. tauto.
Qed.

Lemma elem_of_remove (Old : ImmutableSet.t) (V x : N) :
  x ∈ ImmutableSet.remove Old V ↔ x ∈ Old ∧ x ≠ V.
Proof.
  unfold ImmutableSet.remove. rewrite !list_elem_of_In, filter_In.
  destruct (N.eqb_spec x V); simpl; intuition congruence.
Qed.

Lemma contains_elem_of (Set_ : ImmutableSet.t) (V : N) :
  ImmutableSet.contains Set_ V = true ↔ V ∈ Set_.
Proof.
  unfold ImmutableSet.contains. rewrite existsb_exists. split.
  - intros (x & Hin & Heq). apply N.eqb_eq in Heq as ->. now apply list_elem_of_In.
  - intros Hin. exists V. split; [now apply list_elem_of_In | apply N.eqb_refl].
Qed.

(** The alias set recorded for a key, empty when there is none. *)
Definition aliasesOf (State : ProgramState) (K : NullableObjectStateKey) : DNOAliasSet :=
  default [] (DNOAliasMap State !! K).

Lemma aliasesOf_Some (State : ProgramState) (K : NullableObjectStateKey) (A : DNOAliasSet) :
  DNOAliasMap State !! K = Some A → aliasesOf State K = A.
Proof. intros H. exact (f_equal (default []) H). Qed.

Lemma aliasesOf_None (State : ProgramState) (K : NullableObjectStateKey) :
  DNOAliasMap State !! K = None → aliasesOf State K = [].
Proof. intros H. exact (f_equal (default []) H). Qed.

Lemma aliasesOf_eq (State State' : ProgramState) (K : NullableObjectStateKey) :
  DNOAliasMap State' !! K = DNOAliasMap State !! K → aliasesOf State' K = aliasesOf State K.
Proof. intros H. exact (f_equal (default []) H). Qed.

Lemma aliasesOf_insert (State : ProgramState) (It K : NullableObjectStateKey)
    (A : DNOAliasSet) :
  aliasesOf (set_DNOAliasMap <[It := A]> State) K
  = if bool_decide (K = It) then A else aliasesOf State K.
Proof.
  unfold aliasesOf. cbn [DNOAliasMap set_DNOAliasMap].
  destruct (decide (K = It)) as [->|Hne].
  - rewrite lookup_insert_eq. now rewrite bool_decide_eq_true_2.
  - rewrite lookup_insert_ne by congruence. now rewrite bool_decide_eq_false_2.
Qed.

(** ** The loop of [setAliasInternal] *)

(** The loop writes the alias sets of keys of its range only. *)
Lemma setAliasLoop_outside (LK : NullableObjectStateKey) (Break : bool)
    (Range : list NullableObjectStateKey) :
  ∀ (Pending Visited : list NullableObjectStateKey) (State : ProgramState)
    (K : NullableObjectStateKey),
    K ∉ Range →
    DNOAliasMap (setAliasLoop LK Break Range Pending Visited State) !! K
    = DNOAliasMap State !! K.
Proof.
  induction Range as [|It Range IH]; intros Pending Visited State K HK; [reflexivity|].
  apply not_elem_of_cons in HK as [Hne HK]. cbn [setAliasLoop].
  destruct (It =? LK); [now apply IH|].
  destruct (ImmutableSet.contains Visited It); [now apply IH|].
  destruct (DNOAliasMap State !! It) as [A|].
  - rewrite IH by assumption. cbn [DNOAliasMap set_DNOAliasMap].
    now apply lookup_insert_ne.
  - destruct Break; [now apply IH|]. rewrite IH by assumption.
    cbn [DNOAliasMap set_DNOAliasMap]. now apply lookup_insert_ne.
Qed.

(** Breaking removes: no alias set gains a key. *)
Lemma setAliasLoop_break_shrinks (LK : NullableObjectStateKey)
    (Range : list NullableObjectStateKey) :
  ∀ (Pending Visited : list NullableObjectStateKey) (State : ProgramState)
    (K x : NullableObjectStateKey),
    x ∈ aliasesOf (setAliasLoop LK true Range Pending Visited State) K →
    x ∈ aliasesOf State K.
Proof.
  induction Range as [|It Range IH]; intros Pending Visited State K x; [auto|].
  cbn [setAliasLoop].
  destruct (It =? LK); [apply IH|].
  destruct (ImmutableSet.contains Visited It); [apply IH|].
  destruct (DNOAliasMap State !! It) as [A|] eqn:HA; [|apply IH].
  intros H. apply IH in H. rewrite aliasesOf_insert in H.
  destruct (decide (K = It)) as [->|Hne].
  - rewrite bool_decide_eq_true_2 in H by reflexivity.
    apply elem_of_remove in H as [H _]. now rewrite (aliasesOf_Some _ _ _ HA).
  - now rewrite bool_decide_eq_false_2 in H by assumption.
Qed.

(** Adding adds: no alias set loses a key. *)
Lemma setAliasLoop_add_grows (LK : NullableObjectStateKey)
    (Range : list NullableObjectStateKey) :
  ∀ (Pending Visited : list NullableObjectStateKey) (State : ProgramState)
    (K x : NullableObjectStateKey),
    x ∈ aliasesOf State K →
    x ∈ aliasesOf (setAliasLoop LK false Range Pending Visited State) K.
Proof.
  induction Range as [|It Range IH]; intros Pending Visited State K x Hx; [auto|].
  cbn [setAliasLoop].
  destruct (It =? LK); [now apply IH|].
  destruct (ImmutableSet.contains Visited It); [now apply IH|].
  destruct (DNOAliasMap State !! It) as [A|] eqn:HA; apply IH; rewrite aliasesOf_insert;
    (destruct (decide (K = It)) as [->|Hne];
     [rewrite bool_decide_eq_true_2 by reflexivity
     |now rewrite bool_decide_eq_false_2 by assumption]).
  - apply elem_of_add. right. now rewrite (aliasesOf_Some _ _ _ HA) in Hx.
  - rewrite (aliasesOf_None _ _ HA) in Hx. now apply elem_of_nil in Hx.
Qed.

(** After the loop every key of the range other than [LK] has [LK] in its
    alias set when adding, and not when breaking. *)
Lemma setAliasLoop_add_range (LK : NullableObjectStateKey)
    (Range : list NullableObjectStateKey) :
  ∀ (Pending Visited : list NullableObjectStateKey) (State : ProgramState)
    (K : NullableObjectStateKey),
    (∀ V, V ∈ Visited → LK ∈ aliasesOf State V) →
    K ∈ Range → K ≠ LK →
    LK ∈ aliasesOf (setAliasLoop LK false Range Pending Visited State) K.
Proof.
  induction Range as [|It Range IH]; intros Pending Visited State K HV HK Hne;
    [now apply elem_of_nil in HK|].
  cbn [setAliasLoop].
  destruct (N.eqb_spec It LK) as [->|HLK].
  { apply elem_of_cons in HK as [->|HK]; [contradiction|now apply IH]. }
  destruct (ImmutableSet.contains Visited It) eqn:Hvis.
  { apply elem_of_cons in HK as [->|HK]; [|now apply IH].
    apply setAliasLoop_add_grows. apply HV. now apply contains_elem_of. }
  assert (Hstep : ∀ A, (∀ V, V ∈ It :: Visited →
                             LK ∈ aliasesOf (set_DNOAliasMap <[It := ImmutableSet.add A LK]> State) V)).
  { intros A V HVin. rewrite aliasesOf_insert.
    destruct (decide (V = It)) as [->|HVne].
    - rewrite bool_decide_eq_true_2 by reflexivity. apply elem_of_add. now left.
    - rewrite bool_decide_eq_false_2 by assumption.
      apply elem_of_cons in HVin as [?|HVin]; [contradiction|now apply HV]. }
  destruct (DNOAliasMap State !! It) as [A|] eqn:HA.
  - apply elem_of_cons in HK as [->|HK]; [|apply IH; [apply Hstep|assumption..]].
    apply setAliasLoop_add_grows. apply Hstep. apply elem_of_cons. now left.
  - apply elem_of_cons in HK as [->|HK]; [|apply IH; [apply (Hstep [])|assumption..]].
    apply setAliasLoop_add_grows. apply (Hstep []). apply elem_of_cons. now left.
Qed.

Lemma setAliasLoop_break_range (LK : NullableObjectStateKey)
    (Range : list NullableObjectStateKey) :
  ∀ (Pending Visited : list NullableObjectStateKey) (State : ProgramState)
    (K : NullableObjectStateKey),
    (∀ V, V ∈ Visited → LK ∉ aliasesOf State V) →
    K ∈ Range → K ≠ LK →
    LK ∉ aliasesOf (setAliasLoop LK true Range Pending Visited State) K.
Proof.
  induction Range as [|It Range IH]; intros Pending Visited State K HV HK Hne;
    [now apply elem_of_nil in HK|].
  cbn [setAliasLoop].
  destruct (N.eqb_spec It LK) as [->|HLK].
  { apply elem_of_cons in HK as [->|HK]; [contradiction|now apply IH]. }
  destruct (ImmutableSet.contains Visited It) eqn:Hvis.
  { apply elem_of_cons in HK as [->|HK]; [|now apply IH].
    intros H. apply setAliasLoop_break_shrinks in H. revert H. apply HV.
    now apply contains_elem_of. }
  destruct (DNOAliasMap State !! It) as [A|] eqn:HA.
  - assert (Hstep : ∀ V, V ∈ It :: Visited →
                         LK ∉ aliasesOf (set_DNOAliasMap <[It := ImmutableSet.remove A LK]> State) V).
    { intros V HVin. rewrite aliasesOf_insert.
      destruct (decide (V = It)) as [->|HVne].
      - rewrite bool_decide_eq_true_2 by reflexivity. rewrite elem_of_remove. tauto.
      - rewrite bool_decide_eq_false_2 by assumption.
        apply elem_of_cons in HVin as [?|HVin]; [contradiction|now apply HV]. }
    apply elem_of_cons in HK as [->|HK]; [|apply IH; [apply Hstep|assumption..]].
    intros H. apply setAliasLoop_break_shrinks in H. revert H. apply Hstep.
    apply elem_of_cons. now left.
  - apply elem_of_cons in HK as [->|HK]; [|now apply IH].
    intros H. apply setAliasLoop_break_shrinks in H.
    rewrite (aliasesOf_None _ _ HA) in H. now apply elem_of_nil in H.
Qed.

(** ** [setAliasInternal], [addAlias], [breakAlias] *)

Lemma setAliasInternal_break_shrinks (State : ProgramState) (LK RK K x : NullableObjectStateKey) :
  x ∈ aliasesOf (setAliasInternal State LK RK true) K → x ∈ aliasesOf State K.
Proof.
  unfold setAliasInternal. destruct (DNOAliasMap State !! LK) as [Aliases|]; [|auto].
  apply setAliasLoop_break_shrinks.
Qed.

Lemma setAliasInternal_add_grows (State : ProgramState) (LK RK K x : NullableObjectStateKey) :
  x ∈ aliasesOf State K → x ∈ aliasesOf (setAliasInternal State LK RK false) K.
Proof.
  intros Hx. unfold setAliasInternal.
  destruct (DNOAliasMap State !! LK) as [Aliases|] eqn:HLK.
  - now apply setAliasLoop_add_grows.
  - assert (Hx1 : x ∈ aliasesOf
                        (set_DNOAliasMap
                           <[LK := ImmutableSet.add ImmutableSet.getEmptySet RK]> State) K).
    { rewrite aliasesOf_insert. destruct (decide (K = LK)) as [->|Hne].
      - rewrite (aliasesOf_None _ _ HLK) in Hx. now apply elem_of_nil in Hx.
      - now rewrite bool_decide_eq_false_2 by assumption. }
    match goal with
    | |- context [DNOAliasMap ?S1 !! LK] => destruct (DNOAliasMap S1 !! LK)
    end; [now apply setAliasLoop_add_grows | exact Hx1].
Qed.

Lemma breakAlias_shrinks (State : ProgramState) (LK RK K x : NullableObjectStateKey) :
  x ∈ aliasesOf (breakAlias State LK RK) K → x ∈ aliasesOf State K.
Proof.
  unfold breakAlias. intros H. now do 2 apply setAliasInternal_break_shrinks in H.
Qed.

Lemma breakAliases_fold_shrinks (LK : NullableObjectStateKey)
    (l : list NullableObjectStateKey) :
  ∀ (State : ProgramState) (K x : NullableObjectStateKey),
    x ∈ aliasesOf (fold_left (fun St AliasKey => breakAlias St LK AliasKey) l State) K →
    x ∈ aliasesOf State K.
Proof.
  induction l as [|AK l IH]; intros State K x H; [exact H|].
  simpl in H. apply IH in H. now apply breakAlias_shrinks in H.
Qed.

Lemma setAliasInternal_break_detaches (State : ProgramState) (LK RK A : NullableObjectStateKey) :
  A ∈ aliasesOf State LK → A ≠ LK →
  LK ∉ aliasesOf (setAliasInternal State LK RK true) A.
Proof.
  intros HA Hne. unfold setAliasInternal.
  destruct (DNOAliasMap State !! LK) as [Aliases|] eqn:HLK.
  - rewrite (aliasesOf_Some _ _ _ HLK) in HA.
    apply setAliasLoop_break_range;
      [intros V HV; now apply elem_of_nil in HV | assumption | assumption].
  - rewrite (aliasesOf_None _ _ HLK) in HA. now apply elem_of_nil in HA.
Qed.

Lemma setAliasInternal_break_other (State : ProgramState) (AK LK : NullableObjectStateKey) :
  LK ∉ aliasesOf State AK →
  DNOAliasMap (setAliasInternal State AK LK true) !! LK = DNOAliasMap State !! LK.
Proof.
  intros H. unfold setAliasInternal.
  destruct (DNOAliasMap State !! AK) as [Aliases|] eqn:HAK; [|reflexivity].
  apply setAliasLoop_outside. now rewrite (aliasesOf_Some _ _ _ HAK) in H.
Qed.

Lemma breakAlias_own_set (State : ProgramState) (LK AK : NullableObjectStateKey) :
  AK ∈ aliasesOf State LK →
  DNOAliasMap (breakAlias State LK AK) !! LK = DNOAliasMap State !! LK.
Proof.
  intros HAK. unfold breakAlias.
  destruct (decide (AK = LK)) as [->|Hne].
  - now rewrite !AliasFacts.setAliasInternal_break_own_set.
  - rewrite setAliasInternal_break_other.
    + apply AliasFacts.setAliasInternal_break_own_set.
    + now apply setAliasInternal_break_detaches.
Qed.

Lemma breakAliases_fold_own_set (LK : NullableObjectStateKey) (Aliases : DNOAliasSet)
    (l : list NullableObjectStateKey) :
  ∀ (State : ProgramState),
    (∀ AK, AK ∈ l → AK ∈ Aliases) → aliasesOf State LK = Aliases →
    DNOAliasMap (fold_left (fun St AliasKey => breakAlias St LK AliasKey) l State) !! LK
    = DNOAliasMap State !! LK.
Proof.
  induction l as [|AK l IH]; intros State Hl HA; [reflexivity|].
  simpl.
  assert (HAK : AK ∈ aliasesOf State LK).
  { rewrite HA. apply Hl. apply elem_of_cons. now left. }
  rewrite IH.
  - now apply breakAlias_own_set.
  - intros AK' H. apply Hl. apply elem_of_cons. now right.
  - rewrite (aliasesOf_eq State _ LK (breakAlias_own_set _ _ _ HAK)). exact HA.
Qed.

Lemma breakAliases_effect (State : ProgramState) (LK : NullableObjectStateKey) :
  DNOAliasMap (breakAliases State LK) !! LK = DNOAliasMap State !! LK
  ∧ (∀ A, A ∈ aliasesOf State LK → A ≠ LK → LK ∉ aliasesOf (breakAliases State LK) A)
  ∧ (∀ K x, x ∈ aliasesOf (breakAliases State LK) K → x ∈ aliasesOf State K)
  ∧ DNOConstraintMap (breakAliases State LK) = DNOConstraintMap State.
Proof.
  split; [|split; [|split]].
  - unfold breakAliases. destruct (DNOAliasMap State !! LK) as [Aliases|] eqn:HLK; [|exact HLK].
    rewrite (breakAliases_fold_own_set LK Aliases); auto.
    now apply aliasesOf_Some.
  - intros A HA Hne. unfold breakAliases.
    destruct (DNOAliasMap State !! LK) as [Aliases|] eqn:HLK.
    + destruct Aliases as [|AK Rest].
      * rewrite (aliasesOf_Some _ _ _ HLK) in HA. now apply elem_of_nil in HA.
      * simpl. intros H. apply breakAliases_fold_shrinks in H. unfold breakAlias in H.
        apply setAliasInternal_break_shrinks in H. revert H.
        now apply setAliasInternal_break_detaches.
    + rewrite (aliasesOf_None _ _ HLK) in HA. now apply elem_of_nil in HA.
  - intros K x. unfold breakAliases.
    destruct (DNOAliasMap State !! LK) as [Aliases|]; [|auto].
    apply breakAliases_fold_shrinks.
  - apply AliasFacts.breakAliases_constraints.
Qed.

(** X13: [breakAliases(State, LK)] takes [LK] out of the alias set of each of its
    direct aliases and adds no key to any alias set, but it leaves the alias
    set of [LK] itself as it was, so that every key [LK] was aliased to
    stays in the alias set of [LK]; no constraint changes. *)
Theorem breakAliases_detaches_one_way (State : ProgramState) (LK : NullableObjectStateKey) :
  aliasesOf (breakAliases State LK) LK = aliasesOf State LK
  ∧ (∀ A, A ∈ aliasesOf State LK → A ≠ LK →
          (LK ∉ aliasesOf (breakAliases State LK) A)
          ∧ A ∈ aliasesOf (breakAliases State LK) LK)
  ∧ (∀ K x, x ∈ aliasesOf (breakAliases State LK) K → x ∈ aliasesOf State K)
  ∧ DNOConstraintMap (breakAliases State LK) = DNOConstraintMap State.
Proof.
  destruct (breakAliases_effect State LK) as (H1 & H2 & H3 & H4).
  assert (H1' : aliasesOf (breakAliases State LK) LK = aliasesOf State LK)
    by now apply aliasesOf_eq.
  repeat split; auto. now rewrite H1'.
Qed.

(** ** [alias] between two keys *)

Lemma setAliasInternal_add_links (State : ProgramState) (AK K : NullableObjectStateKey) :
  K ≠ AK → DNOAliasMap State !! AK = None ∨ K ∈ aliasesOf State AK →
  K ∈ aliasesOf (setAliasInternal State AK K false) AK
  ∧ AK ∈ aliasesOf (setAliasInternal State AK K false) K.
Proof.
  intros Hne H. unfold setAliasInternal.
  destruct (DNOAliasMap State !! AK) as [A|] eqn:HAK.
  - destruct H as [H|H]; [discriminate H|]. rewrite (aliasesOf_Some _ _ _ HAK) in H.
    split.
    + rewrite (aliasesOf_eq State _ AK (AliasFacts.setAliasLoop_own_set _ _ _ _ _ _)).
      now rewrite (aliasesOf_Some _ _ _ HAK).
    + apply setAliasLoop_add_range;
        [intros V HV; now apply elem_of_nil in HV | assumption | assumption].
  - set (State1 := set_DNOAliasMap <[AK := ImmutableSet.add ImmutableSet.getEmptySet K]> State).
    assert (H1 : DNOAliasMap State1 !! AK = Some [K]).
    { unfold State1. cbn [DNOAliasMap set_DNOAliasMap]. apply lookup_insert_eq. }
    destruct (DNOAliasMap State1 !! AK) as [A1|] eqn:HA1; [|discriminate H1].
    injection H1 as ->. split.
    + rewrite (aliasesOf_eq State1 _ AK (AliasFacts.setAliasLoop_own_set _ _ _ _ _ _)).
      rewrite (aliasesOf_Some _ _ _ HA1).
      apply elem_of_cons. now left.
    + apply setAliasLoop_add_range;
        [intros V HV; now apply elem_of_nil in HV | apply elem_of_cons; now left | assumption].
Qed.

Lemma setAliasInternal_add_first (State : ProgramState) (K AK : NullableObjectStateKey) :
  K ≠ AK → DNOAliasMap State !! K = None ∨ DNOAliasMap State !! AK = None →
  DNOAliasMap (setAliasInternal State K AK false) !! AK = None
  ∨ K ∈ aliasesOf (setAliasInternal State K AK false) AK.
Proof.
  intros Hne H. unfold setAliasInternal.
  destruct (DNOAliasMap State !! K) as [S|] eqn:HK.
  - destruct H as [H|H]; [discriminate H|].
    destruct (decide (AK ∈ S)) as [Hin|Hnin].
    + right. apply setAliasLoop_add_range;
        [intros V HV; now apply elem_of_nil in HV | assumption | congruence].
    + left. rewrite setAliasLoop_outside by assumption. exact H.
  - right.
    set (State1 := set_DNOAliasMap <[K := ImmutableSet.add ImmutableSet.getEmptySet AK]> State).
    assert (H1 : DNOAliasMap State1 !! K = Some [AK]).
    { unfold State1. cbn [DNOAliasMap set_DNOAliasMap]. apply lookup_insert_eq. }
    destruct (DNOAliasMap State1 !! K) as [A1|] eqn:HA1; [|discriminate H1].
    injection H1 as ->.
    apply setAliasLoop_add_range;
      [intros V HV; now apply elem_of_nil in HV | apply elem_of_cons; now left | congruence].
Qed.

Lemma alias_effect (State : ProgramState)
    (K AliasK : NullableObjectStateKey) (AC : NullConstraint) :
  DNOConstraintMap State !! AliasK = Some AC →
  DNOConstraintMap (alias State K AliasK) = <[K := AC]> (DNOConstraintMap State)
  ∧ (∀ K' x, x ∈ aliasesOf State K' → x ∈ aliasesOf (alias State K AliasK) K')
  ∧ (K ≠ AliasK →
     DNOAliasMap State !! K = None ∨ DNOAliasMap State !! AliasK = None →
     AliasK ∈ aliasesOf (alias State K AliasK) K
     ∧ K ∈ aliasesOf (alias State K AliasK) AliasK).
Proof.
  - intros H. unfold alias.
    destruct (DNOConstraintMap State !! AliasK) as [C|] eqn:H'; [|discriminate H].
    injection H as ->.
    split; [|split].
    + rewrite AliasFacts.addAlias_constraints. reflexivity.
    + intros K' x Hx. unfold addAlias. now do 2 apply setAliasInternal_add_grows.
    + intros Hne Hfresh. unfold addAlias.
      apply and_comm. apply (setAliasInternal_add_links _ AliasK K Hne).
      apply (setAliasInternal_add_first (createConstraint State K AC) K AliasK Hne Hfresh).
Qed.

(** X14: [alias(State, K, AliasK)], for a key [AliasK] with a recorded constraint:
    [K] gets the constraint of [AliasK], no other constraint changes and no
    alias set loses a key; and when [K] or [AliasK] had no alias set before,
    each of the two keys is in the alias set of the other afterwards.  When
    no constraint is recorded for [AliasK] the state is returned as it
    is. *)
Theorem alias_copies_constraint_and_links (State : ProgramState)
    (K AliasK : NullableObjectStateKey) :
  match DNOConstraintMap State !! AliasK with
  | None => alias State K AliasK = State
  | Some AC =>
      DNOConstraintMap (alias State K AliasK) = <[K := AC]> (DNOConstraintMap State)
      ∧ (∀ K' x, x ∈ aliasesOf State K' → x ∈ aliasesOf (alias State K AliasK) K')
      ∧ (K ≠ AliasK →
         DNOAliasMap State !! K = None ∨ DNOAliasMap State !! AliasK = None →
         AliasK ∈ aliasesOf (alias State K AliasK) K
         ∧ K ∈ aliasesOf (alias State K AliasK) AliasK)
  end.
Proof.
  destruct (DNOConstraintMap State !! AliasK) as [AC|] eqn:H.
  - now apply alias_effect.
  - unfold alias. destruct (DNOConstraintMap State !! AliasK); [discriminate H|reflexivity].
Qed.

(** ** Constraint updates *)

(** The three maps of the alias graph. *)
Definition graphOf (State : ProgramState)
    : gmap NullableObjectStateKey DNOAliasSet * gmap SymbolRef DNOAliasSet
      * gmap NullableObjectStateKey SymAliasSet :=
  (DNOAliasMap State, PtrToDNOAliasMap State, DNOToPtrAliasMap State).

Lemma assume_objects (State State' : ProgramState) (V : SVal) (is_not_null : bool) :
  assume State V is_not_null = Some State' →
  DNOConstraintMap State' = DNOConstraintMap State ∧ graphOf State' = graphOf State.
Proof.
  unfold assume.
  destruct (isNull State V) as [[|]|]; destruct is_not_null; try discriminate;
    try (intros [= <-]; auto);
    destruct (getAsSymbol V); intros [= <-]; auto.
Qed.

Lemma assumeSyms_objects (C : NullConstraint) (Syms : list SymbolRef) :
  ∀ (State State' : ProgramState),
    assumeSyms C Syms State = Some State' →
    DNOConstraintMap State' = DNOConstraintMap State ∧ graphOf State' = graphOf State.
Proof.
  induction Syms as [|Sym Syms IH]; intros State State' H; simpl in H.
  - injection H as <-. auto.
  - destruct (assume State (makeSymbolVal Sym) (bool_decide (C = IsNotNull))) as [St|] eqn:Ha;
      [|discriminate H].
    apply assume_objects in Ha as [Ha1 Ha2]. apply IH in H as [H1 H2].
    split; congruence.
Qed.

Lemma updateConstraintLoop_graph (C : NullConstraint) (Range : list NullableObjectStateKey) :
  ∀ (Pending : list NullableObjectStateKey) (State : ProgramState),
    graphOf (updateConstraintLoop C Range Pending State) = graphOf State.
Proof.
  induction Range as [|It Range IH]; intros Pending State; [reflexivity|].
  cbn [updateConstraintLoop]. now rewrite IH.
Qed.

Lemma updateConstraint_effect (State State' : ProgramState)
    (K : NullableObjectStateKey) (C : NullConstraint) :
  updateConstraint State K C = Some State' →
  (∀ K', DNOConstraintMap State' !! K'
         = if bool_decide (K' = K ∨ K' ∈ aliasesOf State K) then Some C
           else DNOConstraintMap State !! K')
  ∧ graphOf State' = graphOf State.
Proof.
  unfold updateConstraint.
  set (State1 := set_DNOConstraintMap <[K := C]> State).
  set (State2 := match DNOAliasMap State1 !! K with
                 | Some Aliases => updateConstraint_aliases State1 Aliases C
                 | None => State1
                 end).
  assert (H2 : (∀ K', DNOConstraintMap State2 !! K'
                      = if bool_decide (K' = K ∨ K' ∈ aliasesOf State K) then Some C
                        else DNOConstraintMap State !! K')
               ∧ graphOf State2 = graphOf State).
  { assert (H1 : ∀ K', DNOConstraintMap State1 !! K'
                       = if bool_decide (K' = K) then Some C else DNOConstraintMap State !! K').
    { intros K'. unfold State1. cbn [DNOConstraintMap set_DNOConstraintMap].
      destruct (decide (K' = K)) as [->|Hne].
      - rewrite lookup_insert_eq. now rewrite bool_decide_eq_true_2.
      - rewrite lookup_insert_ne by congruence. now rewrite bool_decide_eq_false_2. }
    unfold State2.
    destruct (DNOAliasMap State1 !! K) as [Aliases|] eqn:HA.
    - assert (HA' : aliasesOf State K = Aliases) by exact (aliasesOf_Some State1 K Aliases HA).
      split.
      + intros K'. unfold updateConstraint_aliases.
        rewrite AliasFacts.updateConstraintLoop_lookup, H1, HA'.
        destruct (decide (K' ∈ Aliases)) as [Hin|Hnin].
        * rewrite (bool_decide_eq_true_2 (K' ∈ Aliases)) by assumption.
          now rewrite (bool_decide_eq_true_2 (K' = K ∨ _)) by now right.
        * rewrite (bool_decide_eq_false_2 (K' ∈ Aliases)) by assumption.
          apply (f_equal (fun b : bool => if b then Some C else DNOConstraintMap State !! K')).
          apply bool_decide_ext. tauto.
      + unfold updateConstraint_aliases. now rewrite updateConstraintLoop_graph.
    - assert (HA' : aliasesOf State K = []) by exact (aliasesOf_None State1 K HA).
      split; [|reflexivity].
      intros K'. rewrite H1, HA'.
      apply (f_equal (fun b : bool => if b then Some C else DNOConstraintMap State !! K')).
      apply bool_decide_ext. rewrite elem_of_nil. tauto. }
  clearbody State2. clear State1.
  destruct (DNOToPtrAliasMap State2 !! K) as [SymAliases|].
  - unfold updateConstraint_syms.
    destruct (assumeSyms C SymAliases (set_AliasGuard true State2)) as [St|] eqn:Hs;
      [|discriminate].
    intros [= <-]. apply assumeSyms_objects in Hs as [Hs1 Hs2].
    destruct H2 as [H2a H2b]. split.
    + intros K'. rewrite <- H2a. cbn [DNOConstraintMap set_AliasGuard].
      now rewrite Hs1.
    + rewrite <- H2b. exact Hs2.
  - intros [= <-]. exact H2.
Qed.

Lemma updateConstraint_defined (State : ProgramState) (K : NullableObjectStateKey)
    (C : NullConstraint) :
  DNOToPtrAliasMap State !! K = None → is_Some (updateConstraint State K C).
Proof.
  intros H. unfold updateConstraint.
  set (State2 := match DNOAliasMap _ !! K with Some _ => _ | None => _ end).
  assert (HG : graphOf State2 = graphOf State).
  { unfold State2. destruct (DNOAliasMap _ !! K); [|reflexivity].
    unfold updateConstraint_aliases. now rewrite updateConstraintLoop_graph. }
  assert (H2 : DNOToPtrAliasMap State2 !! K = None).
  { injection HG as _ _ ->. exact H. }
  clearbody State2. destruct (DNOToPtrAliasMap State2 !! K); [discriminate H2|]. eauto.
Qed.

(** X15: [updateConstraint(State, K, C)] sets the constraint of [K] and of the
    keys in the alias set of [K] to [C] and leaves every other constraint
    and the whole alias graph as they were: the keys aliased to the aliases
    of [K] are not reached.  The update goes on with the null state only
    when symbols are aliased to [K]. *)
Theorem updateConstraint_writes_key_and_its_alias_set (State : ProgramState)
    (K : NullableObjectStateKey) (C : NullConstraint) :
  match updateConstraint State K C with
  | Some State' =>
      (∀ K', DNOConstraintMap State' !! K'
             = if bool_decide (K' = K ∨ K' ∈ aliasesOf State K) then Some C
               else DNOConstraintMap State !! K')
      ∧ graphOf State' = graphOf State
  | None => DNOToPtrAliasMap State !! K ≠ None
  end.
Proof.
  destruct (updateConstraint State K C) as [State'|] eqn:H.
  - now apply updateConstraint_effect.
  - intros HN. apply (updateConstraint_defined State K C) in HN as [St HSt]. congruence.
Qed.

Definition aliasedPair : ProgramState :=
  alias (createConstraint (createConstraint (emptyState CheckerFacts.U0) 3 IsNull) 2 Unknown) 1 2.

Example updateConstraint_on_aliasedPair :
  (fun St => (DNOConstraintMap St !! 1, DNOConstraintMap St !! 2, DNOConstraintMap St !! 3))
    <$> updateConstraint aliasedPair 1 IsNotNull
  = Some (Some IsNotNull, Some IsNotNull, Some IsNull).
Proof. reflexivity. Qed.

(** ** Constraint updates from a pointer symbol *)

Lemma set_AliasGuard_objects (b : bool) (State : ProgramState) :
  DNOConstraintMap (set_AliasGuard b State) = DNOConstraintMap State
  ∧ graphOf (set_AliasGuard b State) = graphOf State.
Proof. split; reflexivity. Qed.

Lemma updateSymAliases_objects (C : NullConstraint) (SymAliases : list SymbolRef) :
  ∀ (Pending : list NullableObjectStateKey) (VisitedSyms : list SymbolRef)
    (State State' : ProgramState) (Pending' : list NullableObjectStateKey)
    (VisitedSyms' : list SymbolRef),
    updateSymAliases C SymAliases Pending VisitedSyms State
    = Some (State', Pending', VisitedSyms') →
    DNOConstraintMap State' = DNOConstraintMap State ∧ graphOf State' = graphOf State.
Proof.
  induction SymAliases as [|SymAlias Rest IH];
    intros Pending VisitedSyms State State' Pending' VisitedSyms' H; cbn [updateSymAliases] in H.
  - injection H as <- _ _. auto.
  - destruct (ImmutableSet.contains VisitedSyms SymAlias); [now apply IH in H|].
    destruct (assume (set_AliasGuard true State) (makeSymbolVal SymAlias)
                (bool_decide (C = IsNotNull))) as [State1|] eqn:Ha; [|discriminate H].
    apply assume_objects in Ha as [Ha1 Ha2]. apply IH in H as [H1 H2].
    split; [exact (eq_trans H1 Ha1) | exact (eq_trans H2 Ha2)].
Qed.

Lemma DNOConstraintMap_insert (State : ProgramState) (It K : NullableObjectStateKey)
    (C : NullConstraint) :
  DNOConstraintMap (set_DNOConstraintMap <[It := C]> State) !! K
  = if bool_decide (K = It) then Some C else DNOConstraintMap State !! K.
Proof.
  cbn [DNOConstraintMap set_DNOConstraintMap].
  destruct (decide (K = It)) as [->|Hne].
  - rewrite lookup_insert_eq. now rewrite bool_decide_eq_true_2.
  - rewrite lookup_insert_ne by congruence. now rewrite bool_decide_eq_false_2.
Qed.

Lemma updateConstraintSymLoop_lookup (C : NullConstraint)
    (Range : list NullableObjectStateKey) :
  ∀ (Pending : list NullableObjectStateKey) (VisitedSyms : list SymbolRef)
    (VisitedNullObjs : list NullableObjectStateKey) (State State' : ProgramState),
    updateConstraintSymLoop C Range Pending VisitedSyms VisitedNullObjs State = Some State' →
    (∀ V, V ∈ VisitedNullObjs → DNOConstraintMap State !! V = Some C) →
    (∀ K, DNOConstraintMap State' !! K
          = if bool_decide (K ∈ Range) then Some C else DNOConstraintMap State !! K)
    ∧ graphOf State' = graphOf State.
Proof.
  induction Range as [|It Range IH];
    intros Pending VisitedSyms VisitedNullObjs State State' H HV;
    cbn [updateConstraintSymLoop] in H.
  - injection H as <-. split; [|reflexivity]. intros K.
    rewrite bool_decide_eq_false_2; [reflexivity|]. apply not_elem_of_nil.
  - destruct (ImmutableSet.contains VisitedNullObjs It) eqn:Hvis.
    + destruct (IH _ _ _ _ _ H HV) as [IH1 IH2]. split; [|exact IH2].
      intros K. rewrite IH1.
      destruct (decide (K ∈ Range)) as [Hin|Hnin].
      * rewrite (bool_decide_eq_true_2 (K ∈ Range)) by assumption.
        now rewrite bool_decide_eq_true_2 by (apply elem_of_cons; now right).
      * rewrite (bool_decide_eq_false_2 (K ∈ Range)) by assumption.
        destruct (decide (K = It)) as [->|Hne].
        -- rewrite bool_decide_eq_true_2 by (apply elem_of_cons; now left).
           apply HV. now apply contains_elem_of.
        -- rewrite bool_decide_eq_false_2; [reflexivity|].
           intros Hin. apply elem_of_cons in Hin as [?|?]; contradiction.
    + set (State1 := set_DNOConstraintMap <[It := C]> State) in *.
      assert (HV1 : ∀ St, DNOConstraintMap St = DNOConstraintMap State1 →
                          ∀ V, V ∈ It :: VisitedNullObjs → DNOConstraintMap St !! V = Some C).
      { intros St HSt V HVin. rewrite HSt. unfold State1. rewrite DNOConstraintMap_insert.
        destruct (decide (V = It)) as [->|Hne].
        - now rewrite bool_decide_eq_true_2.
        - rewrite bool_decide_eq_false_2 by assumption.
          apply elem_of_cons in HVin as [?|HVin]; [contradiction|now apply HV]. }
      assert (Hfinal : ∀ St, DNOConstraintMap St = DNOConstraintMap State1 →
                             graphOf St = graphOf State1 →
                             (∀ K, DNOConstraintMap State' !! K
                                   = if bool_decide (K ∈ Range) then Some C
                                     else DNOConstraintMap St !! K)
                             ∧ graphOf State' = graphOf St →
                             (∀ K, DNOConstraintMap State' !! K
                                   = if bool_decide (K ∈ It :: Range) then Some C
                                     else DNOConstraintMap State !! K)
                             ∧ graphOf State' = graphOf State).
      { intros St HSt HG [H1 H2]. split; [|now rewrite H2, HG].
        intros K. rewrite H1, HSt. unfold State1. rewrite DNOConstraintMap_insert.
        destruct (decide (K ∈ Range)) as [Hin|Hnin].
        - rewrite (bool_decide_eq_true_2 (K ∈ Range)) by assumption.
          now rewrite bool_decide_eq_true_2 by (apply elem_of_cons; now right).
        - rewrite (bool_decide_eq_false_2 (K ∈ Range)) by assumption.
          destruct (decide (K = It)) as [->|Hne].
          + rewrite (bool_decide_eq_true_2 (It = It)) by reflexivity.
            now rewrite bool_decide_eq_true_2 by (apply elem_of_cons; now left).
          + rewrite (bool_decide_eq_false_2 (K = It)) by assumption.
            rewrite bool_decide_eq_false_2; [reflexivity|].
            intros Hin. apply elem_of_cons in Hin as [?|?]; contradiction. }
      destruct (DNOToPtrAliasMap State1 !! It) as [SymAliases|].
      * destruct (updateSymAliases C SymAliases _ VisitedSyms State1)
          as [[[State2 Pending2] VisitedSyms']|] eqn:Hs; [|discriminate H].
        apply updateSymAliases_objects in Hs as [Hs1 Hs2].
        apply (Hfinal State2 Hs1 Hs2). apply (IH _ _ _ _ _ H). now apply HV1.
      * apply (Hfinal State1 eq_refl eq_refl). apply (IH _ _ _ _ _ H). now apply HV1.
Qed.

(** The keys a pointer symbol is aliased to, none for the null symbol. *)
Definition objectsOf (State : ProgramState) (Sym : SymbolRef) : DNOAliasSet :=
  if (Sym =? 0)%N then [] else default [] (PtrToDNOAliasMap State !! Sym).

Lemma updateConstraint_sym_effect (State State' : ProgramState)
    (Sym : SymbolRef) (C : NullConstraint) :
  updateConstraint_sym State Sym C = Some State' →
  (∀ K, DNOConstraintMap State' !! K
        = if bool_decide (K ∈ objectsOf State Sym) then Some C
          else DNOConstraintMap State !! K)
  ∧ graphOf State' = graphOf State
  ∧ (objectsOf State Sym = [] → State' = State).
Proof.
  unfold updateConstraint_sym, objectsOf.
  destruct (Sym =? 0)%N.
  { intros [= <-]. repeat split; auto. }
  destruct (PtrToDNOAliasMap State !! Sym) as [Aliases|]; cbn [default].
  - intros H. split; [|split].
    + refine (proj1 (updateConstraintSymLoop_lookup C Aliases _ _ _ _ _ H _)).
      intros V HV. now apply elem_of_nil in HV.
    + refine (proj2 (updateConstraintSymLoop_lookup C Aliases _ _ _ _ _ H _)).
      intros V HV. now apply elem_of_nil in HV.
    + intros HA. unfold id in HA. subst Aliases. simpl in H. injection H as <-. reflexivity.
  - intros [= <-]. repeat split; auto.
Qed.

(** X16: [updateConstraint(State, Sym, C)] sets the constraint of the nullable
    objects the symbol is aliased to, and of no other key, to [C]; the alias
    graph is unchanged.  For the null symbol and for a symbol that is
    aliased to no object it returns the state as it is.  The update goes on
    with the null state only when the symbol is aliased to an object. *)
Theorem updateConstraint_sym_writes_aliased_objects (State : ProgramState)
    (Sym : SymbolRef) (C : NullConstraint) :
  match updateConstraint_sym State Sym C with
  | Some State' =>
      (∀ K, DNOConstraintMap State' !! K
            = if bool_decide (K ∈ objectsOf State Sym) then Some C
              else DNOConstraintMap State !! K)
      ∧ graphOf State' = graphOf State
      ∧ (objectsOf State Sym = [] → State' = State)
  | None => objectsOf State Sym ≠ []
  end.
Proof.
  destruct (updateConstraint_sym State Sym C) as [State'|] eqn:H.
  - now apply updateConstraint_sym_effect.
  - unfold updateConstraint_sym, objectsOf in *.
    destruct (Sym =? 0)%N; [discriminate H|].
    destruct (PtrToDNOAliasMap State !! Sym) as [[|It Aliases]|]; try discriminate H.
    discriminate.
Qed.

(** ** [alias] between a pointer symbol and a key *)

Definition symbolsOf (State : ProgramState) (K : NullableObjectStateKey) : SymAliasSet :=
  default [] (DNOToPtrAliasMap State !! K).

Lemma symbolsOf_insert (State : ProgramState) (It K : NullableObjectStateKey)
    (A : SymAliasSet) :
  symbolsOf (set_DNOToPtrAliasMap <[It := A]> State) K
  = if bool_decide (K = It) then A else symbolsOf State K.
Proof.
  unfold symbolsOf. cbn [DNOToPtrAliasMap set_DNOToPtrAliasMap].
  destruct (decide (K = It)) as [->|Hne].
  - rewrite lookup_insert_eq. now rewrite bool_decide_eq_true_2.
  - rewrite lookup_insert_ne by congruence. now rewrite bool_decide_eq_false_2.
Qed.

Lemma aliasSymLoop_frame (Sym : SymbolRef) (Range : list NullableObjectStateKey) :
  ∀ (Pending Visited : list NullableObjectStateKey) (State : ProgramState),
    DNOConstraintMap (aliasSymLoop Sym Range Pending Visited State) = DNOConstraintMap State
    ∧ DNOAliasMap (aliasSymLoop Sym Range Pending Visited State) = DNOAliasMap State
    ∧ PtrToDNOAliasMap (aliasSymLoop Sym Range Pending Visited State)
      = PtrToDNOAliasMap State.
Proof.
  induction Range as [|It Range IH]; intros Pending Visited State; [auto|].
  cbn [aliasSymLoop]. destruct (ImmutableSet.contains Visited It); [apply IH|].
  destruct (IH (Pending ++ default [] (DNOAliasMap
                                         (set_DNOToPtrAliasMap
                                            <[It := ImmutableSet.add
                                                      (default ImmutableSet.getEmptySet
                                                         (DNOToPtrAliasMap State !! It)) Sym]>
                                            State) !! It))
              (It :: Visited)
              (set_DNOToPtrAliasMap
                 <[It := ImmutableSet.add
                           (default ImmutableSet.getEmptySet (DNOToPtrAliasMap State !! It))
                           Sym]> State)) as (H1 & H2 & H3).
  rewrite H1, H2, H3. auto.
Qed.

Lemma aliasSymLoop_grows (Sym : SymbolRef) (Range : list NullableObjectStateKey) :
  ∀ (Pending Visited : list NullableObjectStateKey) (State : ProgramState)
    (K : NullableObjectStateKey) (x : SymbolRef),
    x ∈ symbolsOf State K →
    x ∈ symbolsOf (aliasSymLoop Sym Range Pending Visited State) K.
Proof.
  induction Range as [|It Range IH]; intros Pending Visited State K x Hx; [auto|].
  cbn [aliasSymLoop]. destruct (ImmutableSet.contains Visited It); [now apply IH|].
  apply IH. rewrite symbolsOf_insert.
  destruct (decide (K = It)) as [->|Hne].
  - rewrite bool_decide_eq_true_2 by reflexivity. apply elem_of_add. now right.
  - now rewrite bool_decide_eq_false_2 by assumption.
Qed.

Lemma aliasSymLoop_range (Sym : SymbolRef) (Range : list NullableObjectStateKey) :
  ∀ (Pending Visited : list NullableObjectStateKey) (State : ProgramState)
    (K : NullableObjectStateKey),
    (∀ V, V ∈ Visited → Sym ∈ symbolsOf State V) →
    K ∈ Range →
    Sym ∈ symbolsOf (aliasSymLoop Sym Range Pending Visited State) K.
Proof.
  induction Range as [|It Range IH]; intros Pending Visited State K HV HK;
    [now apply elem_of_nil in HK|].
  cbn [aliasSymLoop].
  destruct (ImmutableSet.contains Visited It) eqn:Hvis.
  { apply elem_of_cons in HK as [->|HK]; [|now apply IH].
    apply aliasSymLoop_grows. apply HV. now apply contains_elem_of. }
  set (State1 := set_DNOToPtrAliasMap _ State).
  assert (Hstep : ∀ V, V ∈ It :: Visited → Sym ∈ symbolsOf State1 V).
  { intros V HVin. unfold State1. rewrite symbolsOf_insert.
    destruct (decide (V = It)) as [->|HVne].
    - rewrite bool_decide_eq_true_2 by reflexivity. apply elem_of_add. now left.
    - rewrite bool_decide_eq_false_2 by assumption.
      apply elem_of_cons in HVin as [?|HVin]; [contradiction|now apply HV]. }
  apply elem_of_cons in HK as [->|HK]; [|now apply IH].
  apply aliasSymLoop_grows. apply Hstep. apply elem_of_cons. now left.
Qed.

(** X17: [alias(State, Sym, K)] records [K] among the objects of [Sym] and
    [Sym] among the symbols of [K] and of every object [Sym] was aliased to
    before; no object loses a symbol, and the constraints and the alias sets
    between objects are unchanged.  For the null symbol or the null key it
    returns the state as it is. *)
Theorem alias_sym_links_symbol_and_object (State : ProgramState) (Sym : SymbolRef)
    (K : NullableObjectStateKey) :
  (Sym = 0 ∨ K = 0 → alias_sym State Sym K = State)
  ∧ (Sym ≠ 0 → K ≠ 0 →
     (∀ K', K' ∈ objectsOf (alias_sym State Sym K) Sym ↔ K' = K ∨ K' ∈ objectsOf State Sym)
     ∧ (∀ K', K' ∈ objectsOf (alias_sym State Sym K) Sym →
              Sym ∈ symbolsOf (alias_sym State Sym K) K')
     ∧ (∀ K' x, x ∈ symbolsOf State K' → x ∈ symbolsOf (alias_sym State Sym K) K')
     ∧ DNOConstraintMap (alias_sym State Sym K) = DNOConstraintMap State
     ∧ DNOAliasMap (alias_sym State Sym K) = DNOAliasMap State).
Proof.
  unfold alias_sym. split.
  - intros [-> | ->]; [reflexivity|]. now rewrite orb_true_r.
  - intros HS HK.
    destruct (N.eqb_spec Sym 0) as [?|_]; [contradiction|].
    destruct (N.eqb_spec K 0) as [?|_]; [contradiction|]. cbn [orb].
    set (Old := default ImmutableSet.getEmptySet (PtrToDNOAliasMap State !! Sym)).
    set (State1 := set_PtrToDNOAliasMap <[Sym := ImmutableSet.add Old K]> State).
    destruct (aliasSymLoop_frame Sym (ImmutableSet.add Old K) (ImmutableSet.add Old K) []
                State1) as (F1 & F2 & F3).
    assert (Hobj : objectsOf (aliasSymLoop Sym (ImmutableSet.add Old K)
                                (ImmutableSet.add Old K) [] State1) Sym
                   = ImmutableSet.add Old K).
    { unfold objectsOf. destruct (N.eqb_spec Sym 0) as [?|_]; [contradiction|].
      rewrite F3. unfold State1. cbn [PtrToDNOAliasMap set_PtrToDNOAliasMap].
      now rewrite lookup_insert_eq. }
    assert (Hold : objectsOf State Sym = Old).
    { unfold objectsOf. destruct (N.eqb_spec Sym 0) as [?|_]; [contradiction|]. reflexivity. }
    split; [|split; [|split; [|split]]].
    + intros K'. rewrite Hobj, Hold. apply elem_of_add.
    + intros K' HK'. rewrite Hobj in HK'.
      apply aliasSymLoop_range; [|exact HK']. intros V HV. now apply elem_of_nil in HV.
    + intros K' x Hx. now apply aliasSymLoop_grows.
    + now rewrite F1.
    + now rewrite F2.
Qed.

End GraphFacts.

(* ===================================================================== *)
(** * Nullable objects: comparisons, conversions, assignments              *)
(* ===================================================================== *)

Module ObjectFacts.
Import AST Core dno Objects Spec GraphFacts.
Local Open Scope N_scope.

Lemma negateNullConstraint_involutive (C : NullConstraint) :
  negateNullConstraint (negateNullConstraint C) = C.
Proof. destruct C; reflexivity. Qed.

Lemma updateConstraint_own_key (State State' : ProgramState) (K : NullableObjectStateKey)
    (C : NullConstraint) :
  updateConstraint State K C = Some State' → DNOConstraintMap State' !! K = Some C.
Proof.
  intros H. apply updateConstraint_effect in H as [H _]. rewrite H.
  now rewrite bool_decide_eq_true_2 by now left.
Qed.

Lemma updateConstraint_after_create (State : ProgramState) (K : NullableObjectStateKey)
    (C0 C : NullConstraint) :
  updateConstraint (createConstraint State K C0) K C = None →
  DNOToPtrAliasMap State !! K ≠ None.
Proof.
  intros H HN.
  destruct (updateConstraint_defined (createConstraint State K C0) K C HN) as [St HSt].
  congruence.
Qed.

Lemma updateConstraint_undefined (State : ProgramState) (K : NullableObjectStateKey)
    (C : NullConstraint) :
  updateConstraint State K C = None → DNOToPtrAliasMap State !! K ≠ None.
Proof.
  intros H HN. destruct (updateConstraint_defined State K C HN) as [St HSt]. congruence.
Qed.

(** ** Comparison with the null constant *)

Definition decidedBy (IsEq b : bool) : NullConstraint :=
  if Bool.eqb b IsEq then IsNull else IsNotNull.

Lemma compareWithNull_decides (IsEq : bool) (K : NullableObjectStateKey)
    (State : ProgramState) :
  match compareWithNull IsEq K State with
  | Some (Evaluated Ts) =>
      (∀ b St, In (Some b, St) Ts → DNOConstraintMap St !! K = Some (decidedBy IsEq b))
      ∧ match DNOConstraintMap State !! K with
        | Some IsNull => Ts = [(Some IsEq, State)]
        | Some IsNotNull => Ts = [(Some (negb IsEq), State)]
        | _ => ∃ T F, Ts = [(Some true, T); (Some false, F)]
        end
  | Some (Passed _) => False
  | None => DNOToPtrAliasMap State !! K ≠ None
  end.
Proof.
  unfold compareWithNull.
  assert (Hfork : ∀ St0, (St0 = State ∨ St0 = createConstraint State K Unknown) →
            match
              match updateConstraint St0 K (if IsEq then IsNull else IsNotNull) with
              | Some IsTrueState =>
                  match updateConstraint St0 K
                          (negateNullConstraint (if IsEq then IsNull else IsNotNull)) with
                  | Some IsFalseState =>
                      Some (Evaluated [(Some true, IsTrueState); (Some false, IsFalseState)])
                  | None => None
                  end
              | None => None
              end
            with
            | Some (Evaluated Ts) =>
                (∀ b St, In (Some b, St) Ts →
                         DNOConstraintMap St !! K = Some (decidedBy IsEq b))
                ∧ ∃ T F, Ts = [(Some true, T); (Some false, F)]
            | Some (Passed _) => False
            | None => DNOToPtrAliasMap State !! K ≠ None
            end).
  { intros St0 HSt0.
    assert (Hundef : ∀ C, updateConstraint St0 K C = None →
                          DNOToPtrAliasMap State !! K ≠ None).
    { intros C HC. destruct HSt0 as [-> | ->];
        [now apply updateConstraint_undefined in HC
        |now apply updateConstraint_after_create in HC]. }
    destruct (updateConstraint St0 K (if IsEq then IsNull else IsNotNull)) as [T|] eqn:HT;
      [|now apply Hundef in HT].
    destruct (updateConstraint St0 K (negateNullConstraint (if IsEq then IsNull else IsNotNull)))
      as [F|] eqn:HF; [|now apply Hundef in HF].
    split; [|eauto].
    intros b St [Hin|[Hin|[]]]; injection Hin as <- <-.
    - rewrite (updateConstraint_own_key _ _ _ _ HT). now destruct IsEq.
    - rewrite (updateConstraint_own_key _ _ _ _ HF). now destruct IsEq. }
  destruct (DNOConstraintMap State !! K) as [[| |]|] eqn:HK.
  - split; [|now destruct IsEq].
    intros b St Hin. destruct IsEq; destruct Hin as [Hin|[]]; injection Hin as <- <-;
      exact HK.
  - split; [|now destruct IsEq].
    intros b St Hin. destruct IsEq; destruct Hin as [Hin|[]]; injection Hin as <- <-;
      exact HK.
  - apply (Hfork State). now left.
  - apply (Hfork (createConstraint State K Unknown)). now right.
Qed.

(** X18: Comparing a nullable object with the null constant, with [==] or [!=]
    and the constant on either side: when the constraint recorded for the
    object is [IsNull] or [IsNotNull] the hook hands on the state unchanged
    with the one truth value that agrees with it; when it is [Unknown] or
    missing the path forks into a state for each truth value.  In every
    state handed on the constraint of the object says what the truth value
    bound to the comparison says.  The block is undefined only when symbols
    are aliased to the object. *)
Theorem comparison_with_null_decides_the_object (Key : SVal → NullableObjectStateKey)
    (Op : OverloadedOperatorKind) (LHSVal RHSVal : SVal) (State : ProgramState)
    (K : NullableObjectStateKey) :
  LHSVal ≠ RHSVal → K ≠ 0 →
  (isZeroConstant LHSVal = true ∧ Key RHSVal = K)
  ∨ (isZeroConstant RHSVal = true ∧ Key LHSVal = K
     ∧ (isZeroConstant LHSVal = false ∨ Key RHSVal = 0)) →
  match evalCall_comparison Key Op LHSVal RHSVal State with
  | Some (Evaluated Ts) =>
      (∀ b St, In (Some b, St) Ts →
               DNOConstraintMap St !! K
               = Some (decidedBy (OverloadedOperatorKind_eqb Op OO_EqualEqual) b))
      ∧ match DNOConstraintMap State !! K with
        | Some IsNull => Ts = [(Some (OverloadedOperatorKind_eqb Op OO_EqualEqual), State)]
        | Some IsNotNull =>
            Ts = [(Some (negb (OverloadedOperatorKind_eqb Op OO_EqualEqual)), State)]
        | _ => ∃ T F, Ts = [(Some true, T); (Some false, F)]
        end
  | Some (Passed _) => False
  | None => DNOToPtrAliasMap State !! K ≠ None
  end.
Proof.
  intros Hne HK Hside. unfold evalCall_comparison.
  rewrite bool_decide_eq_false_2 by assumption.
  destruct Hside as [[HZ <-] | (HZ & <- & Hleft)].
  - rewrite HZ. destruct (N.eqb_spec (Key RHSVal) 0) as [?|_]; [contradiction|]. simpl.
    apply compareWithNull_decides.
  - assert (Hfirst : isZeroConstant LHSVal && negb (Key RHSVal =? 0) = false).
    { destruct Hleft as [-> | ->]; [reflexivity|]. now rewrite andb_false_r. }
    rewrite Hfirst, HZ. destruct (N.eqb_spec (Key LHSVal) 0) as [?|_]; [contradiction|]. simpl.
    apply compareWithNull_decides.
Qed.

(** The key of a value: the address of its region, and the null key for a
    constant. *)
Definition exampleKey (V : SVal) : NullableObjectStateKey :=
  match V with
  | loc_MemRegionVal (NonParamVarRegion D) => Npos (VarId D)
  | _ => 0
  end.

Definition object_x : SVal :=
  loc_MemRegionVal (NonParamVarRegion (mkVar 1%positive (RecordType 1%positive NoQuals))).

Lemma comparison_with_null_decides_the_object_witness :
  match evalCall_comparison exampleKey OO_ExclaimEqual object_x (loc_ConcreteInt 0)
          (emptyState CheckerFacts.U0) with
  | Some (Evaluated Ts) =>
      (∀ b St, In (Some b, St) Ts →
               DNOConstraintMap St !! 1 = Some (decidedBy false b))
      ∧ ∃ T F, Ts = [(Some true, T); (Some false, F)]
  | _ => False
  end.
Proof.
  pose proof (comparison_with_null_decides_the_object exampleKey OO_ExclaimEqual object_x
                (loc_ConcreteInt 0) (emptyState CheckerFacts.U0) 1) as H.
  assert (H1 : object_x ≠ loc_ConcreteInt 0) by discriminate.
  assert (H2 : (1 : N) ≠ 0) by discriminate.
  specialize (H H1 H2 (or_intror (conj eq_refl (conj eq_refl (or_introl eq_refl))))).
  exact H.
Defined.

(** ** A dereference after a null check *)

(** X19: A dereference of a nullable object through [operator*], [operator->] or
    [operator->*] is accepted exactly when the constraint recorded for the
    object is [IsNotNull]: an object without a recorded constraint is
    reported.  After a comparison of the object with the null constant the
    dereference is accepted in the states where the comparison says that the
    object is not null and reported in the others. *)
Theorem dereference_needs_a_null_check (Ctx : ASTContext)
    (Key : SVal → NullableObjectStateKey) (TargetSVal : SVal) (IsEq : bool)
    (State : ProgramState) :
  isUnknownOrUndef TargetSVal = false → isNonNullableGLValLoc Ctx TargetSVal = false →
  (checkCalleeExpr_operator Ctx Key TargetSVal State = None
   ↔ DNOConstraintMap State !! Key TargetSVal = Some IsNotNull)
  ∧ (DNOConstraintMap State !! Key TargetSVal = None →
     checkCalleeExpr_operator Ctx Key TargetSVal State = Some BugNullablePointerDereference)
  ∧ (∀ Ts b St, compareWithNull IsEq (Key TargetSVal) State = Some (Evaluated Ts) →
                In (Some b, St) Ts →
                checkCalleeExpr_operator Ctx Key TargetSVal St
                = if Bool.eqb b IsEq then Some BugNullablePointerDereference else None).
Proof.
  intros HU HNN.
  assert (Hderef : ∀ St, checkCalleeExpr_operator Ctx Key TargetSVal St
                         = match DNOConstraintMap St !! Key TargetSVal with
                           | Some IsNotNull => None
                           | _ => Some BugNullablePointerDereference
                           end).
  { intros St. unfold checkCalleeExpr_operator. now rewrite HU, HNN. }
  split; [|split].
  - rewrite Hderef. destruct (DNOConstraintMap State !! Key TargetSVal) as [[| |]|];
      split; congruence.
  - intros H. rewrite Hderef. now rewrite H.
  - intros Ts b St HC Hin.
    pose proof (compareWithNull_decides IsEq (Key TargetSVal) State) as Hd.
    rewrite HC in Hd. destruct Hd as [Hd _]. rewrite Hderef, (Hd b St Hin).
    unfold decidedBy. now destruct (Bool.eqb b IsEq).
Qed.

Lemma dereference_needs_a_null_check_witness :
  checkCalleeExpr_operator CheckerFacts.anyContext exampleKey object_x
    (emptyState CheckerFacts.U0)
  = Some BugNullablePointerDereference.
Proof.
  exact (proj1 (proj2 (dereference_needs_a_null_check CheckerFacts.anyContext exampleKey
                         object_x true (emptyState CheckerFacts.U0) eq_refl eq_refl))
           eq_refl).
Defined.

(** ** The conversion to [bool] *)

(** X20: The conversion of a nullable object to [bool] forks the path whatever
    constraint is recorded for the object: into a state where the conversion
    yields [true] and the object and the keys of its alias set are
    [IsNotNull], and a state where it yields [false] and they are [IsNull];
    the alias graph is the same in both. *)
Theorem bool_conversion_always_forks (Key : SVal → NullableObjectStateKey)
    (TargetSVal : SVal) (State : ProgramState) :
  Key TargetSVal ≠ 0 →
  match evalCall_boolConversion Key TargetSVal State with
  | Some (Evaluated Ts) =>
      ∃ IsNotNullState IsNullState,
        Ts = [(Some true, IsNotNullState); (Some false, IsNullState)]
        ∧ (∀ K, K = Key TargetSVal ∨ K ∈ aliasesOf State (Key TargetSVal) →
                DNOConstraintMap IsNotNullState !! K = Some IsNotNull
                ∧ DNOConstraintMap IsNullState !! K = Some IsNull)
        ∧ graphOf IsNotNullState = graphOf State ∧ graphOf IsNullState = graphOf State
  | Some (Passed _) => False
  | None => DNOToPtrAliasMap State !! Key TargetSVal ≠ None
  end.
Proof.
  intros HK. unfold evalCall_boolConversion.
  destruct (N.eqb_spec (Key TargetSVal) 0) as [?|_]; [contradiction|]. simpl.
  destruct (updateConstraint State (Key TargetSVal) IsNotNull) as [NN|] eqn:H1;
    [|now apply updateConstraint_undefined in H1].
  destruct (updateConstraint State (Key TargetSVal) IsNull) as [NL|] eqn:H2;
    [|now apply updateConstraint_undefined in H2].
  apply updateConstraint_effect in H1 as [H1 G1].
  apply updateConstraint_effect in H2 as [H2 G2].
  exists NN, NL. repeat split; auto.
  - rewrite H1. now rewrite bool_decide_eq_true_2.
  - rewrite H2. now rewrite bool_decide_eq_true_2.
Qed.

Lemma bool_conversion_always_forks_witness :
  match evalCall_boolConversion exampleKey object_x
          (createConstraint (emptyState CheckerFacts.U0) 1 IsNull) with
  | Some (Evaluated Ts) =>
      ∃ IsNotNullState IsNullState,
        Ts = [(Some true, IsNotNullState); (Some false, IsNullState)]
        ∧ DNOConstraintMap IsNotNullState !! 1 = Some IsNotNull
  | _ => False
  end.
Proof.
  pose proof (bool_conversion_always_forks exampleKey object_x
                (createConstraint (emptyState CheckerFacts.U0) 1 IsNull)) as H.
  assert (H1 : exampleKey object_x ≠ 0) by discriminate.
  specialize (H H1). cbv beta in H.
  destruct (evalCall_boolConversion exampleKey object_x
              (createConstraint (emptyState CheckerFacts.U0) 1 IsNull)) as [[Ts|St]|];
    [|exact H|exact (H eq_refl)].
  destruct H as (NN & NL & HT & HC & _). exists NN, NL. split; [exact HT|].
  exact (proj1 (HC 1 (or_introl eq_refl))).
Defined.

(** ** Assignment, copy construction and calls that are not [const] *)

Lemma setAliasLoop_Constraints (LK : NullableObjectStateKey) (Break : bool)
    (Range : list NullableObjectStateKey) :
  ∀ (Pending Visited : list NullableObjectStateKey) (State : ProgramState),
    Constraints (setAliasLoop LK Break Range Pending Visited State) = Constraints State.
Proof.
  induction Range as [|It Range IH]; intros Pending Visited State; [reflexivity|].
  cbn [setAliasLoop].
  destruct (It =? LK); [apply IH|].
  destruct (ImmutableSet.contains Visited It); [apply IH|].
  destruct (DNOAliasMap State !! It); [now rewrite IH|].
  destruct Break; now rewrite IH.
Qed.

Lemma setAliasInternal_Constraints (State : ProgramState) (LK RK : NullableObjectStateKey)
    (Break : bool) :
  Constraints (setAliasInternal State LK RK Break) = Constraints State.
Proof.
  unfold setAliasInternal.
  destruct (DNOAliasMap State !! LK) as [Aliases|].
  - apply setAliasLoop_Constraints.
  - destruct Break; [reflexivity|].
    match goal with
    | |- context [DNOAliasMap ?S1 !! LK] => destruct (DNOAliasMap S1 !! LK)
    end; [rewrite setAliasLoop_Constraints|]; reflexivity.
Qed.

Lemma breakAliases_Constraints (State : ProgramState) (LK : NullableObjectStateKey) :
  Constraints (breakAliases State LK) = Constraints State.
Proof.
  unfold breakAliases. destruct (DNOAliasMap State !! LK) as [Aliases|]; [|reflexivity].
  revert State. induction Aliases as [|K Aliases IH]; intros State; simpl; [reflexivity|].
  rewrite IH. unfold breakAlias. now rewrite !setAliasInternal_Constraints.
Qed.

Lemma getNullConstraint_Constraints (V : SVal) (State State' : ProgramState) :
  Constraints State' = Constraints State →
  getNullConstraint V State' = getNullConstraint V State.
Proof. intros H. unfold getNullConstraint, isNull. now rewrite H. Qed.

Lemma alias_constraints (State : ProgramState) (K AliasK : NullableObjectStateKey) :
  DNOConstraintMap (alias State K AliasK)
  = match DNOConstraintMap State !! AliasK with
    | Some AC => <[K := AC]> (DNOConstraintMap State)
    | None => DNOConstraintMap State
    end.
Proof.
  unfold alias. destruct (DNOConstraintMap State !! AliasK) as [AC|]; [|reflexivity].
  now rewrite AliasFacts.addAlias_constraints.
Qed.

(** X21: An assignment to a nullable object writes the constraint of the assigned
    object only, whatever is aliased to it: [IsNull] when the right operand
    is the null constant, the constraint of the value when it is a raw
    pointer, and the constraint recorded for the right operand when that is
    a nullable object (nothing when none is recorded).  No alias set gains a
    key when the right operand is the null constant or a raw pointer.  A
    self-assignment is evaluated without a transition. *)
Theorem assignment_writes_the_assigned_object (Ctx : ASTContext)
    (Key : SVal → NullableObjectStateKey) (RHSType : QualType) (LHSVal RHSVal : SVal)
    (State : ProgramState) :
  evalCall_assignment Ctx Key RHSType LHSVal LHSVal State = Some (Evaluated [])
  ∧ (LHSVal ≠ RHSVal →
     match evalCall_assignment Ctx Key RHSType LHSVal RHSVal State with
     | Some (Evaluated Ts) =>
         ∃ State',
           Ts = [(None, State')]
           ∧ DNOConstraintMap State'
             = (if isZeroConstant RHSVal then <[Key LHSVal := IsNull]> (DNOConstraintMap State)
                else if isNakedRawPointerType RHSType
                     then <[Key LHSVal := getNullConstraint RHSVal State]>
                            (DNOConstraintMap State)
                     else match DNOConstraintMap State !! Key RHSVal with
                          | Some AC => <[Key LHSVal := AC]> (DNOConstraintMap State)
                          | None => DNOConstraintMap State
                          end)
           ∧ (isZeroConstant RHSVal = true ∨ isNakedRawPointerType RHSType = true →
              ∀ K x, x ∈ aliasesOf State' K → x ∈ aliasesOf State K)
     | Some (Passed State') =>
         isZeroConstant RHSVal = false ∧ isNakedRawPointerType RHSType = false
         ∧ State' = breakAliases State (Key LHSVal)
     | None => isZeroConstant RHSVal = false ∧ isNakedRawPointerType RHSType = false
     end).
Proof.
  split.
  - unfold evalCall_assignment. now rewrite bool_decide_eq_true_2.
  - intros Hne. unfold evalCall_assignment. rewrite bool_decide_eq_false_2 by assumption.
    destruct (isZeroConstant RHSVal).
    { eexists. split; [reflexivity|]. split.
      - cbn [DNOConstraintMap createConstraint set_DNOConstraintMap].
        now rewrite AliasFacts.breakAliases_constraints.
      - intros _ K x Hx.
        apply (proj1 (proj2 (proj2 (breakAliases_effect State (Key LHSVal)))) K x Hx). }
    destruct (isNakedRawPointerType RHSType).
    { eexists. split; [reflexivity|]. split.
      - cbn [DNOConstraintMap createConstraint set_DNOConstraintMap].
        rewrite AliasFacts.breakAliases_constraints.
        now rewrite (getNullConstraint_Constraints _ _ _ (breakAliases_Constraints _ _)).
      - intros _ K x Hx.
        apply (proj1 (proj2 (proj2 (breakAliases_effect State (Key LHSVal)))) K x Hx). }
    destruct (getCXXRecordFromType RHSType) as [RHSRec|]; [|auto].
    destruct (isNullableObject (getRecordDecl Ctx RHSRec)) as [[|]|]; auto.
    eexists. split; [reflexivity|]. split; [|intros [H|H]; discriminate H].
    rewrite alias_constraints. now rewrite AliasFacts.breakAliases_constraints.
Qed.

(** X22: After the copy constructor of a nullable-object class the copy has the
    constraint of the original, [Unknown] when none was recorded for the
    original, and no other constraint has changed; when no alias set was
    recorded for the copy, the copy and the original are in the alias set of
    each other.  After a member function or operator that is not [const]
    the constraint of the object is [Unknown], no other constraint has
    changed, and no alias set has gained a key. *)
Theorem calls_on_nullable_objects (State : ProgramState)
    (CopyKey OrigKey TargetKey : NullableObjectStateKey) :
  (DNOConstraintMap (checkPostCall_copyConstruction CopyKey OrigKey State)
   = <[CopyKey := default Unknown (DNOConstraintMap State !! OrigKey)]>
       (<[OrigKey := default Unknown (DNOConstraintMap State !! OrigKey)]>
          (DNOConstraintMap State))
   ∧ (CopyKey ≠ OrigKey → DNOAliasMap State !! CopyKey = None →
      OrigKey ∈ aliasesOf (checkPostCall_copyConstruction CopyKey OrigKey State) CopyKey
      ∧ CopyKey ∈ aliasesOf (checkPostCall_copyConstruction CopyKey OrigKey State) OrigKey))
  ∧ (TargetKey ≠ 0 →
     DNOConstraintMap (checkPostCall_nonConstCall TargetKey State)
     = <[TargetKey := Unknown]> (DNOConstraintMap State)
     ∧ ∀ K x, x ∈ aliasesOf (checkPostCall_nonConstCall TargetKey State) K →
              x ∈ aliasesOf State K).
Proof.
  split; [split|].
  - unfold checkPostCall_copyConstruction. rewrite alias_constraints.
    destruct (DNOConstraintMap State !! OrigKey) as [C|] eqn:HO.
    + rewrite HO. cbn [default]. f_equal. symmetry. now apply insert_id.
    + cbn [DNOConstraintMap createConstraint set_DNOConstraintMap].
      now rewrite lookup_insert_eq.
  - intros Hne Hfresh. unfold checkPostCall_copyConstruction.
    set (State1 := match DNOConstraintMap State !! OrigKey with
                   | Some _ => State
                   | None => createConstraint State OrigKey Unknown
                   end).
    assert (HC : ∃ AC, DNOConstraintMap State1 !! OrigKey = Some AC).
    { unfold State1. destruct (DNOConstraintMap State !! OrigKey) as [C|] eqn:HO; [eauto|].
      exists Unknown. cbn [DNOConstraintMap createConstraint set_DNOConstraintMap].
      apply lookup_insert_eq. }
    assert (HA : DNOAliasMap State1 !! CopyKey = None).
    { unfold State1. now destruct (DNOConstraintMap State !! OrigKey). }
    destruct HC as [AC HC].
    apply (proj2 (proj2 (alias_effect State1 CopyKey OrigKey AC HC)) Hne). now left.
  - intros HT. unfold checkPostCall_nonConstCall.
    destruct (N.eqb_spec TargetKey 0) as [?|_]; [contradiction|]. simpl. split.
    + cbn [DNOConstraintMap createConstraint set_DNOConstraintMap].
      now rewrite AliasFacts.breakAliases_constraints.
    + intros K x Hx.
      apply (proj1 (proj2 (proj2 (breakAliases_effect State TargetKey))) K x Hx).
Qed.

(** ** Comparison of two nullable objects *)

Lemma addAlias_links (State : ProgramState) (LK RK : NullableObjectStateKey) :
  LK ≠ RK → DNOAliasMap State !! LK = None ∨ DNOAliasMap State !! RK = None →
  RK ∈ aliasesOf (addAlias State LK RK) LK ∧ LK ∈ aliasesOf (addAlias State LK RK) RK.
Proof.
  intros Hne Hfresh. unfold addAlias.
  apply and_comm. apply (setAliasInternal_add_links _ RK LK Hne).
  apply (setAliasInternal_add_first State LK RK Hne Hfresh).
Qed.

(** The two transitions of a comparison that forks: [Same] is the state in
    which the operands are equal, [Differ] the one in which they are not. *)
Definition fork (IsEq : bool) (Same Differ : ProgramState)
    : list (option bool * ProgramState) :=
  [(Some true, if IsEq then Same else Differ); (Some false, if IsEq then Differ else Same)].

Definition recorded (State : ProgramState) (K : NullableObjectStateKey) : NullConstraint :=
  default Unknown (DNOConstraintMap State !! K).

Ltac solve_fork LK RK State :=
  repeat match goal with
  | |- context [updateConstraint ?St ?K ?C] =>
      let H := fresh "Hu" in destruct (updateConstraint St K C) eqn:H
  end;
  [ eexists _, _; unfold fork; repeat split; try reflexivity;
    eapply updateConstraint_own_key; eassumption
  | match goal with
    | H : updateConstraint _ LK _ = None |- _ =>
        apply updateConstraint_undefined in H; left; split; [reflexivity | exact H]
    | H : updateConstraint _ RK _ = None |- _ =>
        apply updateConstraint_undefined in H; right; split; [reflexivity | exact H]
    end .. ].

Ltac solve_lookup LK RK :=
  unfold createConstraint; rewrite ?DNOConstraintMap_insert;
  repeat case_bool_decide; first [reflexivity | assumption | congruence].

Ltac solve_both LK RK State :=
  match goal with
  | |- context [addAlias ?St LK RK] =>
      exists (addAlias St LK RK), St; unfold fork;
      rewrite (AliasFacts.addAlias_constraints St LK RK);
      split; [reflexivity|];
      split; [solve_lookup LK RK|];
      split; [solve_lookup LK RK|];
      split; [reflexivity|];
      split; [reflexivity|];
      exact (addAlias_links St LK RK)
  end.

(** What the comparison of the objects [LK] and [RK] hands back.  When both
    constraints are decided there is one transition, on the state as it is,
    and the truth value says whether the two constraints are the same.
    When one is decided and the other is not, the comparison forks and the
    undecided object gets the constraint of the other in [Same] and the
    opposite one in [Differ].  When neither is decided the comparison forks,
    the two states have the same constraints, [Differ] has the alias sets of
    the state, and in [Same] each object is in the alias set of the other
    when one of them had no alias set.  The comparison is undefined only
    when symbols are aliased to an undecided operand. *)
Definition objectsCompared (IsEq : bool) (LK RK : NullableObjectStateKey)
    (State : ProgramState) (E : option Evaluation) : Prop :=
  match E with
  | Some (Evaluated Ts) =>
      match recorded State LK, recorded State RK with
      | Unknown, Unknown =>
          ∃ Same Differ,
            Ts = fork IsEq Same Differ
            ∧ DNOConstraintMap Same !! LK = Some Unknown
            ∧ DNOConstraintMap Same !! RK = Some Unknown
            ∧ DNOConstraintMap Differ = DNOConstraintMap Same
            ∧ DNOAliasMap Differ = DNOAliasMap State
            ∧ (LK ≠ RK →
               DNOAliasMap State !! LK = None ∨ DNOAliasMap State !! RK = None →
               RK ∈ aliasesOf Same LK ∧ LK ∈ aliasesOf Same RK)
      | Unknown, R =>
          ∃ Same Differ,
            Ts = fork IsEq Same Differ
            ∧ DNOConstraintMap Same !! LK = Some R
            ∧ DNOConstraintMap Differ !! LK = Some (negateNullConstraint R)
      | L, Unknown =>
          ∃ Same Differ,
            Ts = fork IsEq Same Differ
            ∧ DNOConstraintMap Same !! RK = Some L
            ∧ DNOConstraintMap Differ !! RK = Some (negateNullConstraint L)
      | L, R => Ts = [(Some (Bool.eqb IsEq (bool_decide (L = R))), State)]
      end
  | Some (Passed _) => False
  | None =>
      (recorded State LK = Unknown ∧ DNOToPtrAliasMap State !! LK ≠ None)
      ∨ (recorded State RK = Unknown ∧ DNOToPtrAliasMap State !! RK ≠ None)
  end.

Lemma compareKeys_effect (IsEq : bool) (LK RK : NullableObjectStateKey)
    (State : ProgramState) :
  objectsCompared IsEq LK RK State (compareKeys IsEq LK RK State).
Proof.
  unfold objectsCompared, compareKeys, recorded.
  destruct (DNOConstraintMap State !! LK) as [L|] eqn:HL;
    destruct (DNOConstraintMap State !! RK) as [R|] eqn:HR; cbn [default];
    try destruct L; try destruct R; destruct IsEq;
    cbv zeta iota beta; cbn [negateNullConstraint]; unfold id;
    try reflexivity; try solve_fork LK RK State; solve_both LK RK State.
Qed.

(** X23: A comparison with [==] or [!=] of two nullable objects, neither of them
    the null constant.  When the constraints of both are decided the
    comparison does not fork: [==] is true exactly when the two constraints
    are the same, so that two objects that are both not null compare equal.
    When one constraint is decided the comparison forks and the undecided
    object takes the constraint of the other in the state where they are
    equal, the opposite one where they differ.  When neither is decided it
    forks and the objects are aliased in the state where they are equal. *)
Theorem comparison_of_two_objects (Key : SVal → NullableObjectStateKey)
    (Op : OverloadedOperatorKind) (LHSVal RHSVal : SVal) (State : ProgramState) :
  LHSVal ≠ RHSVal → isZeroConstant LHSVal = false → isZeroConstant RHSVal = false →
  Key LHSVal ≠ 0 → Key RHSVal ≠ 0 →
  objectsCompared (OverloadedOperatorKind_eqb Op OO_EqualEqual) (Key LHSVal) (Key RHSVal)
    State (evalCall_comparison Key Op LHSVal RHSVal State).
Proof.
  intros Hne HL HR HLK HRK. unfold evalCall_comparison.
  rewrite bool_decide_eq_false_2 by assumption. rewrite HL, HR.
  destruct (N.eqb_spec (Key LHSVal) 0) as [?|_]; [contradiction|].
  destruct (N.eqb_spec (Key RHSVal) 0) as [?|_]; [contradiction|].
  cbn [andb negb]. apply compareKeys_effect.
Qed.

Definition object_y : SVal :=
  loc_MemRegionVal (NonParamVarRegion (mkVar 2%positive (RecordType 1%positive NoQuals))).

Definition bothNotNull : ProgramState :=
  createConstraint (createConstraint (emptyState CheckerFacts.U0) 1 IsNotNull) 2 IsNotNull.

Lemma comparison_of_two_objects_witness :
  evalCall_comparison exampleKey OO_EqualEqual object_x object_y bothNotNull
  = Some (Evaluated [(Some true, bothNotNull)]).
Proof.
  pose proof (comparison_of_two_objects exampleKey OO_EqualEqual object_x object_y
                bothNotNull) as H.
  assert (H1 : object_x ≠ object_y) by discriminate.
  assert (H2 : (1 : N) ≠ 0) by discriminate.
  assert (H3 : (2 : N) ≠ 0) by discriminate.
  specialize (H H1 eq_refl eq_refl H2 H3).
  destruct (evalCall_comparison exampleKey OO_EqualEqual object_x object_y bothNotNull)
    as [[Ts|St]|]; [|destruct H|].
  - unfold objectsCompared in H. now rewrite H.
  - destruct H as [[H _]|[H _]]; discriminate H.
Defined.

End ObjectFacts.

(* ===================================================================== *)
(** * [evalAssume]                                                         *)
(* ===================================================================== *)

Module AssumeFacts.
Import AST Core dno Hooks Spec GraphFacts.
Local Open Scope N_scope.

(** The constraint of an object is as before, or the object is aliased to a
    pointer symbol outside the guard set and the constraint is decided. *)
Definition keptOrDecided (State0 State State' : ProgramState) : Prop :=
  ∀ K, DNOConstraintMap State' !! K = DNOConstraintMap State !! K
       ∨ ∃ Sym C, K ∈ objectsOf State0 Sym ∧ (Sym ∉ PtrGuards State0)
                  ∧ (C = IsNull ∨ C = IsNotNull)
                  ∧ DNOConstraintMap State' !! K = Some C.

Lemma objectsOf_graph (State State' : ProgramState) (Sym : SymbolRef) :
  graphOf State' = graphOf State → objectsOf State' Sym = objectsOf State Sym.
Proof.
  unfold graphOf, objectsOf. intros [= _ H _].
  destruct (Sym =? 0); [reflexivity|]. exact (f_equal (fun m => default [] (m !! Sym)) H).
Qed.

Lemma keptOrDecided_trans (State0 State1 State2 State3 : ProgramState) :
  keptOrDecided State0 State1 State2 → keptOrDecided State0 State2 State3 →
  keptOrDecided State0 State1 State3.
Proof.
  intros H12 H23 K. destruct (H23 K) as [H|H]; [|now right].
  destruct (H12 K) as [H'|H']; [left; congruence|].
  right. destruct H' as (Sym & C & ? & ? & ? & ?). exists Sym, C. repeat split; auto.
  congruence.
Qed.

Lemma evalAssume_symbol_effect (PtrSym : SymbolRef) (State State' : ProgramState) :
  evalAssume_symbol PtrSym State = Some State' →
  graphOf State' = graphOf State
  ∧ PtrGuards State ⊆ PtrGuards State'
  ∧ keptOrDecided State State State'.
Proof.
  unfold evalAssume_symbol.
  destruct (decide (PtrSym ∈ PtrGuards State)) as [Hin|Hnin].
  { rewrite bool_decide_eq_true_2 by assumption. intros [= <-].
    repeat split; auto. intros K. now left. }
  rewrite bool_decide_eq_false_2 by assumption.
  set (State1 := set_PtrGuards (fun Guards => Guards ∪ {[PtrSym]}) State).
  assert (HG1 : PtrGuards State ⊆ PtrGuards State1) by (unfold State1; simpl; set_solver).
  assert (Hupd : ∀ St St' C, graphOf St = graphOf State →
                   PtrGuards State ⊆ PtrGuards St →
                   C = IsNull ∨ C = IsNotNull →
                   updateConstraint_sym St PtrSym C = Some St' →
                   graphOf St' = graphOf State
                   ∧ PtrGuards State ⊆ PtrGuards St'
                   ∧ keptOrDecided State St St').
  { intros St St' C HG HP HC H.
    assert (HPG : PtrGuards St' = PtrGuards St).
    { clear -H. unfold updateConstraint_sym in H.
      destruct (PtrSym =? 0); [now injection H as <-|].
      destruct (PtrToDNOAliasMap St !! PtrSym) as [Aliases|]; [|now injection H as <-].
      revert H. generalize [PtrSym]. generalize (@nil NullableObjectStateKey).
      generalize Aliases at 2. revert St.
      induction Aliases as [|It Range IH]; intros St Pending VN VS H;
        [now injection H as <-|].
      cbn [updateConstraintSymLoop] in H.
      destruct (ImmutableSet.contains VN It); [now apply IH in H|].
      set (St1 := set_DNOConstraintMap <[It := C]> St) in *.
      assert (HS : ∀ SymAliases P V S S' P' V',
                 updateSymAliases C SymAliases P V S = Some (S', P', V') →
                 PtrGuards S' = PtrGuards S).
      { clear. induction SymAliases as [|SA Rest IH]; intros P V S S' P' V' H;
          cbn [updateSymAliases] in H; [now injection H as <- _ _|].
        destruct (ImmutableSet.contains V SA); [now apply IH in H|].
        destruct (assume (set_AliasGuard true S) (makeSymbolVal SA)
                    (bool_decide (C = IsNotNull))) as [S1|] eqn:Ha; [|discriminate H].
        apply IH in H. rewrite H. cbn [set_AliasGuard PtrGuards].
        clear -Ha. unfold assume in Ha.
        destruct (isNull _ _) as [[|]|]; destruct (bool_decide _); try discriminate Ha;
          try (now injection Ha as <-);
          destruct (getAsSymbol _); now injection Ha as <-. }
      destruct (DNOToPtrAliasMap St1 !! It) as [SymAliases|].
      - destruct (updateSymAliases C SymAliases _ VS St1)
          as [[[St2 P2] VS2]|] eqn:Hs; [|discriminate H].
        apply HS in Hs. apply IH in H. now rewrite H, Hs.
      - now apply IH in H. }
    destruct (updateConstraint_sym_effect St St' PtrSym C H) as (H1 & H2 & _).
    split; [congruence|]. split; [now rewrite HPG|].
    intros K. rewrite H1.
    destruct (decide (K ∈ objectsOf St PtrSym)) as [HK|HK].
    - right. exists PtrSym, C. rewrite bool_decide_eq_true_2 by assumption.
      rewrite (objectsOf_graph State St PtrSym HG) in HK. auto.
    - left. now rewrite bool_decide_eq_false_2. }
  assert (H1 : graphOf State1 = graphOf State) by reflexivity.
  assert (K1 : keptOrDecided State State State1) by (intros K; now left).
  destruct (isNull State1 (makeSymbolVal PtrSym)) as [[|]|].
  - destruct (updateConstraint_sym State1 PtrSym IsNull) as [State2|] eqn:H2;
      [|discriminate]. intros [= <-].
    destruct (Hupd State1 State2 IsNull H1 HG1 (or_introl eq_refl) H2) as (? & ? & ?).
    split; [assumption|]. split; [assumption|].
    apply (keptOrDecided_trans State State State1 _ K1); assumption.
  - intros H2.
    destruct (Hupd State1 State' IsNotNull H1 HG1 (or_intror eq_refl) H2) as (? & ? & ?).
    split; [assumption|]. split; [assumption|].
    apply (keptOrDecided_trans State State State1 _ K1); assumption.
  - intros [= <-]. repeat split; auto.
Qed.

Lemma evalAssume_loop_effect (PtrToDNOAliases : list (SymbolRef * DNOAliasSet)) :
  ∀ State State', evalAssume_loop PtrToDNOAliases State = Some State' →
    graphOf State' = graphOf State
    ∧ PtrGuards State ⊆ PtrGuards State'
    ∧ keptOrDecided State State State'.
Proof.
  induction PtrToDNOAliases as [|PtrAliases Rest IH]; intros State State' H;
    cbn [evalAssume_loop] in H.
  - injection H as <-. repeat split; auto. intros K. now left.
  - destruct (evalAssume_symbol PtrAliases.1 State) as [State1|] eqn:H1; [|discriminate H].
    apply evalAssume_symbol_effect in H1 as (G1 & P1 & K1).
    apply IH in H as (G2 & P2 & K2).
    split; [congruence|]. split; [intros x Hx; apply P2, P1, Hx|].
    eapply keptOrDecided_trans; [exact K1|].
    intros K. destruct (K2 K) as [?|(Sym & C & HK & HS & HC & HL)]; [now left|].
    right. exists Sym, C. rewrite (objectsOf_graph State State1 Sym G1) in HK.
    repeat split; auto.
Qed.

(** X24: [evalAssume] returns the state as it is for an undefined condition and
    while the alias guard is set.  Otherwise the state it returns has an
    empty guard set and the alias maps of the state it was given, and the
    constraint of a nullable object is as before unless the object is
    aliased to a pointer symbol that was outside the guard set, in which
    case it may have become [IsNull] or [IsNotNull]. *)
Theorem evalAssume_writes_only_objects_of_pointer_symbols (State : ProgramState)
    (Cond : SVal) (Assumption : bool) :
  match evalAssume State Cond Assumption with
  | Some State' =>
      (if isUndef Cond || AliasGuard State then State' = State
       else PtrGuards State' = ∅)
      ∧ graphOf State' = graphOf State
      ∧ ∀ K, DNOConstraintMap State' !! K = DNOConstraintMap State !! K
             ∨ ∃ Sym C, K ∈ objectsOf State Sym ∧ (Sym ∉ PtrGuards State)
                        ∧ (C = IsNull ∨ C = IsNotNull)
                        ∧ DNOConstraintMap State' !! K = Some C
  | None => isUndef Cond = false ∧ AliasGuard State = false
  end.
Proof.
  unfold evalAssume.
  destruct (isUndef Cond); [simpl; repeat split; auto|].
  destruct (AliasGuard State); [simpl; repeat split; auto|].
  destruct (evalAssume_loop _ State) as [State'|] eqn:H; [|auto].
  apply evalAssume_loop_effect in H as (G & _ & K).
  simpl. repeat split; auto.
Qed.

End AssumeFacts.
